(** * pd1 storage engine: range lock, data files, rewrite and cursor

    A shallow embedding of [tsdb/engine/pd1/pd1.go] and of the range
    lock [writeLock] in Rocq, followed by the properties of the storage
    core that the specification states.

    Conventions of the embedding.
    - Go's [int64], [uint64] and [uint32] are [Z]; where the source can
      wrap around, the wrap is written out with [u32], [u64] and [i64].
    - A run-time panic (slice out of range, nil dereference) is the
      result [Abort Panic]; loops of the source that are not bounded by
      a collection are run on fuel and give [Abort OutOfFuel] when the
      fuel is spent; a lock that cannot be taken gives [Abort Blocked].
    - A Go map whose iteration order matters is an association list in
      the order in which [range] visits it.
    - Writes to an [os.File] append to a byte list and always succeed. *)

From Stdlib Require Import ZArith List Lia Bool Sorted.
From Stdlib.Strings Require Import Byte.
Import ListNotations.
Local Open Scope Z_scope.

(* ================================================================== *)
(** * Part I: the model *)
(* ================================================================== *)

(** ** Go primitives *)

Module Go.

Inductive abort : Type := Panic | OutOfFuel | Blocked.

Inductive result (A : Type) : Type :=
| Ok (a : A)
| Abort (e : abort).
Arguments Ok {A} a.
Arguments Abort {A} e.

Definition bind {A B : Type} (m : result A) (k : A -> result B) : result B :=
  match m with
  | Ok a => k a
  | Abort e => Abort e
  end.

Definition byte : Type := Byte.byte.
Definition bytes : Type := list byte.

(** Fixed-width integers. *)
Definition u32 (z : Z) : Z := z mod 2 ^ 32.
Definition u64 (z : Z) : Z := z mod 2 ^ 64.
Definition i64 (z : Z) : Z := (z + 2 ^ 63) mod 2 ^ 64 - 2 ^ 63.

Definition MaxInt64 : Z := 2 ^ 63 - 1.
Definition MinInt64 : Z := - 2 ^ 63.

Definition len {A : Type} (s : list A) : Z := Z.of_nat (length s).

(** [s[lo:hi]] on a slice whose capacity is its length. *)
Definition slice {A : Type} (s : list A) (lo hi : Z) : result (list A) :=
  if (0 <=? lo) && (lo <=? hi) && (hi <=? len s)
  then Ok (firstn (Z.to_nat (hi - lo)) (skipn (Z.to_nat lo) s))
  else Abort Panic.

(** [s[i]]. *)
Definition index {A : Type} (s : list A) (i : Z) : result A :=
  if (0 <=? i) && (i <? len s)
  then match nth_error s (Z.to_nat i) with
       | Some a => Ok a
       | None => Abort Panic
       end
  else Abort Panic.

Definition Z_of_byte (b : byte) : Z := Z.of_N (Byte.to_N b).

Definition byte_of_Z (z : Z) : byte :=
  match Byte.of_N (Z.to_N (z mod 256)) with
  | Some b => b
  | None => Byte.x00
  end.

(** Big-endian encoding of the low [n] bytes of [v]. *)
Fixpoint be_bytes (n : nat) (v : Z) : bytes :=
  match n with
  | O => []
  | S k => byte_of_Z (v / 256 ^ Z.of_nat k) :: be_bytes k v
  end.

Definition be_value (b : bytes) : Z :=
  fold_left (fun acc x => acc * 256 + Z_of_byte x) b 0.

(** [binary.BigEndian.PutUint64] into a fresh 8-byte slice. *)
Definition u64tob (v : Z) : bytes := be_bytes 8 (u64 v).

(** [binary.BigEndian.Uint64]: reads [b[0..7]], panics on a shorter slice. *)
Definition btou64 (b : bytes) : result Z :=
  if 8 <=? len b then Ok (be_value (firstn 8 b)) else Abort Panic.

Definition u32tob (v : Z) : bytes := be_bytes 4 (u32 v).

Definition btou32 (b : bytes) : result Z :=
  if 4 <=? len b then Ok (be_value (firstn 4 b)) else Abort Panic.

End Go.

Import Go.

Notation "x <- m ;; k" := (bind m (fun x => k))
  (at level 61, m at next level, right associativity).
Notation "' pat <- m ;; k" := (bind m (fun x => match x with pat => k end))
  (at level 61, pat pattern, m at next level, right associativity).

(** ** The range lock ([writeLock]) *)

Module Lock.

(** [rangeLock]: the mutex [mu] of a range is held exactly while the
    range is in the list [ranges] of the lock. *)
Record rangeLock : Type := { min : Z; max : Z }.

(** [func (r *rangeLock) overlaps(l *rangeLock) bool] *)
Definition overlaps (r l : rangeLock) : bool :=
  if (min l >=? min r) && (min l <=? max r) then true
  else if (max l >=? min r) && (max l <=? max r) then true
  else false.

Record writeLock : Type := { ranges : list rangeLock }.

Definition currentlyLockedRanges (w : writeLock) : list rangeLock := ranges w.

(** The held ranges on whose mutex [LockRange] waits. *)
Definition LockRange_waits (w : writeLock) (min max : Z) : list rangeLock :=
  let r := {| min := min; max := max |} in
  filter (fun rr => overlaps rr r) (currentlyLockedRanges w).

(** [LockRange]: returns once none of the ranges it waits on is held;
    while one is held the call is blocked. *)
Definition LockRange (w : writeLock) (min max : Z) : result writeLock :=
  let r := {| min := min; max := max |} in
  match LockRange_waits w min max with
  | [] => Ok {| ranges := ranges w ++ [r] |}
  | _ :: _ => Abort Blocked
  end.

(** [UnlockRange]: every range equal to [(min, max)] is released. *)
Definition UnlockRange (w : writeLock) (mn mx : Z) : writeLock :=
  {| ranges :=
       filter (fun r => negb ((min r =? mn) && (max r =? mx))) (ranges w) |}.

End Lock.

(** ** Values and the block codec *)

Module Encoding.

(** The payload of a point: one of the scalar types of the point model;
    a float is carried as its 64 bits. *)
Inductive scalar : Type :=
| Float64 (bits : Z)
| Int64 (n : Z)
| Boolean (b : bool)
| String (s : bytes).

(** [Value]: a timestamp in nanoseconds and a payload. *)
Record Value : Type := { UnixNano : Z; Value_ : scalar }.

Definition Values : Type := list Value.

(** Modelled from the spec: [Values.MinTime] is not in the sources at
    hand; [Values] is "an ordered sequence of Value, ascending by time",
    so its minimum time is the time of its first element.  An empty
    sequence has none: the call panics. *)
Definition MinTime (v : Values) : result Z :=
  match v with
  | [] => Abort Panic
  | x :: _ => Ok (UnixNano x)
  end.

(** Modelled from the spec: [Values.MaxTime] is not in the sources at
    hand; the maximum time of an ascending sequence is the time of its
    last element, and an empty sequence panics. *)
Definition MaxTime (v : Values) : result Z :=
  match v with
  | [] => Abort Panic
  | x :: r => Ok (UnixNano (last r x))
  end.

Fixpoint insert_value (x : Value) (a : Values) : Values :=
  match a with
  | [] => [x]
  | y :: r =>
      if UnixNano x <? UnixNano y then x :: a
      else if UnixNano x =? UnixNano y then x :: r
      else y :: insert_value x r
  end.

(** Modelled from the spec: [Values.Deduplicate] is not in the sources
    at hand; it "returns the same sequence with duplicate timestamps
    collapsed (last occurrence wins) in ascending time order". *)
Definition Deduplicate (v : Values) : Values :=
  fold_left (fun a x => insert_value x a) v [].

(** The block codec of [encoding.go], which the engine treats as
    opaque: [Encode] of a sequence, [DecodeSameTypeBlock] with the
    receiver that fixes the payload type, and [DecodeBlock], whose error
    the engine discards. *)
Class Codec : Type := {
  Encode : Values -> result bytes;
  DecodeSameTypeBlock : Values -> bytes -> result Values;
  DecodeBlock : bytes -> result Values
}.

(** [sort.Search] of the Go library: the smallest index in [0, n) at
    which [f] holds, by bisection; [n] when there is none. *)
Fixpoint Search_loop (fuel : nat) (f : Z -> result bool) (i j : Z)
  : result Z :=
  if i <? j then
    match fuel with
    | O => Abort OutOfFuel
    | S k =>
        let h := (i + j) / 2 in
        b <- f h ;;
        if negb b then Search_loop k f (h + 1) j
        else Search_loop k f i h
    end
  else Ok i.

Definition Search (n : Z) (f : Z -> result bool) : result Z :=
  Search_loop (Z.to_nat n) f 0 n.

End Encoding.

Import Encoding.

(** ** Data files *)

Module DataFile.

Definition MaxDataFileSize : Z := 1024 * 1024 * 1024.
Definition DefaultRotateBlockSize : Z := 512 * 1024.
Definition DefaultRotateFileSize : Z := 5 * 1024 * 1024.
Definition DefaultMaxPointsPerBlock : Z := 1000.
Definition magicNumber : Z := 0x16D116D1.

Definition fileHeaderSize : Z := 4.
Definition seriesCountSize : Z := 4.
Definition timeSize : Z := 8.
Definition blockHeaderSize : Z := 12.
Definition seriesIDSize : Z := 8.
Definition seriesPositionSize : Z := 4.
Definition seriesHeaderSize : Z := seriesIDSize + seriesPositionSize.

(** [dataFile].  The open file [f] is its sequence number ([None] once
    deleted); two [*dataFile] pointers are equal when they name the
    same file.  [modTime] is in nanoseconds. *)
Record dataFile : Type := {
  f : option Z;
  size : Z;
  modTime : Z;
  mmap : bytes
}.

Definition same_file (a b : dataFile) : bool :=
  match f a, f b with
  | Some x, Some y => x =? y
  | _, _ => false
  end.

(** [NewDataFile]: maps the whole file. *)
Definition NewDataFile (name : Z) (contents : bytes) (mtime : Z) : dataFile :=
  {| f := Some name;
     mmap := contents;
     size := u32 (len contents);
     modTime := mtime |}.

Definition MinTime (d : dataFile) : result Z :=
  b <- slice (mmap d) (u32 (size d - 20)) (u32 (size d - 12)) ;;
  v <- btou64 b ;;
  Ok (i64 v).

Definition MaxTime (d : dataFile) : result Z :=
  b <- slice (mmap d) (u32 (size d - 12)) (u32 (size d - 4)) ;;
  v <- btou64 b ;;
  Ok (i64 v).

Definition SeriesCount (d : dataFile) : result Z :=
  b <- slice (mmap d) (u32 (size d - 4)) (len (mmap d)) ;;
  btou32 b.

Definition indexPosition (d : dataFile) : result Z :=
  n <- SeriesCount d ;;
  Ok (u32 (size d - u32 (n * 12 + 20))).

(** A Go map from ids, as an association list without repeated keys. *)
Fixpoint map_set {V : Type} (m : list (Z * V)) (k : Z) (v : V) : list (Z * V) :=
  match m with
  | [] => [(k, v)]
  | (k', v') :: r => if k' =? k then (k, v) :: r else (k', v') :: map_set r k v
  end.

Fixpoint map_get {V : Type} (m : list (Z * V)) (k : Z) : option V :=
  match m with
  | [] => None
  | (k', v') :: r => if k' =? k then Some v' else map_get r k
  end.

Fixpoint map_delete {V : Type} (m : list (Z * V)) (k : Z) : list (Z * V) :=
  match m with
  | [] => []
  | (k', v') :: r => if k' =? k then map_delete r k else (k', v') :: map_delete r k
  end.

(** The loop of [IDToPosition], from entry [i] on, [n] entries to go. *)
Fixpoint IDToPosition_loop (n : nat) (d : dataFile) (indexStart i : Z)
    (m : list (Z * Z)) : result (list (Z * Z)) :=
  match n with
  | O => Ok m
  | S k =>
      let offset := u32 (indexStart + u32 (i * 12)) in
      b <- slice (mmap d) offset (u32 (offset + 8)) ;;
      id <- btou64 b ;;
      b' <- slice (mmap d) (u32 (offset + 8)) (u32 (offset + 12)) ;;
      pos <- btou32 b' ;;
      IDToPosition_loop k d indexStart (i + 1) (map_set m id pos)
  end.

Definition IDToPosition (d : dataFile) : result (list (Z * Z)) :=
  count <- SeriesCount d ;;
  let indexStart := u32 (size d - u32 (count * 12 + 20)) in
  IDToPosition_loop (Z.to_nat count) d indexStart 0 [].

(** The bisection of [StartingPositionForID]. *)
Fixpoint StartingPositionForID_loop (fuel : nat) (d : dataFile) (id : Z)
    (indexStart min max : Z) : result Z :=
  if min <? max then
    match fuel with
    | O => Abort OutOfFuel
    | S k =>
        let mid := u32 (u32 (max - min) / 2 + min) in
        let offset := u32 (mid * seriesHeaderSize + indexStart) in
        b <- slice (mmap d) offset (u32 (offset + 8)) ;;
        checkID <- btou64 b ;;
        if checkID =? id then
          b' <- slice (mmap d) (u32 (offset + 8)) (u32 (offset + 12)) ;;
          btou32 b'
        else if checkID <? id then
          StartingPositionForID_loop k d id indexStart (u32 (mid + 1)) max
        else
          StartingPositionForID_loop k d id indexStart min mid
    end
  else Ok 0.

Definition StartingPositionForID (d : dataFile) (id : Z) : result Z :=
  seriesCount <- SeriesCount d ;;
  indexStart <- indexPosition d ;;
  StartingPositionForID_loop (Z.to_nat seriesCount) d id indexStart
    0 seriesCount.

(** [block]: the id, first timestamp and bytes of the block at [pos];
    zero values at or past the index. *)
Definition block (d : dataFile) (pos : Z) : result (Z * Z * bytes) :=
  ip <- indexPosition d ;;
  if pos <? ip then
    b <- slice (mmap d) pos (u32 (pos + 8)) ;;
    id <- btou64 b ;;
    b' <- slice (mmap d) (u32 (pos + 8)) (u32 (pos + 12)) ;;
    length <- btou32 b' ;;
    blk <- slice (mmap d) (u32 (pos + blockHeaderSize))
                 (u32 (pos + blockHeaderSize + length)) ;;
    tb <- slice (mmap d) (u32 (pos + blockHeaderSize))
                (u32 (pos + blockHeaderSize + 8)) ;;
    t <- btou64 tb ;;
    Ok (id, i64 t, blk)
  else Ok (0, 0, []).

End DataFile.

(** ** Go slices over shared backing arrays

    [filterDataBetweenTimes] reslices and appends to the slices it is
    given, so its values live in backing arrays that several slice
    headers may share. *)

Module Slices.

Record hdr : Type := { base : nat; off : Z; length : Z; cap : Z }.

Definition heap (A : Type) : Type := list (list A).

Definition array {A : Type} (h : heap A) (s : hdr) : list A :=
  nth (base s) h [].

(** The elements a slice header denotes. *)
Definition view {A : Type} (h : heap A) (s : hdr) : list A :=
  firstn (Z.to_nat (length s)) (skipn (Z.to_nat (off s)) (array h s)).

(** [s[lo:hi]]: bounded by the capacity, shares the backing array. *)
Definition reslice (s : hdr) (lo hi : Z) : result hdr :=
  if (0 <=? lo) && (lo <=? hi) && (hi <=? cap s)
  then Ok {| base := base s; off := off s + lo;
             length := hi - lo; cap := cap s - lo |}
  else Abort Panic.

Definition write {A : Type} (a : list A) (at_ : Z) (xs : list A) : list A :=
  firstn (Z.to_nat at_) a ++ xs
    ++ skipn (Z.to_nat at_ + Datatypes.length xs) a.

Definition set_array {A : Type} (h : heap A) (b : nat) (a : list A) : heap A :=
  firstn b h ++ a :: skipn (S b) h.

(** [append(s, xs...)]: in place while the capacity allows, into a new
    backing array (of just the needed capacity) otherwise. *)
Definition append {A : Type} (h : heap A) (s : hdr) (xs : list A)
  : heap A * hdr :=
  if length s + len xs <=? cap s then
    (set_array h (base s) (write (array h s) (off s + length s) xs),
     {| base := base s; off := off s;
        length := length s + len xs; cap := cap s |})
  else
    (h ++ [view h s ++ xs],
     {| base := Datatypes.length h; off := 0;
        length := length s + len xs; cap := length s + len xs |}).

End Slices.

(** ** The engine *)

Module Engine.

Import DataFile.

Record Engine : Type := {
  writeLock : Lock.writeLock;
  RotateFileSize : Z;
  SkipCompaction : bool;
  CompactionAge : Z;
  CompactionFileCount : Z;
  IndexCompactionFullAge : Z;
  IndexMinimumCompactionInterval : Z;
  files : list dataFile;
  currentFileID : Z;
  compactionRunning : bool;
  lastCompactionTime : Z
}.

Definition copyFilesCollection (e : Engine) : list dataFile := files e.

(** *** filesAndLock *)

(** The loop of [filesAndLock] over [e.files]. *)
Fixpoint filesAndLock_select (fs : list dataFile) (min max : Z)
    (a : list dataFile) : result (list dataFile) :=
  match fs with
  | [] => Ok a
  | f :: rest =>
      fmin <- DataFile.MinTime f ;;
      fmax <- DataFile.MaxTime f ;;
      if (min <? fmax) && (fmin >=? fmin) then
        filesAndLock_select rest min max (a ++ [f])
      else if (max >=? fmin) && (max <? fmax) then
        filesAndLock_select rest min max (a ++ [f])
      else
        filesAndLock_select rest min max a
  end.

(** One pass of [filesAndLock].  No other goroutine runs between the
    two copies of the file collection, so they are equal and the first
    pass returns; a range that is held blocks the call. *)
Definition filesAndLock (e : Engine) (min max : Z)
  : result (list dataFile * Z * Z * Engine) :=
  a <- filesAndLock_select (files e) min max [] ;;
  '(lockStart, lockEnd) <-
     (if len a >? 0 then
        first <- index a 0 ;;
        lockStart <- DataFile.MinTime first ;;
        final <- index a (len a - 1) ;;
        lockEnd <- DataFile.MaxTime final ;;
        Ok (lockStart, if max >? lockEnd then max else lockEnd)
      else Ok (min, max)) ;;
  w <- Lock.LockRange (writeLock e) lockStart lockEnd ;;
  Ok (a, lockStart, lockEnd,
      {| writeLock := w;
         RotateFileSize := RotateFileSize e;
         SkipCompaction := SkipCompaction e;
         CompactionAge := CompactionAge e;
         CompactionFileCount := CompactionFileCount e;
         IndexCompactionFullAge := IndexCompactionFullAge e;
         IndexMinimumCompactionInterval := IndexMinimumCompactionInterval e;
         files := files e;
         currentFileID := currentFileID e;
         compactionRunning := compactionRunning e;
         lastCompactionTime := lastCompactionTime e |}).

(** *** filesToCompact *)

(** The loop of [filesToCompact]; [now] is the clock read by
    [time.Since]. *)
Fixpoint filesToCompact_loop (now age : Z) (fs : list dataFile)
    (a : list dataFile) : list dataFile :=
  match fs with
  | [] => a
  | df :: rest =>
      if (now - modTime df >? age) && (size df <? MaxDataFileSize) then
        filesToCompact_loop now age rest (a ++ [df])
      else if len a >? 0 then a
      else filesToCompact_loop now age rest a
  end.

Definition filesToCompact (e : Engine) (now : Z) : list dataFile :=
  filesToCompact_loop now (CompactionAge e) (files e) [].

Definition shouldCompact (e : Engine) (now : Z) : bool :=
  let running := compactionRunning e in
  let since := now - lastCompactionTime e in
  if running || (since <? IndexMinimumCompactionInterval e) then false
  else len (filesToCompact e now) >=? CompactionFileCount e.

(** *** filterDataBetweenTimes *)

(** [for i, v := range values]: the first index whose time is in
    [[minTime, maxTime)], [0] when there is none. *)
Fixpoint minIndex_loop (values : Values) (i minTime maxTime : Z) : Z :=
  match values with
  | [] => 0
  | v :: rest =>
      let t := UnixNano v in
      if (t >=? minTime) && (t <? maxTime) then i
      else minIndex_loop rest (i + 1) minTime maxTime
  end.

(** [for i := len(values) - 1; i >= 0; i--], on the reversed values:
    one past the last index whose time is below [maxTime], [dflt] when
    there is none. *)
Fixpoint maxIndex_loop (rvalues : Values) (i maxTime dflt : Z) : Z :=
  match rvalues with
  | [] => dflt
  | v :: rest =>
      if UnixNano v <? maxTime then i + 1
      else maxIndex_loop rest (i - 1) maxTime dflt
  end.

(** The body of the loop over the map, for the entry [(id, values)]. *)
Definition filterDataBetweenTimes_entry (minTime maxTime : Z)
    (st : Slices.heap Value * list (Z * Slices.hdr) * list (Z * Slices.hdr))
    (id : Z) (values : Slices.hdr)
  : result (Slices.heap Value * list (Z * Slices.hdr) * list (Z * Slices.hdr)) :=
  let '(h, valuesByID, filteredValues) := st in
  let vs := Slices.view h values in
  let n := Slices.length values in
  let minIndex := minIndex_loop vs 0 minTime maxTime in
  let maxIndex := maxIndex_loop (rev vs) (n - 1) maxTime n in
  filt <- Slices.reslice values minIndex maxIndex ;;
  let filteredValues := map_set filteredValues id filt in
  if (minIndex =? n) || ((minIndex =? 0) && (maxIndex =? n)) then
    Ok (h, map_delete valuesByID id, filteredValues)
  else
    kept <- Slices.reslice values 0 minIndex ;;
    let valuesByID := map_set valuesByID id kept in
    if maxIndex <? n then
      tl <- Slices.reslice values maxIndex n ;;
      let '(h', kept') := Slices.append h kept (Slices.view h tl) in
      Ok (h', map_set valuesByID id kept', filteredValues)
    else Ok (h, valuesByID, filteredValues).

Fixpoint filterDataBetweenTimes_loop (minTime maxTime : Z)
    (entries : list (Z * Slices.hdr))
    (st : Slices.heap Value * list (Z * Slices.hdr) * list (Z * Slices.hdr))
  : result (Slices.heap Value * list (Z * Slices.hdr) * list (Z * Slices.hdr)) :=
  match entries with
  | [] => Ok st
  | (id, values) :: rest =>
      st' <- filterDataBetweenTimes_entry minTime maxTime st id values ;;
      filterDataBetweenTimes_loop minTime maxTime rest st'
  end.

(** [filterDataBetweenTimes]: the heap after the call, the passed-in
    map as the call leaves it, and the returned map. *)
Definition filterDataBetweenTimes (h : Slices.heap Value)
    (valuesByID : list (Z * Slices.hdr)) (minTime maxTime : Z)
  : result (Slices.heap Value * list (Z * Slices.hdr) * list (Z * Slices.hdr)) :=
  filterDataBetweenTimes_loop minTime maxTime valuesByID (h, valuesByID, []).

End Engine.

(** ** Rewriting a data file *)

Module Rewrite.

Import DataFile Engine.

Section WithCodec.

Context {codec : Codec}.

(** [DecodeAndCombine].  The scratch buffer [buf] only saves
    allocations and is left out. *)
Definition DecodeAndCombine (newValues : Values) (block : bytes)
    (nextTime : Z) (hasFutureBlock : bool) : result (Values * bytes) :=
  values <- DecodeSameTypeBlock newValues block ;;
  '(values, remainingValues) <-
     (if hasFutureBlock then
        pos <- Search (len newValues)
                 (fun i => v <- index newValues i ;;
                           Ok (UnixNano v >=? nextTime)) ;;
        merged <- slice newValues 0 pos ;;
        remainingValues <- slice newValues pos (len newValues) ;;
        Ok (Deduplicate (values ++ merged), remainingValues)
      else
        vmax <- Encoding.MaxTime values ;;
        nmin <- Encoding.MinTime newValues ;;
        let requireSort := vmax >=? nmin in
        let values := values ++ newValues in
        Ok (if requireSort then Deduplicate values else values, [])) ;;
  '(values, remainingValues) <-
     (if len values >? DefaultMaxPointsPerBlock then
        remainingValues <- slice values DefaultMaxPointsPerBlock (len values) ;;
        values <- slice values 0 DefaultMaxPointsPerBlock ;;
        Ok (values, remainingValues)
      else Ok (values, remainingValues)) ;;
  b <- Encode values ;;
  Ok (remainingValues, b).

Definition nextFileName (e : Engine) : Engine * Z :=
  ({| writeLock := writeLock e;
      RotateFileSize := RotateFileSize e;
      SkipCompaction := SkipCompaction e;
      CompactionAge := CompactionAge e;
      CompactionFileCount := CompactionFileCount e;
      IndexCompactionFullAge := IndexCompactionFullAge e;
      IndexMinimumCompactionInterval := IndexMinimumCompactionInterval e;
      files := files e;
      currentFileID := currentFileID e + 1;
      compactionRunning := compactionRunning e;
      lastCompactionTime := lastCompactionTime e |},
   currentFileID e + 1).

(** [writeBlock]: the id, the length and the bytes of a block, appended
    to the file written so far. *)
Definition writeBlock (out : bytes) (id : Z) (block : bytes) : bytes :=
  out ++ (u64tob id ++ u32tob (len block)) ++ block.

Fixpoint writeIndex_loop (ids : list Z) (i : Z) (newPositions : list Z)
    (out : bytes) : result bytes :=
  match ids with
  | [] => Ok out
  | id :: rest =>
      p <- index newPositions i ;;
      writeIndex_loop rest (i + 1) newPositions (out ++ u64tob id ++ u32tob p)
  end.

(** [writeIndexAndGetDataFile]: index, time range and series count, then
    the file is mapped; [name] is the file being written and [mtime] its
    modification time. *)
Definition writeIndexAndGetDataFile (name : Z) (mtime : Z) (out : bytes)
    (minTime maxTime : Z) (ids : list Z) (newPositions : list Z)
  : result dataFile :=
  out <- writeIndex_loop ids 0 newPositions out ;;
  let out := out ++ (u64tob (u64 minTime) ++ u64tob (u64 maxTime)) in
  let out := out ++ u32tob (u32 (len ids)) in
  Ok (NewDataFile name out mtime).

(** The time range of the new file: the loop over [valuesByID]. *)
Fixpoint rewriteFile_times (valuesByID : list (Z * Values))
    (minTime maxTime : Z) : result (Z * Z) :=
  match valuesByID with
  | [] => Ok (minTime, maxTime)
  | (_, v) :: rest =>
      vmin <- Encoding.MinTime v ;;
      let minTime := if minTime >? vmin then vmin else minTime in
      vmax <- Encoding.MaxTime v ;;
      let maxTime := if maxTime <? vmax then i64 (vmax + 1) else maxTime in
      rewriteFile_times rest minTime maxTime
  end.

(** The ids of the old file that are not being flushed. *)
Fixpoint rewriteFile_oldIDs (oldIDToPosition : list (Z * Z))
    (valuesByID : list (Z * Values)) (ids : list Z) : list Z :=
  match oldIDToPosition with
  | [] => ids
  | (id, _) :: rest =>
      match map_get valuesByID id with
      | None => rewriteFile_oldIDs rest valuesByID (ids ++ [id])
      | Some _ => rewriteFile_oldIDs rest valuesByID ids
      end
  end.

Fixpoint insert_sorted {A : Type} (key : A -> Z) (x : A) (l : list A) : list A :=
  match l with
  | [] => [x]
  | y :: r => if key x <=? key y then x :: l else y :: insert_sorted key x r
  end.

(** [sort.Sort]: ascending by [key].  Elements with equal keys keep
    their order, as the insertion sort that [sort.Sort] runs on slices
    of fewer than twelve elements leaves them: an element moves towards
    the front only past elements that are greater.  (On longer slices
    the library leaves the order of equal elements open; the ids that
    [rewriteFile] sorts are distinct.) *)
Definition sort_by {A : Type} (key : A -> Z) (l : list A) : list A :=
  fold_right (insert_sorted key) [] l.

(** [sort.Sort(dataFiles)]: [Less] compares [MinTime]s and is called
    only when there are two files or more. *)
Definition sort_dataFiles (a : list dataFile) : result (list dataFile) :=
  match a with
  | [] | [_] => Ok a
  | _ =>
      keyed <- fold_right
                 (fun d acc => l <- acc ;; t <- DataFile.MinTime d ;; Ok ((t, d) :: l))
                 (Ok []) a ;;
      Ok (map snd (sort_by fst keyed))
  end.

(** An id that is only in the old file: its blocks are copied. *)
Fixpoint rewriteFile_copy (fuel : nat) (oldDF : dataFile) (id fpos : Z)
    (out : bytes) (currentPosition : Z) : result (bytes * Z) :=
  match fuel with
  | O => Abort OutOfFuel
  | S k =>
      b <- slice (mmap oldDF) fpos (u32 (fpos + 8)) ;;
      fid <- btou64 b ;;
      if negb (fid =? id) then Ok (out, currentPosition)
      else
        lb <- slice (mmap oldDF) (u32 (fpos + 8)) (u32 (fpos + 12)) ;;
        length <- btou32 lb ;;
        blk <- slice (mmap oldDF) fpos (u32 (fpos + 12 + length)) ;;
        let out := out ++ blk in
        let fpos := u32 (fpos + (12 + length)) in
        let currentPosition := u32 (currentPosition + (12 + length)) in
        if fpos >=? size oldDF then Ok (out, currentPosition)
        else rewriteFile_copy k oldDF id fpos out currentPosition
  end.

(** An id in the old file and in the new values: every old block is
    combined with the new values that belong to it. *)
Fixpoint rewriteFile_combine (fuel : nat) (oldDF : dataFile) (id fpos : Z)
    (newVals : Values) (out : bytes) (currentPosition : Z)
  : result (Values * bytes * Z) :=
  match fuel with
  | O => Abort OutOfFuel
  | S k =>
      '(fid, _, block) <- DataFile.block oldDF fpos ;;
      if negb (fid =? id) then Ok (newVals, out, currentPosition)
      else
        let fpos := u32 (fpos + u32 (blockHeaderSize + len block)) in
        '(nextID, nextTime, _) <- DataFile.block oldDF fpos ;;
        let hasFutureBlock := nextID =? id in
        '(nv, newBlock) <- DecodeAndCombine newVals block nextTime hasFutureBlock ;;
        let newVals := nv in
        let out := out ++ (u64tob id ++ u32tob (len newBlock)) in
        let out := out ++ newBlock in
        let currentPosition :=
          u32 (currentPosition + u32 (blockHeaderSize + len newBlock)) in
        ip <- indexPosition oldDF ;;
        if fpos >=? ip then Ok (newVals, out, currentPosition)
        else rewriteFile_combine k oldDF id fpos newVals out currentPosition
  end.

(** The body of the loop over the sorted ids. *)
Definition rewriteFile_id (oldDF : option dataFile)
    (valuesByID : list (Z * Values)) (oldIDToPosition : list (Z * Z))
    (id : Z) (out : bytes) (currentPosition : Z) : result (bytes * Z) :=
  let newVals := match map_get valuesByID id with
                 | Some v => v
                 | None => []
                 end in
  if len newVals =? 0 then
    let fpos := match map_get oldIDToPosition id with
                | Some p => p
                | None => 0
                end in
    match oldDF with
    | None => Abort Panic
    | Some old =>
        rewriteFile_copy (S (Datatypes.length (mmap old))) old id fpos
          out currentPosition
    end
  else
    match map_get oldIDToPosition id with
    | None =>
        block <- Encode newVals ;;
        Ok (writeBlock out id block,
            u32 (currentPosition + u32 (blockHeaderSize + len block)))
    | Some fpos =>
        match oldDF with
        | None => Abort Panic
        | Some old =>
            '(newVals, out, currentPosition) <-
               rewriteFile_combine (S (Datatypes.length (mmap old))) old id fpos
                 newVals out currentPosition ;;
            if len newVals >? 0 then
              block <- Encode newVals ;;
              let out := out ++ (u64tob id ++ u32tob (len block)) in
              let out := out ++ block in
              Ok (out, u32 (currentPosition + u32 (blockHeaderSize + len block)))
            else Ok (out, currentPosition)
        end
    end.

Fixpoint rewriteFile_ids (oldDF : option dataFile)
    (valuesByID : list (Z * Values)) (oldIDToPosition : list (Z * Z))
    (ids : list Z) (out : bytes) (currentPosition : Z)
    (newPositions : list Z) : result (bytes * list Z) :=
  match ids with
  | [] => Ok (out, newPositions)
  | id :: rest =>
      let newPositions := newPositions ++ [currentPosition] in
      '(out, currentPosition) <-
         rewriteFile_id oldDF valuesByID oldIDToPosition id out currentPosition ;;
      rewriteFile_ids oldDF valuesByID oldIDToPosition rest out currentPosition
        newPositions
  end.

(** [rewriteFile]: the engine after the call and the data file the call
    has created, if any.  [valuesByID] is in the order in which [range]
    visits the map; [now] is the modification time of the new file. *)
Definition rewriteFile (e : Engine) (now : Z) (oldDF : option dataFile)
    (valuesByID : list (Z * Values)) : result (Engine * option dataFile) :=
  if len valuesByID =? 0 then Ok (e, None)
  else
    let ids := map fst valuesByID in
    '(oldIDToPosition, minTime, maxTime) <-
       match oldDF with
       | Some old =>
           m <- IDToPosition old ;;
           mn <- DataFile.MinTime old ;;
           mx <- DataFile.MaxTime old ;;
           Ok (m, mn, mx)
       | None => Ok ([], MaxInt64, MinInt64)
       end ;;
    '(minTime, maxTime) <- rewriteFile_times valuesByID minTime maxTime ;;
    let ids := rewriteFile_oldIDs oldIDToPosition valuesByID ids in
    let ids := sort_by (fun x => x) ids in
    let '(e, name) := nextFileName e in
    let out := u32tob magicNumber in
    '(out, newPositions) <-
       rewriteFile_ids oldDF valuesByID oldIDToPosition ids out
         fileHeaderSize [] ;;
    newDF <- writeIndexAndGetDataFile name now out minTime maxTime ids
               newPositions ;;
    let kept :=
      filter (fun df => match oldDF with
                        | Some old => negb (same_file df old)
                        | None => true
                        end) (files e) in
    sorted <- sort_dataFiles (kept ++ [newDF]) ;;
    Ok ({| writeLock := writeLock e;
           RotateFileSize := RotateFileSize e;
           SkipCompaction := SkipCompaction e;
           CompactionAge := CompactionAge e;
           CompactionFileCount := CompactionFileCount e;
           IndexCompactionFullAge := IndexCompactionFullAge e;
           IndexMinimumCompactionInterval := IndexMinimumCompactionInterval e;
           files := sorted;
           currentFileID := currentFileID e;
           compactionRunning := compactionRunning e;
           lastCompactionTime := lastCompactionTime e |},
        Some newDF).

End WithCodec.

End Rewrite.

(** ** The cursor *)

Module Cursor.

Import DataFile.

Record cursor : Type := {
  id : Z;
  f : option dataFile;
  filesPos : Z;
  pos : Z;
  vals : Values;
  ascending : bool;
  files : list dataFile
}.

Definition newCursor (id : Z) (files : list dataFile) (ascending : bool)
  : cursor :=
  {| id := id; f := None; filesPos := 0; pos := 0; vals := [];
     ascending := ascending; files := files |}.

Definition set_file (c : cursor) (i : Z) (d : dataFile) : cursor :=
  {| id := id c; f := Some d; filesPos := i; pos := pos c; vals := vals c;
     ascending := ascending c; files := files c |}.

Definition set_filesPos (c : cursor) (i : Z) : cursor :=
  {| id := id c; f := f c; filesPos := i; pos := pos c; vals := vals c;
     ascending := ascending c; files := files c |}.

Definition set_vals (c : cursor) (v : Values) : cursor :=
  {| id := id c; f := f c; filesPos := filesPos c; pos := pos c; vals := v;
     ascending := ascending c; files := files c |}.

Definition set_vals_pos (c : cursor) (v : Values) (p : Z) : cursor :=
  {| id := id c; f := f c; filesPos := filesPos c; pos := p; vals := v;
     ascending := ascending c; files := files c |}.

(** What [SeekTo] and [Next] return: a time and a value ([None] is
    [nil]). *)
Definition item : Type := (Z * option scalar)%type.

Section WithCodec.

Context {codec : Codec}.

(** [tsdb.EOF], the time that stands for "no more values"; its
    declaration is outside the sources at hand. *)
Variable EOF : Z.

Definition deref (d : option dataFile) : result dataFile :=
  match d with
  | Some x => Ok x
  | None => Abort Panic
  end.

Definition decodeBlockAndGetValues (c : cursor) (position : Z)
  : result (item * cursor) :=
  d <- deref (f c) ;;
  lb <- slice (mmap d) (u32 (position + 8)) (u32 (position + 12)) ;;
  length <- btou32 lb ;;
  block <- slice (mmap d) (u32 (position + 12)) (u32 (position + 12 + length)) ;;
  decoded <- DecodeBlock block ;;
  let p := u32 (position + 12 + length) in
  v <- index decoded 0 ;;
  rest <- slice decoded 1 (len decoded) ;;
  Ok ((UnixNano v, Some (Value_ v)), set_vals_pos c rest p).

(** The loop of [SeekTo] over the files: the first file whose time
    range holds [seek], with its index. *)
Fixpoint SeekTo_select (fs : list dataFile) (i : Z) (seek : Z)
  : result (option (Z * dataFile)) :=
  match fs with
  | [] => Ok None
  | d :: rest =>
      fmin <- DataFile.MinTime d ;;
      if seek >=? fmin then
        fmax <- DataFile.MaxTime d ;;
        if seek <=? fmax then Ok (Some (i, d))
        else SeekTo_select rest (i + 1) seek
      else SeekTo_select rest (i + 1) seek
  end.

(** [for i, v := range c.vals]: the first value at or after [seek] and
    the values after it. *)
Fixpoint SeekTo_vals (vs : Values) (seek : Z) : option (Value * Values) :=
  match vs with
  | [] => None
  | v :: rest =>
      if UnixNano v >=? seek then Some (v, rest) else SeekTo_vals rest seek
  end.

(** The two nested loops of [SeekTo]: [block_pos] is [None] at the head
    of the outer loop and the position [pos] at the head of the inner
    one. *)
Fixpoint SeekTo_loop (fuel : nat) (c : cursor) (block_pos : option Z)
    (seek : Z) : result (item * cursor) :=
  match fuel with
  | O => Abort OutOfFuel
  | S k =>
      d <- deref (f c) ;;
      match block_pos with
      | None =>
          p <- StartingPositionForID d (id c) ;;
          if p =? 0 then
            let c := set_filesPos c (filesPos c + 1) in
            if filesPos c >=? len (files c) then Ok ((EOF, None), c)
            else
              d' <- index (files c) (filesPos c) ;;
              SeekTo_loop k (set_file c (filesPos c) d') None seek
          else SeekTo_loop k c (Some p) seek
      | Some p =>
          lb <- slice (mmap d) (u32 (p + 8)) (u32 (p + 12)) ;;
          length <- btou32 lb ;;
          let nextBlockPos := u32 (p + 12 + length) in
          skip <-
            (if nextBlockPos <? size d then
               nb <- slice (mmap d) nextBlockPos (u32 (nextBlockPos + 8)) ;;
               nextBlockID <- btou64 nb ;;
               if nextBlockID =? id c then
                 tb <- slice (mmap d) (u32 (nextBlockPos + 12))
                             (u32 (nextBlockPos + 20)) ;;
                 t <- btou64 tb ;;
                 Ok (i64 t <=? seek)
               else Ok false
             else Ok false) ;;
          if (skip : bool) then SeekTo_loop k c (Some nextBlockPos) seek
          else
            '((t, v), c) <- decodeBlockAndGetValues c p ;;
            if t >=? seek then Ok ((t, v), c)
            else
              match SeekTo_vals (vals c) seek with
              | Some (x, rest) =>
                  Ok ((UnixNano x, Some (Value_ x)), set_vals c rest)
              | None => SeekTo_loop k c None seek
              end
      end
  end.

Definition SeekTo (fuel : nat) (c : cursor) (seek : Z)
  : result (item * cursor) :=
  if len (files c) =? 0 then Ok ((EOF, None), c)
  else
    first <- index (files c) 0 ;;
    fmin <- DataFile.MinTime first ;;
    c <- (if seek <? fmin then Ok (set_file c 0 first)
          else
            sel <- SeekTo_select (files c) 0 seek ;;
            match sel with
            | Some (i, d) => Ok (set_file c i d)
            | None => Ok c
            end) ;;
    match f c with
    | None => Ok ((EOF, None), c)
    | Some _ => SeekTo_loop fuel c None seek
    end.

(** The loop of [Next] over the files from [c.filesPos] on; [n] bounds
    the files still to look at. *)
Fixpoint Next_loop (n : nat) (c : cursor) : result (item * cursor) :=
  if filesPos c <? len (files c) then
    match n with
    | O => Abort OutOfFuel
    | S k =>
        d <- index (files c) (filesPos c) ;;
        startingPos <- StartingPositionForID d (id c) ;;
        if startingPos =? 0 then
          Next_loop k (set_filesPos c (filesPos c + 1))
        else
          decodeBlockAndGetValues (set_file c (filesPos c) d) startingPos
    end
  else Ok ((EOF, None), c).

(** [Next]: the next buffered value; when there is none, the block at
    [c.pos] if it is a block of the series, else the first block of the
    series in the files that follow. *)
Definition Next (c : cursor) : result (item * cursor) :=
  if len (vals c) =? 0 then
    more <-
      match f c with
      | Some d =>
          if pos c <? size d then
            nb <- slice (mmap d) (pos c) (u32 (pos c + 8)) ;;
            nextBlockID <- btou64 nb ;;
            if nextBlockID =? id c then
              ip <- indexPosition d ;;
              Ok (negb (pos c =? ip))
            else Ok false
          else Ok false
      | None => Ok false
      end ;;
    if (more : bool) then decodeBlockAndGetValues c (pos c)
    else
      let c := match f c with
               | Some _ => set_filesPos c (filesPos c + 1)
               | None => c
               end in
      Next_loop (Z.to_nat (len (files c) - filesPos c)) c
  else
    v <- index (vals c) 0 ;;
    rest <- slice (vals c) 1 (len (vals c)) ;;
    Ok ((UnixNano v, Some (Value_ v)), set_vals c rest).

End WithCodec.

End Cursor.

(* ================================================================== *)
(** * Part II: properties *)
(* ================================================================== *)

(** ** The range lock *)

Section LockProperties.

Import Lock.

(** What [overlaps] computes: an end point of [l] lies in [r]. *)
Lemma overlaps_iff (r l : rangeLock) :
  overlaps r l = true <->
  (min r <= min l <= max r) \/ (min r <= max l <= max r).
Proof.
  unfold overlaps.
  destruct (min l >=? min r) eqn:E1, (min l <=? max r) eqn:E2,
           (max l >=? min r) eqn:E3, (max l <=? max r) eqn:E4; simpl;
    split; intros H; try reflexivity; try discriminate; lia.
Qed.

(** On ranges with [min <= max], [overlaps] agrees with the inclusive
    overlap of the two ranges except when the requested range [l]
    strictly contains the held range [r]. *)
Lemma overlaps_inclusive (r l : rangeLock) :
  min r <= max r -> min l <= max l ->
  (overlaps r l = true <->
   (min r <= max l /\ min l <= max r) /\ ~ (min l < min r /\ max r < max l)).
Proof.
  intros Hr Hl. rewrite overlaps_iff. lia.
Qed.

(** A held range that lies strictly inside the requested one is not
    seen by [overlaps]. *)
Lemma overlaps_inner_range (r l : rangeLock) :
  min l < min r -> max r < max l -> overlaps r l = false.
Proof.
  intros H1 H2. destruct (overlaps r l) eqn:E; [|reflexivity].
  apply overlaps_iff in E. lia.
Qed.

(** [LockRange] returns at once exactly when no held range is seen to
    overlap the requested one. *)
Lemma LockRange_returns_iff (w : writeLock) (mn mx : Z) :
  (exists w', LockRange w mn mx = Ok w') <->
  forall rr, In rr (ranges w) ->
             overlaps rr {| min := mn; max := mx |} = false.
Proof.
  unfold LockRange, LockRange_waits, currentlyLockedRanges.
  destruct (filter _ (ranges w)) as [|x xs] eqn:E; split.
  - intros _ rr Hin.
    destruct (overlaps rr _) eqn:O; [|reflexivity].
    assert (Hf : In rr (filter (fun rr => overlaps rr {| min := mn; max := mx |})
                          (ranges w))) by (apply filter_In; auto).
    rewrite E in Hf. destruct Hf.
  - intros _. eexists. reflexivity.
  - intros [w' H]. discriminate.
  - intros H. exfalso.
    assert (Hf : In x (filter (fun rr => overlaps rr {| min := mn; max := mx |})
                         (ranges w))) by (rewrite E; left; reflexivity).
    apply filter_In in Hf. destruct Hf as [Hin O].
    rewrite (H x Hin) in O. discriminate.
Qed.

(** C3, on the code: with [[10, 20]] held, a request for [[5, 25]],
    which contains it, is not treated as overlapping; [LockRange]
    returns without waiting and both ranges are held together, although
    10 <= 25 and 5 <= 20. *)
Theorem LockRange_containing_range_not_blocked :
  let held := {| min := 10; max := 20 |} in
  let asked := {| min := 5; max := 25 |} in
  (min held <= max asked /\ min asked <= max held) /\
  overlaps held asked = false /\
  LockRange_waits {| ranges := [held] |} 5 25 = [] /\
  LockRange {| ranges := [held] |} 5 25 = Ok {| ranges := [held; asked] |}.
Proof.
  simpl. repeat split; try lia; reflexivity.
Qed.

End LockProperties.

(** ** Compaction candidates *)

Section CompactionProperties.

Import DataFile Engine.

(** A file that [filesToCompact] accepts. *)
Definition eligible (now age : Z) (df : dataFile) : bool :=
  (now - modTime df >? age) && (size df <? MaxDataFileSize).

Fixpoint take_while {A : Type} (p : A -> bool) (l : list A) : list A :=
  match l with
  | [] => []
  | x :: r => if p x then x :: take_while p r else []
  end.

Fixpoint drop_while {A : Type} (p : A -> bool) (l : list A) : list A :=
  match l with
  | [] => []
  | x :: r => if p x then drop_while p r else l
  end.

(** The candidates as the specification words them: the contiguous
    prefix of eligible files. *)
Definition eligible_prefix (now age : Z) (fs : list dataFile) : list dataFile :=
  take_while (eligible now age) fs.

(** The candidates as the code selects them: the first run of eligible
    files, after the files that lead the set and are not eligible. *)
Definition first_eligible_run (now age : Z) (fs : list dataFile)
  : list dataFile :=
  take_while (eligible now age)
    (drop_while (fun df => negb (eligible now age df)) fs).

Lemma filesToCompact_loop_started (now age : Z) (fs a : list dataFile) :
  a <> [] ->
  filesToCompact_loop now age fs a = a ++ take_while (eligible now age) fs.
Proof.
  revert a. induction fs as [|df rest IH]; intros a Ha; simpl.
  - now rewrite app_nil_r.
  - fold (eligible now age df). destruct (eligible now age df).
    + rewrite IH by (destruct a; discriminate).
      now rewrite <- app_assoc.
    + destruct a as [|x a']; [contradiction|].
      replace (len (x :: a') >? 0) with true.
      * now rewrite app_nil_r.
      * symmetry. apply Z.gtb_lt. unfold len. simpl Datatypes.length. lia.
Qed.

Lemma filesToCompact_loop_run (now age : Z) (fs : list dataFile) :
  filesToCompact_loop now age fs [] = first_eligible_run now age fs.
Proof.
  unfold first_eligible_run.
  induction fs as [|df rest IH]; simpl; [reflexivity|].
  fold (eligible now age df). destruct (eligible now age df) eqn:E; simpl.
  - rewrite E. apply (filesToCompact_loop_started now age rest [df]).
    discriminate.
  - exact IH.
Qed.

(** C7, as amended: [filesToCompact] returns the first contiguous run
    of files older than [CompactionAge] and smaller than
    [MaxDataFileSize]: the files that lead the set and violate a
    condition are passed over, and the run ends at the first violating
    file after it has begun. *)
Theorem filesToCompact_first_run (e : Engine) (now : Z) :
  filesToCompact e now = first_eligible_run now (CompactionAge e) (files e).
Proof.
  unfold filesToCompact. apply filesToCompact_loop_run.
Qed.

Definition sampleFile (name mtime sz : Z) : dataFile :=
  {| DataFile.f := Some name; size := sz; modTime := mtime; mmap := [] |}.

Definition sampleEngine (age : Z) (fs : list dataFile) : Engine :=
  {| writeLock := {| Lock.ranges := [] |};
     RotateFileSize := DefaultRotateFileSize;
     SkipCompaction := false;
     CompactionAge := age;
     CompactionFileCount := 2;
     IndexCompactionFullAge := 0;
     IndexMinimumCompactionInterval := 0;
     files := fs;
     currentFileID := len fs;
     compactionRunning := false;
     lastCompactionTime := 0 |}.

(** C7, the claim fails: of two files, the first too young and the
    second old enough, the specification's prefix is empty but the code
    returns the second file. *)
Lemma filesToCompact_not_prefix :
  ~ (forall (e : Engine) (now : Z),
        filesToCompact e now = eligible_prefix now (CompactionAge e) (files e)).
Proof.
  intros H.
  specialize (H (sampleEngine 50 [sampleFile 1 90 100; sampleFile 2 10 100]) 100).
  vm_compute in H. discriminate H.
Qed.

End CompactionProperties.

(** ** Sample data

    A small block codec and the files it yields, on which the engine is
    run in the examples below. *)

Section Samples.

Import DataFile Engine Rewrite.

(** A point with an integer payload. *)
Definition pt (t : Z) : Value := {| UnixNano := t; Value_ := Int64 t |}.

(** [n] points at the times [t], [t + 1], ... *)
Fixpoint pts (t : Z) (n : nat) : Values :=
  match n with
  | O => []
  | S k => pt t :: pts (t + 1) k
  end.

Definition sample_encode_value (v : Value) : result bytes :=
  match Value_ v with
  | Int64 n => Ok (u64tob (u64 (UnixNano v)) ++ u64tob (u64 n))
  | _ => Abort Panic
  end.

Fixpoint sample_encode (vs : Values) : result bytes :=
  match vs with
  | [] => Ok []
  | v :: r =>
      b <- sample_encode_value v ;;
      bs <- sample_encode r ;;
      Ok (b ++ bs)
  end.

Fixpoint sample_decode (fuel : nat) (b : bytes) : result Values :=
  match fuel with
  | O => Ok []
  | S k =>
      if len b =? 0 then Ok []
      else
        tb <- slice b 0 8 ;;
        t <- btou64 tb ;;
        pb <- slice b 8 16 ;;
        p <- btou64 pb ;;
        rest <- slice b 16 (len b) ;;
        vs <- sample_decode k rest ;;
        Ok ({| UnixNano := i64 t; Value_ := Int64 (i64 p) |} :: vs)
  end.

(** Sixteen bytes a point: the time, then the payload, big-endian. *)
#[local] Instance sampleCodec : Codec := {|
  Encode := sample_encode;
  DecodeSameTypeBlock := fun _ b => sample_decode (Datatypes.length b) b;
  DecodeBlock := fun b => sample_decode (Datatypes.length b) b
|}.

Definition noFile : dataFile :=
  {| DataFile.f := None; size := 0; modTime := 0; mmap := [] |}.

(** The file that [rewriteFile] creates in [e] from [valuesByID]. *)
Definition written (e : Engine) (now : Z) (oldDF : option dataFile)
    (valuesByID : list (Z * Values)) : dataFile :=
  match rewriteFile e now oldDF valuesByID with
  | Ok (_, Some d) => d
  | _ => noFile
  end.

(** The engine that [rewriteFile] leaves. *)
Definition rewritten (e : Engine) (now : Z) (oldDF : option dataFile)
    (valuesByID : list (Z * Values)) : Engine :=
  match rewriteFile e now oldDF valuesByID with
  | Ok (e', _) => e'
  | Abort _ => e
  end.

(** The block that holds [vs]. *)
Definition encoded (vs : Values) : bytes :=
  match sample_encode vs with
  | Ok b => b
  | Abort _ => []
  end.

(** A file with the points of series 1 at the times 10 to 19. *)
Definition file_10_20 : dataFile :=
  Eval vm_compute in written (sampleEngine 0 []) 0 None [(1, pts 10 10)].

Definition engine_10_20 : Engine :=
  Eval vm_compute in rewritten (sampleEngine 0 []) 0 None [(1, pts 10 10)].

End Samples.

(** ** Files touched by a write *)

Section FilesAndLockProperties.

Import DataFile Engine.

(** The test of [filesAndLock] on a file with the time range
    [[fmin, fmax]]. *)
Definition selects (min max fmin fmax : Z) : Prop :=
  min < fmax \/ (fmin <= max /\ max < fmax).

Lemma filesAndLock_select_In (fs : list dataFile) (min max : Z) :
  forall a r, filesAndLock_select fs min max a = Ok r ->
  forall d, In d r <->
            In d a \/
            (In d fs /\
             exists fmin fmax, DataFile.MinTime d = Ok fmin /\
                               DataFile.MaxTime d = Ok fmax /\
                               selects min max fmin fmax).
Proof.
  induction fs as [|x rest IH]; intros a r H d; simpl in H.
  - injection H as <-. split; [auto|]. intros [Ha|[[] _]]. exact Ha.
  - destruct (DataFile.MinTime x) as [fmin|] eqn:Emin; [|discriminate].
    destruct (DataFile.MaxTime x) as [fmax|] eqn:Emax; [|discriminate].
    simpl in H.
    assert (Hx : forall y, DataFile.MinTime x = Ok y -> y = fmin)
      by (intros y Hy; congruence).
    assert (Hx' : forall y, DataFile.MaxTime x = Ok y -> y = fmax)
      by (intros y Hy; congruence).
    destruct ((min <? fmax) && (fmin >=? fmin)) eqn:T1;
      [|destruct ((max >=? fmin) && (max <? fmax)) eqn:T2].
    + rewrite (IH _ _ H d), in_app_iff. simpl.
      apply andb_prop in T1. destruct T1 as [T1 _]. apply Z.ltb_lt in T1.
      split.
      * intros [[Ha|[->|[]]]|[Hin Hs]]; auto.
        right. split; [auto|]. exists fmin, fmax. unfold selects. auto.
      * intros [Ha|[[->|Hin] Hs]]; auto.
    + rewrite (IH _ _ H d), in_app_iff. simpl.
      apply andb_prop in T2. destruct T2 as [T2 T3].
      apply Z.geb_le in T2. apply Z.ltb_lt in T3.
      split.
      * intros [[Ha|[->|[]]]|[Hin Hs]]; auto.
        right. split; [auto|]. exists fmin, fmax. unfold selects. auto.
      * intros [Ha|[[->|Hin] Hs]]; auto.
    + rewrite (IH _ _ H d).
      split.
      * intros [Ha|[Hin Hs]]; [left; exact Ha|right; split; [right; exact Hin|exact Hs]].
      * intros [Ha|[[->|Hin] Hs]]; [left; exact Ha| |right; split; assumption].
        exfalso. destruct Hs as (y & y' & Hy & Hy' & Hs).
        apply Hx in Hy. apply Hx' in Hy'. subst y y'.
        apply andb_false_iff in T1. apply andb_false_iff in T2.
        unfold selects in Hs.
        destruct T1 as [T1|T1];
          [apply Z.ltb_ge in T1|
           rewrite Z.geb_leb in T1; apply Z.leb_gt in T1; lia].
        destruct T2 as [T2|T2];
          [rewrite Z.geb_leb in T2; apply Z.leb_gt in T2|apply Z.ltb_ge in T2];
          lia.
Qed.

(** C1, on the code: the engine holds one file with the time range
    [[10, 20]]; a write batch with the time range [[1, 5]], which does
    not meet it, still has the file selected as touched, and the lock
    is taken over [[10, 20]]. *)
Theorem filesAndLock_selects_disjoint_file :
  files engine_10_20 = [file_10_20] /\
  DataFile.MinTime file_10_20 = Ok 10 /\
  DataFile.MaxTime file_10_20 = Ok 20 /\
  (forall t, 1 <= t <= 5 -> ~ 10 <= t <= 20) /\
  exists e', filesAndLock engine_10_20 1 5 = Ok ([file_10_20], 10, 20, e').
Proof.
  split; [reflexivity|].
  split; [vm_compute; reflexivity|].
  split; [vm_compute; reflexivity|].
  split; [intros t H; lia|].
  eexists. vm_compute. reflexivity.
Qed.

End FilesAndLockProperties.

(** ** Slicing *)

Section SliceFacts.

Context {A : Type}.

Lemma len_nonneg (l : list A) : 0 <= len l.
Proof. unfold len. lia. Qed.

Lemma slice_ok (l : list A) (lo hi : Z) :
  0 <= lo -> lo <= hi -> hi <= len l ->
  slice l lo hi = Ok (firstn (Z.to_nat (hi - lo)) (skipn (Z.to_nat lo) l)).
Proof.
  intros H1 H2 H3. unfold slice.
  replace (0 <=? lo) with true by (symmetry; apply Z.leb_le; lia).
  replace (lo <=? hi) with true by (symmetry; apply Z.leb_le; lia).
  replace (hi <=? len l) with true by (symmetry; apply Z.leb_le; lia).
  reflexivity.
Qed.

Lemma slice_prefix (l : list A) (hi : Z) :
  0 <= hi -> hi <= len l -> slice l 0 hi = Ok (firstn (Z.to_nat hi) l).
Proof.
  intros H1 H2. rewrite slice_ok by lia. simpl. now rewrite Z.sub_0_r.
Qed.

Lemma slice_suffix (l : list A) (lo : Z) :
  0 <= lo -> lo <= len l -> slice l lo (len l) = Ok (skipn (Z.to_nat lo) l).
Proof.
  intros H1 H2. rewrite slice_ok by lia. f_equal.
  apply firstn_all2. rewrite length_skipn. unfold len. lia.
Qed.

Lemma slice_length (l r : list A) (lo hi : Z) :
  slice l lo hi = Ok r -> len r = hi - lo /\ 0 <= lo /\ lo <= hi /\ hi <= len l.
Proof.
  unfold slice. intros H.
  destruct (0 <=? lo) eqn:E1; [|discriminate].
  destruct (lo <=? hi) eqn:E2; [|discriminate].
  destruct (hi <=? len l) eqn:E3; [|discriminate].
  simpl in H. injection H as <-.
  apply Z.leb_le in E1, E2, E3. unfold len in *.
  rewrite length_firstn, length_skipn. lia.
Qed.

End SliceFacts.

(** ** Rewriting *)

Section RewriteProperties.

Import DataFile Engine Rewrite.

(** With a future block and more than [DefaultMaxPointsPerBlock] merged
    values, whatever the codec: the block holds the first thousand
    merged values and the leftover is the rest of the merged values
    only; the new values at or after [nextTime] are not in it. *)
Lemma DecodeAndCombine_future_split {codec : Codec}
    (newValues : Values) (block : bytes) (nextTime : Z)
    (values : Values) (pos : Z) (blk : bytes) :
  DecodeSameTypeBlock newValues block = Ok values ->
  Search (len newValues)
    (fun i => v <- index newValues i ;; Ok (UnixNano v >=? nextTime)) = Ok pos ->
  0 <= pos <= len newValues ->
  let merged := Deduplicate (values ++ firstn (Z.to_nat pos) newValues) in
  len merged > DefaultMaxPointsPerBlock ->
  Encode (firstn (Z.to_nat DefaultMaxPointsPerBlock) merged) = Ok blk ->
  DecodeAndCombine newValues block nextTime true
  = Ok (skipn (Z.to_nat DefaultMaxPointsPerBlock) merged, blk).
Proof.
  intros Hd Hs Hpos merged Hlen He.
  assert (0 <= DefaultMaxPointsPerBlock) by (unfold DefaultMaxPointsPerBlock; lia).
  unfold DecodeAndCombine. rewrite Hd. cbn [bind]. rewrite Hs. cbn [bind].
  rewrite slice_prefix by lia. cbn [bind].
  rewrite slice_suffix by lia. cbn [bind].
  fold merged.
  replace (len merged >? DefaultMaxPointsPerBlock) with true
    by (symmetry; apply Z.gtb_lt; lia).
  rewrite slice_suffix by lia. cbn [bind].
  rewrite slice_prefix by lia. cbn [bind].
  rewrite He. reflexivity.
Qed.

#[local] Existing Instance sampleCodec.

(** The old block of the example: a thousand points, at the times 2 to
    1001. *)
Definition full_block : bytes := encoded (pts 2 1000).

(** C2, on the code: the old block holds the times 2 to 1001 and is
    followed by a block that starts at 2000; the new values are at 1 and
    at 5000.  The value at 1 is merged, which makes 1001 merged values:
    the block returned holds the times 1 to 1000 and the leftover is the
    value at 1001 alone.  The new value at 5000, which was not yet
    merged, is neither in the block nor in the leftover. *)
Theorem DecodeAndCombine_drops_pending_values :
  DecodeBlock full_block = Ok (pts 2 1000) /\
  exists blk,
    DecodeAndCombine [pt 1; pt 5000] full_block 2000 true
    = Ok ([pt 1001], blk) /\
    DecodeBlock blk = Ok (pts 1 1000).
Proof.
  split; [vm_compute; reflexivity|].
  exists (encoded (pts 1 1000)). split; vm_compute; reflexivity.
Qed.

(** Without a future block the same values are all kept: the value at
    5000 follows the value at 1001 in the leftover. *)
Lemma DecodeAndCombine_last_block_keeps_values :
  exists blk,
    DecodeAndCombine [pt 1; pt 5000] full_block 2000 false
    = Ok ([pt 1001; pt 5000], blk) /\
    DecodeBlock blk = Ok (pts 1 1000).
Proof.
  exists (encoded (pts 1 1000)). split; vm_compute; reflexivity.
Qed.

(** The block region and the index of a file, as the bytes between the
    header and the index and the map that the index holds. *)
Definition block_region (d : dataFile) : result bytes :=
  ip <- indexPosition d ;;
  slice (mmap d) fileHeaderSize ip.

(** C4, as amended: [rewriteFile] with an empty map of values returns
    at once, with no error; it creates no data file and leaves the
    engine, its file set and its file counter as they are, whichever
    the old file. *)
Theorem rewriteFile_empty_is_no_op {codec : Codec} (e : Engine) (now : Z)
    (oldDF : option dataFile) :
  rewriteFile e now oldDF [] = Ok (e, None).
Proof. reflexivity. Qed.

(** C4, the claim fails: rewriting the file of [engine_10_20] with no
    values produces no new data file at all, so none with the same
    block region and index. *)
Lemma rewriteFile_empty_creates_no_file :
  ~ exists e' newDF,
      rewriteFile engine_10_20 5 (Some file_10_20) [] = Ok (e', Some newDF) /\
      block_region newDF = block_region file_10_20 /\
      IDToPosition newDF = IDToPosition file_10_20.
Proof.
  intros (e' & newDF & H & _). unfold rewriteFile in H. simpl in H.
  discriminate H.
Qed.

End RewriteProperties.

Section RewriteBlocks.

Import DataFile Engine Rewrite.

(** An id with new values and no block in the old file is written as
    one block that holds all of its values, whatever their number. *)
Lemma rewriteFile_id_new_only {codec : Codec} (oldDF : option dataFile)
    (valuesByID : list (Z * Values)) (oldIDToPosition : list (Z * Z))
    (id : Z) (out : bytes) (currentPosition : Z)
    (newVals : Values) (blk : bytes) :
  map_get valuesByID id = Some newVals ->
  newVals <> [] ->
  map_get oldIDToPosition id = None ->
  Encode newVals = Ok blk ->
  rewriteFile_id oldDF valuesByID oldIDToPosition id out currentPosition
  = Ok (out ++ (u64tob id ++ u32tob (len blk)) ++ blk,
        u32 (currentPosition + u32 (blockHeaderSize + len blk))).
Proof.
  intros Hv Hne Hold He. unfold rewriteFile_id. rewrite Hv, Hold.
  replace (len newVals =? 0) with false.
  - rewrite He. reflexivity.
  - symmetry. apply Z.eqb_neq. destruct newVals; [contradiction|].
    unfold len. simpl Datatypes.length. lia.
Qed.

#[local] Existing Instance sampleCodec.

(** C5, on the code: series 7 has 1001 new values and there is no old
    file.  The file written has one index entry, for a block at offset
    4; that block holds all of the 1001 values, and the index starts
    right after it: the values are in one oversized block, not in two
    blocks of at most a thousand. *)
Theorem rewriteFile_new_id_single_oversized_block :
  exists e' d blk,
    rewriteFile (sampleEngine 0 []) 0 None [(7, pts 1 1001)] = Ok (e', Some d) /\
    IDToPosition d = Ok [(7, 4)] /\
    block d 4 = Ok (7, 1, blk) /\
    DecodeBlock blk = Ok (pts 1 1001) /\
    indexPosition d = Ok (4 + blockHeaderSize + len blk).
Proof.
  exists (rewritten (sampleEngine 0 []) 0 None [(7, pts 1 1001)]).
  exists (written (sampleEngine 0 []) 0 None [(7, pts 1 1001)]).
  exists (encoded (pts 1 1001)).
  split; [vm_compute; reflexivity|].
  split; [vm_compute; reflexivity|].
  split; [vm_compute; reflexivity|].
  split; vm_compute; reflexivity.
Qed.

(** While the time range of the old file covers the new values, the
    loop over the new values leaves the maximum time as it is. *)
Lemma rewriteFile_times_max_kept (valuesByID : list (Z * Values)) :
  forall minTime maxTime minTime' maxTime',
  rewriteFile_times valuesByID minTime maxTime = Ok (minTime', maxTime') ->
  (forall id v t, In (id, v) valuesByID -> Encoding.MaxTime v = Ok t ->
                  t <= maxTime) ->
  maxTime' = maxTime.
Proof.
  induction valuesByID as [|[id v] rest IH];
    intros mn mx mn' mx' H Hle; simpl in H.
  - now injection H as _ <-.
  - destruct (Encoding.MinTime v) as [vmin|]; [|discriminate].
    destruct (Encoding.MaxTime v) as [vmax|] eqn:Emax; [|discriminate].
    cbn [bind] in H.
    assert (Hv : vmax <= mx) by (apply (Hle id v vmax); [left|]; auto).
    replace (mx <? vmax) with false in H by (symmetry; apply Z.ltb_ge; lia).
    apply IH in H; [exact H|].
    intros id' v' t Hin Ht. apply (Hle id' v' t); [right|]; auto.
Qed.

(** The maximum time depends on the order in which the map of new
    values is visited: with the series that ends at 9 first, the series
    that ends at 10 does not move it. *)
Lemma rewriteFile_times_order :
  rewriteFile_times [(1, [pt 9]); (2, [pt 10])] MaxInt64 MinInt64 = Ok (9, 10) /\
  rewriteFile_times [(2, [pt 10]); (1, [pt 9])] MaxInt64 MinInt64 = Ok (9, 11).
Proof. split; vm_compute; reflexivity. Qed.

(** C6, on the code: the old file has the maximum time 20 and the new
    values of series 1 are at the times 15 to 20.  The file written
    holds the value at 20, and its trailer has the maximum time 20, not
    max(20, 20 + 1) = 21. *)
Theorem rewriteFile_maxTime_not_advanced :
  DataFile.MaxTime file_10_20 = Ok 20 /\
  Encoding.MaxTime (pts 15 6) = Ok 20 /\
  exists e' d blk,
    rewriteFile engine_10_20 5 (Some file_10_20) [(1, pts 15 6)]
    = Ok (e', Some d) /\
    block d 4 = Ok (1, 10, blk) /\
    DecodeBlock blk = Ok (pts 10 11) /\
    DataFile.MaxTime d = Ok 20.
Proof.
  split; [vm_compute; reflexivity|].
  split; [vm_compute; reflexivity|].
  exists (rewritten engine_10_20 5 (Some file_10_20) [(1, pts 15 6)]).
  exists (written engine_10_20 5 (Some file_10_20) [(1, pts 15 6)]).
  exists (encoded (pts 10 11)).
  split; [vm_compute; reflexivity|].
  split; [vm_compute; reflexivity|].
  split; vm_compute; reflexivity.
Qed.

End RewriteBlocks.

(** ** The index of a sealed file *)

Section IndexProperties.

Import DataFile.

(** Entry [i] of the index of [d]: an id and the offset of its first
    block, read as [StartingPositionForID] reads them. *)
Definition index_at (d : dataFile) (i : Z) : result (Z * Z) :=
  indexStart <- indexPosition d ;;
  let offset := u32 (i * seriesHeaderSize + indexStart) in
  b <- slice (mmap d) offset (u32 (offset + 8)) ;;
  id <- btou64 b ;;
  b' <- slice (mmap d) (u32 (offset + 8)) (u32 (offset + 12)) ;;
  p <- btou32 b' ;;
  Ok (id, p).

(** A sealed file with the index entries [idx], in the order of the
    file: it starts with the magic number, the trailer counts the
    entries, the index region holds them, and every offset of the index
    lies after the header, at a block of the id it is listed for. *)
Record sealed (d : dataFile) (idx : list (Z * Z)) : Prop := {
  sealed_magic : slice (mmap d) 0 fileHeaderSize = Ok (u32tob magicNumber);
  sealed_size : size d < 2 ^ 32;
  sealed_fits : len idx * 12 + 20 <= size d;
  sealed_count : SeriesCount d = Ok (len idx);
  sealed_entries :
    forall i e, nth_error idx i = Some e -> index_at d (Z.of_nat i) = Ok e;
  sealed_blocks :
    forall id p, In (id, p) idx ->
      fileHeaderSize <= p /\ exists t blk, block d p = Ok (id, t, blk)
}.

Lemma u32_small (z : Z) : 0 <= z < 2 ^ 32 -> u32 z = z.
Proof. intros H. unfold u32. now apply Z.mod_small. Qed.

Lemma StronglySorted_nth (l : list Z) :
  StronglySorted Z.lt l ->
  forall i j a b, nth_error l i = Some a -> nth_error l j = Some b ->
                  (i < j)%nat -> a < b.
Proof.
  induction 1 as [|x l Hs IH Hall]; intros i j a b Hi Hj Hlt.
  - destruct i; discriminate.
  - destruct j as [|j]; [lia|]. simpl in Hj.
    destruct i as [|i]; simpl in Hi.
    + injection Hi as <-. rewrite Forall_forall in Hall. apply Hall.
      eapply nth_error_In; eauto.
    + eapply IH; eauto. lia.
Qed.

Lemma map_get_absent {V : Type} (m : list (Z * V)) (k : Z) :
  (forall i e, nth_error m i = Some e -> fst e <> k) -> map_get m k = None.
Proof.
  induction m as [|[k' v] r IH]; intros H; simpl; [reflexivity|].
  destruct (k' =? k) eqn:E.
  - apply Z.eqb_eq in E. exfalso. apply (H O (k', v)); auto.
  - apply IH. intros i e Hi. apply (H (S i) e). exact Hi.
Qed.

Lemma map_get_first {V : Type} (m : list (Z * V)) (k : Z) :
  forall n v, nth_error m n = Some (k, v) ->
  (forall i e, (i < n)%nat -> nth_error m i = Some e -> fst e <> k) ->
  map_get m k = Some v.
Proof.
  induction m as [|[k' v'] r IH]; intros n v Hn H.
  - destruct n; discriminate.
  - simpl. destruct n as [|n]; simpl in Hn.
    + injection Hn as -> ->. now rewrite Z.eqb_refl.
    + destruct (k' =? k) eqn:E.
      * apply Z.eqb_eq in E. exfalso. apply (H O (k', v')); simpl; auto. lia.
      * apply (IH n v Hn). intros i e Hi He. apply (H (S i) e); [lia|exact He].
Qed.

Lemma map_get_In {V : Type} (m : list (Z * V)) (k : Z) (v : V) :
  map_get m k = Some v -> In (k, v) m.
Proof.
  induction m as [|[k' v'] r IH]; simpl; [discriminate|].
  destruct (k' =? k) eqn:E.
  - apply Z.eqb_eq in E. intros H. injection H as ->. left. now subst.
  - intros H. right. auto.
Qed.

Lemma map_set_fresh {V : Type} (m : list (Z * V)) (k : Z) (v : V) :
  (forall e, In e m -> fst e <> k) -> map_set m k v = m ++ [(k, v)].
Proof.
  induction m as [|[k' v'] r IH]; intros H; simpl; [reflexivity|].
  destruct (k' =? k) eqn:E.
  - apply Z.eqb_eq in E. exfalso. apply (H (k', v')); [left; reflexivity|exact E].
  - rewrite IH; [reflexivity|]. intros e He. apply H. right. exact He.
Qed.

Lemma firstn_snoc {A : Type} (l : list A) (i : nat) (x : A) :
  nth_error l i = Some x -> firstn (S i) l = firstn i l ++ [x].
Proof.
  revert i. induction l as [|y r IH]; intros [|i] H; simpl in *; try discriminate.
  - now injection H as ->.
  - f_equal. apply IH. exact H.
Qed.

Section Bisection.


Variables (d : dataFile) (idx : list (Z * Z)).
Hypothesis Hsealed : sealed d idx.
Hypothesis Hsorted : StronglySorted Z.lt (map fst idx).

Let n : Z := len idx.

Lemma idx_order (i j : nat) (a b : Z * Z) :
  nth_error idx i = Some a -> nth_error idx j = Some b -> (i < j)%nat ->
  fst a < fst b.
Proof.
  intros Hi Hj Hlt.
  apply (StronglySorted_nth _ Hsorted i j); auto;
    rewrite nth_error_map; [rewrite Hi|rewrite Hj]; reflexivity.
Qed.

Lemma loop_found (id : Z) (indexStart : Z) :
  indexPosition d = Ok indexStart ->
  forall fuel min max,
    0 <= min -> min <= max -> max <= n -> max - min <= Z.of_nat fuel ->
    (forall i e, Z.of_nat i < min -> nth_error idx i = Some e -> fst e < id) ->
    (forall i e, max <= Z.of_nat i -> nth_error idx i = Some e -> id < fst e) ->
    StartingPositionForID_loop fuel d id indexStart min max
    = Ok (match map_get idx id with Some p => p | None => 0 end).
Proof.
  intros Hip.
  assert (Hn : n < 2 ^ 32).
  { pose proof (sealed_size _ _ Hsealed). pose proof (sealed_fits _ _ Hsealed).
    fold n in H0. lia. }
  induction fuel as [|fuel IH]; intros mn mx H0 Hle Hmx Hfuel Hlo Hhi.
  - assert (mn = mx) by lia. subst mx. simpl.
    rewrite Z.ltb_irrefl.
    rewrite map_get_absent; [reflexivity|].
    intros i e Hi.
    destruct (Z_lt_le_dec (Z.of_nat i) mn) as [Hlt|Hge].
    + specialize (Hlo i e Hlt Hi). lia.
    + specialize (Hhi i e Hge Hi). lia.
  - simpl. destruct (mn <? mx) eqn:Elt.
    2:{ apply Z.ltb_ge in Elt. assert (mn = mx) by lia. subst mx.
        rewrite map_get_absent; [reflexivity|].
        intros i e Hi.
        destruct (Z_lt_le_dec (Z.of_nat i) mn) as [Hlt|Hge].
        + specialize (Hlo i e Hlt Hi). lia.
        + specialize (Hhi i e Hge Hi). lia. }
    apply Z.ltb_lt in Elt.
    set (mid := (mx - mn) / 2 + mn).
    assert (Hmid : mn <= mid < mx).
    { unfold mid. assert (0 <= (mx - mn) / 2 < mx - mn).
      { split; [apply Z.div_pos; lia|apply Z.div_lt; lia]. }
      lia. }
    rewrite (u32_small (mx - mn)) by lia.
    fold mid. rewrite (u32_small mid) by lia.
    assert (Hnth : exists e, nth_error idx (Z.to_nat mid) = Some e).
    { destruct (nth_error idx (Z.to_nat mid)) eqn:E; [eauto|].
      apply nth_error_None in E. unfold n, len in Hmx. lia. }
    destruct Hnth as [[mid_id mid_pos] Hnth].
    pose proof (sealed_entries _ _ Hsealed _ _ Hnth) as Hentry.
    rewrite Z2Nat.id in Hentry by lia.
    unfold index_at in Hentry. rewrite Hip in Hentry. cbn [bind] in Hentry.
    destruct (slice (mmap d) _ _) as [b|] in Hentry |- *; [|discriminate].
    cbn [bind] in Hentry |- *.
    destruct (btou64 b) as [checkID|]; [|discriminate].
    cbn [bind] in Hentry |- *.
    destruct (slice (mmap d) _ _) as [b'|] in Hentry |- *; [|discriminate].
    cbn [bind] in Hentry |- *.
    destruct (btou32 b') as [p|]; [|discriminate].
    cbn [bind] in Hentry |- *. injection Hentry as -> ->.
    destruct (mid_id =? id) eqn:Eid; [|destruct (mid_id <? id) eqn:Elo].
    + apply Z.eqb_eq in Eid. subst mid_id.
      rewrite (map_get_first idx id (Z.to_nat mid) mid_pos Hnth); [reflexivity|].
      intros i e Hi He.
      pose proof (idx_order i (Z.to_nat mid) e (id, mid_pos) He Hnth Hi).
      simpl in *. lia.
    + apply Z.ltb_lt in Elo.
      rewrite (u32_small (mid + 1)) by lia.
      apply IH; try lia.
      * intros i e Hi He.
        destruct (Z.eq_dec (Z.of_nat i) mid) as [Heq|Hne].
        -- subst mid. rewrite <- Heq, Nat2Z.id in Hnth.
           rewrite Hnth in He. injection He as <-. exact Elo.
        -- assert (Hlt : (i < Z.to_nat mid)%nat) by lia.
           pose proof (idx_order i (Z.to_nat mid) e (mid_id, mid_pos) He Hnth Hlt).
           simpl in *. lia.
      * exact Hhi.
    + apply Z.ltb_ge in Elo. apply Z.eqb_neq in Eid.
      apply IH; try lia.
      * exact Hlo.
      * intros i e Hi He.
        destruct (Z.eq_dec (Z.of_nat i) mid) as [Heq|Hne].
        -- rewrite <- Heq, Nat2Z.id in Hnth.
           rewrite Hnth in He. injection He as <-. simpl. lia.
        -- assert (Hlt : (Z.to_nat mid < i)%nat) by lia.
           pose proof (idx_order (Z.to_nat mid) i (mid_id, mid_pos) e Hnth He Hlt).
           simpl in *. lia.
Qed.

Lemma IDToPosition_loop_sealed (indexStart : Z) :
  indexPosition d = Ok indexStart ->
  0 <= indexStart -> indexStart + len idx * 12 < 2 ^ 32 ->
  forall k i,
    (i + k)%nat = Datatypes.length idx ->
    IDToPosition_loop k d indexStart (Z.of_nat i) (firstn i idx) = Ok idx.
Proof.
  intros Hip H0 Hfit.
  induction k as [|k IH]; intros i Hik; simpl.
  - rewrite firstn_all2 by lia. reflexivity.
  - assert (Hnth : exists e, nth_error idx i = Some e).
    { destruct (nth_error idx i) eqn:E; [eauto|].
      apply nth_error_None in E. lia. }
    destruct Hnth as [[id p] Hnth].
    pose proof (sealed_entries _ _ Hsealed _ _ Hnth) as Hentry.
    unfold index_at in Hentry. rewrite Hip in Hentry. cbn [bind] in Hentry.
    assert (Hi : Z.of_nat i < len idx) by (unfold len; lia).
    rewrite (u32_small (Z.of_nat i * 12)) by lia.
    replace (Z.of_nat i * seriesHeaderSize + indexStart)
      with (indexStart + Z.of_nat i * 12) in Hentry
      by (unfold seriesHeaderSize, seriesIDSize, seriesPositionSize; lia).
    destruct (slice (mmap d) _ _) as [b|] in Hentry |- *; [|discriminate].
    cbn [bind] in Hentry |- *.
    destruct (btou64 b) as [id'|]; [|discriminate].
    cbn [bind] in Hentry |- *.
    destruct (slice (mmap d) _ _) as [b'|] in Hentry |- *; [|discriminate].
    cbn [bind] in Hentry |- *.
    destruct (btou32 b') as [p'|]; [|discriminate].
    cbn [bind] in Hentry |- *. injection Hentry as -> ->.
    rewrite map_set_fresh.
    + rewrite <- (firstn_snoc idx i (id, p) Hnth).
      replace (Z.of_nat i + 1) with (Z.of_nat (S i)) by lia.
      apply IH. lia.
    + intros e He. destruct (In_nth_error _ _ He) as [j Hj].
      assert (Hji : (j < i)%nat).
      { assert (Hlen : (j < Datatypes.length (firstn i idx))%nat)
          by (apply nth_error_Some; congruence).
        rewrite length_firstn in Hlen. lia. }
      rewrite nth_error_firstn in Hj.
      destruct (Nat.ltb_spec j i) as [_|]; [|lia].
      pose proof (idx_order j i e (id, p) Hj Hnth Hji).
      simpl in *. lia.
Qed.

(** The index entries of a sealed file with ascending ids are the map
    that [IDToPosition] reads from it. *)
Lemma IDToPosition_sealed : IDToPosition d = Ok idx.
Proof.
  unfold IDToPosition.
  pose proof (sealed_count _ _ Hsealed) as Hc.
  pose proof (sealed_size _ _ Hsealed) as Hsz.
  pose proof (sealed_fits _ _ Hsealed) as Hfit.
  pose proof (len_nonneg idx) as Hn.
  rewrite Hc. cbn [bind].
  rewrite (u32_small (len idx * 12 + 20)) by lia.
  rewrite (u32_small (size d - _)) by lia.
  apply (IDToPosition_loop_sealed (size d - (len idx * 12 + 20))
           ltac:(unfold indexPosition; rewrite Hc; cbn [bind];
                 rewrite (u32_small (len idx * 12 + 20)) by lia;
                 rewrite (u32_small (size d - _)) by lia; reflexivity)
           ltac:(lia) ltac:(lia) (Z.to_nat (len idx)) O).
  unfold len. lia.
Qed.

End Bisection.

(** On a sealed file with ascending ids the bisection always ends, and
    finds what a lookup in the index finds. *)
Lemma StartingPositionForID_map_get (d : dataFile) (idx : list (Z * Z))
    (id : Z) :
  sealed d idx ->
  StronglySorted Z.lt (map fst idx) ->
  StartingPositionForID d id
  = Ok (match map_get idx id with Some p => p | None => 0 end).
Proof.
  intros Hsealed Hsorted.
  unfold StartingPositionForID.
  pose proof (sealed_count _ _ Hsealed) as Hc.
  assert (Hip : indexPosition d
                = Ok (u32 (size d - u32 (len idx * 12 + 20))))
    by (unfold indexPosition; rewrite Hc; reflexivity).
  rewrite Hc, Hip. cbn [bind].
  apply (loop_found d idx Hsealed Hsorted); [exact Hip| | | | | |].
  - lia.
  - apply len_nonneg.
  - lia.
  - rewrite Z2Nat.id by apply len_nonneg. lia.
  - intros i e Hi. lia.
  - intros i e Hi He. exfalso.
    assert (nth_error idx i <> None) by congruence.
    apply nth_error_Some in H. unfold len in Hi. lia.
Qed.

(** C8: in a sealed data file whose index lists its ids in strictly
    ascending order, [StartingPositionForID] returns, for an id of the
    index, the offset that the index records for it, which is not 0
    and is the position of a block of that id; for an id that is not
    in the index it returns 0. *)
Theorem StartingPositionForID_sealed (d : dataFile) (idx : list (Z * Z))
    (id : Z) :
  sealed d idx ->
  StronglySorted Z.lt (map fst idx) ->
  (forall p, In (id, p) idx ->
             StartingPositionForID d id = Ok p /\
             p <> 0 /\
             exists t blk, block d p = Ok (id, t, blk)) /\
  ((forall p, ~ In (id, p) idx) -> StartingPositionForID d id = Ok 0).
Proof.
  intros Hsealed Hsorted.
  pose proof (StartingPositionForID_map_get d idx id Hsealed Hsorted) as Hrun.
  split.
  - intros p Hin.
    destruct (In_nth_error _ _ Hin) as [k Hk].
    assert (Hget : map_get idx id = Some p).
    { apply (map_get_first idx id k p Hk).
      intros i e Hi He.
      pose proof (idx_order idx Hsorted i k e (id, p) He Hk Hi).
      simpl in *. lia. }
    rewrite Hrun, Hget.
    destruct (sealed_blocks _ _ Hsealed id p Hin) as [Hp Hb].
    unfold fileHeaderSize in Hp.
    split; [reflexivity|]. split; [lia|exact Hb].
  - intros Habsent. rewrite Hrun.
    rewrite map_get_absent; [reflexivity|].
    intros i [k v] Hi Hk. simpl in Hk. subst k.
    apply (Habsent v). eapply nth_error_In; eauto.
Qed.

End IndexProperties.

Section IndexExamples.

Import DataFile Engine Rewrite.

#[local] Existing Instance sampleCodec.

(** The file of a first flush: series 3 at the times 10, 20 and 30 and
    series 8 at the times 15 and 25. *)
Definition file_two_series : dataFile :=
  Eval vm_compute in
    written (sampleEngine 0 []) 0 None
      [(3, [pt 10; pt 20; pt 30]); (8, [pt 15; pt 25])].

Lemma file_two_series_sealed : sealed file_two_series [(3, 4); (8, 64)].
Proof.
  constructor.
  - vm_compute. reflexivity.
  - vm_compute. reflexivity.
  - vm_compute. discriminate.
  - vm_compute. reflexivity.
  - intros [|[|i]] e H; simpl in H.
    + injection H as <-. vm_compute. reflexivity.
    + injection H as <-. vm_compute. reflexivity.
    + destruct i; discriminate.
  - intros id p [H|[H|[]]]; injection H as <- <-.
    + split; [vm_compute; discriminate|]. do 2 eexists. vm_compute. reflexivity.
    + split; [vm_compute; discriminate|]. do 2 eexists. vm_compute. reflexivity.
Qed.

Lemma StartingPositionForID_sealed_witness :
  (StartingPositionForID file_two_series 8 = Ok 64 /\
   64 <> 0 /\
   exists t blk, block file_two_series 64 = Ok (8, t, blk)) /\
  StartingPositionForID file_two_series 5 = Ok 0.
Proof.
  assert (Hs : StronglySorted Z.lt (map fst [(3, 4); (8, 64)])).
  { simpl. repeat constructor. }
  split.
  - apply (StartingPositionForID_sealed file_two_series [(3, 4); (8, 64)] 8
             file_two_series_sealed Hs).
    simpl. auto.
  - apply (StartingPositionForID_sealed file_two_series [(3, 4); (8, 64)] 5
             file_two_series_sealed Hs).
    intros p [H|[H|[]]]; discriminate H.
Defined.

End IndexExamples.

(** ** Splitting the values of a write *)

Section FilterProperties.

Import Engine Slices.

(** The five values of series 7, in a backing array of their own. *)
Definition five_heap : heap Value := [pts 1 5].
Definition five_values : hdr :=
  {| base := 0; off := 0; length := 5; cap := 5 |}.

(** The batch of a write to [engine_10_20]: series 1 with a value at
    the time 15 and a value at [MaxInt64], the last time there is, in a
    backing array of their own. *)
Definition last_heap : heap Value := [[pt 15; pt MaxInt64]].
Definition last_values : hdr :=
  {| base := 0; off := 0; length := 2; cap := 2 |}.

(** C9, on the code: [Write] receives for series 1 a value at the time
    15 and a value at [MaxInt64] while the engine holds the one file
    [file_10_20].  [filesAndLock] returns that file for the range of
    the batch; the file is smaller than [RotateFileSize], so [Write]
    asks for the values from the minimum time of the file, 10, up to
    its initial [maxTime], [MaxInt64].  The value at [MaxInt64] is not
    before [maxTime]: the slice returned and the slice left in the map
    share the backing array, and appending the last value to the empty
    slice of the values before the range overwrites the slice
    returned.  The call returns the value at [MaxInt64] and leaves the
    value at [MaxInt64]: the value at 15 is lost and the last value is
    there twice. *)
Theorem filterDataBetweenTimes_overwrites_filtered :
  (exists e',
     filesAndLock engine_10_20 15 MaxInt64
     = Ok ([file_10_20], 10, MaxInt64, e')) /\
  DataFile.size file_10_20 < RotateFileSize engine_10_20 /\
  DataFile.MinTime file_10_20 = Ok 10 /\
  view last_heap last_values = [pt 15; pt MaxInt64] /\
  exists h' kept filtered,
    filterDataBetweenTimes last_heap [(1, last_values)] 10 MaxInt64
    = Ok (h', [(1, kept)], [(1, filtered)]) /\
    view h' filtered = [pt MaxInt64] /\
    view h' kept = [pt MaxInt64].
Proof.
  split; [eexists; vm_compute; reflexivity|].
  split; [vm_compute; reflexivity|].
  split; [vm_compute; reflexivity|].
  split; [reflexivity|].
  do 3 eexists. split; [vm_compute; reflexivity|].
  split; vm_compute; reflexivity.
Qed.

(** No value of the series is in the range [[10, 20)], one is before it
    and one after it: the call returns the slice of the value at 1,
    which the append then overwrites with the value at 100; the series
    stays in the map. *)
Lemma filterDataBetweenTimes_none_in_range :
  exists h' kept filtered,
    filterDataBetweenTimes [[pt 1; pt 100]]
      [(7, {| base := 0; off := 0; length := 2; cap := 2 |})] 10 20
    = Ok (h', [(7, kept)], [(7, filtered)]) /\
    view h' filtered = [pt 100] /\
    view h' kept = [pt 100].
Proof.
  do 3 eexists. split; [vm_compute; reflexivity|].
  split; vm_compute; reflexivity.
Qed.

(** When all the values of a series are below [maxTime] and one of them
    is in the range, nothing is appended: the values from the first one
    in the range on are returned and the ones before it are left. *)
Lemma filterDataBetweenTimes_prefix_kept :
  exists h' kept filtered,
    filterDataBetweenTimes five_heap [(7, five_values)] 3 9
    = Ok (h', [(7, kept)], [(7, filtered)]) /\
    h' = five_heap /\
    view h' filtered = [pt 3; pt 4; pt 5] /\
    view h' kept = [pt 1; pt 2].
Proof.
  do 3 eexists. split; [vm_compute; reflexivity|].
  split; [reflexivity|]. split; vm_compute; reflexivity.
Qed.

End FilterProperties.

(** ** Seeking *)

Section CursorProperties.

Import DataFile Cursor.




End CursorProperties.

Section CursorExamples.

Import DataFile Engine Rewrite Cursor.

#[local] Existing Instance sampleCodec.

(** A second file, with the points of series 1 at the times 30 to 39. *)
Definition file_30_40 : dataFile :=
  Eval vm_compute in written engine_10_20 0 None [(1, pts 30 10)].



(** The second file does hold values of the series of the cursor after
    the time 25: its first block is a block of series 1 with the values
    at the times 30 to 39. *)
Lemma later_file_has_values :
  StartingPositionForID file_30_40 1 = Ok 4 /\
  block file_30_40 4 = Ok (1, 30, encoded (pts 30 10)) /\
  DecodeBlock (encoded (pts 30 10)) = Ok (pts 30 10).
Proof. repeat split; vm_compute; reflexivity. Qed.

(** The engine after the first flush, and the file of a second flush:
    series 3 at the times 50 and 60 and series 8 at the times 50 and
    55. *)
Definition engine_two_series : Engine :=
  Eval vm_compute in
    rewritten (sampleEngine 0 []) 0 None
      [(3, [pt 10; pt 20; pt 30]); (8, [pt 15; pt 25])].

Definition file_two_later : dataFile :=
  Eval vm_compute in
    written engine_two_series 0 None
      [(3, [pt 50; pt 60]); (8, [pt 50; pt 55])].



End CursorExamples.

(** ** The bytes of a written file *)

Lemma Z_of_byte_of_Z (z : Z) : Z_of_byte (byte_of_Z z) = z mod 256.
Proof.
  unfold Z_of_byte, byte_of_Z.
  assert (Hb : 0 <= z mod 256 < 256) by (apply Z.mod_pos_bound; lia).
  destruct (Byte.of_N (Z.to_N (z mod 256))) as [b|] eqn:E.
  - apply Byte.to_of_N in E. rewrite E. lia.
  - apply Byte.of_N_None_iff in E. lia.
Qed.

Lemma length_be_bytes (n : nat) (v : Z) : Datatypes.length (be_bytes n v) = n.
Proof. induction n; simpl; congruence. Qed.

Lemma be_fold_be_bytes (n : nat) (v : Z) :
  forall acc,
    fold_left (fun a x => a * 256 + Z_of_byte x) (be_bytes n v) acc
    = acc * 256 ^ Z.of_nat n + v mod 256 ^ Z.of_nat n.
Proof.
  induction n as [|k IH]; intros acc.
  - simpl. rewrite Z.mod_1_r. lia.
  - cbn [be_bytes fold_left]. rewrite IH, Z_of_byte_of_Z.
    replace (Z.of_nat (S k)) with (Z.of_nat k + 1) by lia.
    rewrite Z.pow_add_r, Z.pow_1_r by lia.
    assert (Hp : 0 < 256 ^ Z.of_nat k) by (apply Z.pow_pos_nonneg; lia).
    rewrite (Z.rem_mul_r v (256 ^ Z.of_nat k) 256) by lia.
    ring.
Qed.

Lemma be_value_be_bytes (n : nat) (v : Z) :
  be_value (be_bytes n v) = v mod 256 ^ Z.of_nat n.
Proof. unfold be_value. rewrite be_fold_be_bytes. lia. Qed.

Lemma btou64_u64tob (v : Z) : btou64 (u64tob v) = Ok (u64 v).
Proof.
  unfold btou64, u64tob, len. rewrite length_be_bytes.
  change (8 <=? Z.of_nat 8) with true. cbv iota. rewrite firstn_all2 by (rewrite length_be_bytes; lia).
  rewrite be_value_be_bytes. f_equal.
  unfold u64. change (256 ^ Z.of_nat 8) with (2 ^ 64).
  apply Z.mod_mod. lia.
Qed.

Lemma btou32_u32tob (v : Z) : btou32 (u32tob v) = Ok (u32 v).
Proof.
  unfold btou32, u32tob, len. rewrite length_be_bytes.
  change (4 <=? Z.of_nat 4) with true. cbv iota. rewrite firstn_all2 by (rewrite length_be_bytes; lia).
  rewrite be_value_be_bytes. f_equal.
  unfold u32. change (256 ^ Z.of_nat 4) with (2 ^ 32).
  apply Z.mod_mod. lia.
Qed.

Lemma len_app {A : Type} (a b : list A) : len (a ++ b) = len a + len b.
Proof. unfold len. rewrite length_app. lia. Qed.

Lemma len_u64tob (v : Z) : len (u64tob v) = 8.
Proof. unfold len, u64tob. now rewrite length_be_bytes. Qed.

Lemma len_u32tob (v : Z) : len (u32tob v) = 4.
Proof. unfold len, u32tob. now rewrite length_be_bytes. Qed.

(** The part [b] of [a ++ b ++ c]. *)
Lemma slice_middle {A : Type} (a b c : list A) (lo hi : Z) :
  lo = len a -> hi = len a + len b ->
  slice (a ++ b ++ c) lo hi = Ok b.
Proof.
  intros -> ->. pose proof (len_nonneg a). pose proof (len_nonneg b).
  pose proof (len_nonneg c).
  rewrite slice_ok by (rewrite ?len_app; lia).
  f_equal. unfold len.
  replace (Z.to_nat (Z.of_nat (Datatypes.length a))) with (Datatypes.length a + 0)%nat by lia.
  rewrite skipn_app, skipn_all2 by lia. 
  replace (Datatypes.length a + 0 - Datatypes.length a)%nat with O by lia.
  simpl.
  replace (Z.to_nat _) with (Datatypes.length b + 0)%nat by lia.
  rewrite firstn_app_2. simpl. apply app_nil_r.
Qed.

(** The time range of a file is the one written before the series
    count, while the size of the file fits its 32 bits. *)
Section Trailer.

Import DataFile.

Variables (name mtime : Z) (body : bytes) (minTime maxTime count : Z).
Let contents : bytes :=
  (body ++ (u64tob (u64 minTime) ++ u64tob (u64 maxTime))) ++ u32tob (u32 count).
Let d : dataFile := NewDataFile name contents mtime.
Hypothesis Hsize : len contents < 2 ^ 32.

Lemma len_contents : len contents = len body + 20.
Proof.
  unfold contents. rewrite !len_app, !len_u64tob, len_u32tob. lia.
Qed.

Lemma size_contents : size d = len body + 20.
Proof.
  unfold d, NewDataFile. cbn [size]. rewrite u32_small; [apply len_contents|].
  pose proof (len_nonneg contents). lia.
Qed.

Lemma MinTime_written : DataFile.MinTime d = Ok (i64 (u64 minTime)).
Proof.
  pose proof len_contents as Hl. pose proof (len_nonneg body) as Hb.
  unfold DataFile.MinTime. rewrite size_contents.
  rewrite !u32_small by lia.
  unfold d, NewDataFile. cbn [mmap]. unfold contents.
  rewrite <- !app_assoc.
  rewrite (slice_middle body (u64tob (u64 minTime))) by (rewrite ?len_u64tob; lia).
  cbn [bind]. rewrite btou64_u64tob. cbn [bind].
  unfold u64. rewrite Z.mod_mod by lia. reflexivity.
Qed.

Lemma MaxTime_written : DataFile.MaxTime d = Ok (i64 (u64 maxTime)).
Proof.
  pose proof len_contents as Hl. pose proof (len_nonneg body) as Hb.
  unfold DataFile.MaxTime. rewrite size_contents.
  rewrite !u32_small by lia.
  unfold d, NewDataFile. cbn [mmap]. unfold contents.
  rewrite <- !app_assoc.
  rewrite (app_assoc body).
  rewrite (slice_middle (body ++ u64tob (u64 minTime)) (u64tob (u64 maxTime)))
    by (rewrite ?len_app, ?len_u64tob; lia).
  cbn [bind]. rewrite btou64_u64tob. cbn [bind].
  unfold u64. rewrite Z.mod_mod by lia. reflexivity.
Qed.

End Trailer.

Lemma i64_u64 (z : Z) : MinInt64 <= z <= MaxInt64 -> i64 (u64 z) = z.
Proof.
  unfold MinInt64, MaxInt64, i64, u64. intros H.
  destruct (Z_lt_le_dec z 0).
  - replace (z mod 2 ^ 64) with (z + 2 ^ 64).
    + replace ((z + 2 ^ 64 + 2 ^ 63) mod 2 ^ 64) with (z + 2 ^ 63); [lia|].
      symmetry. replace (z + 2 ^ 64 + 2 ^ 63) with (z + 2 ^ 63 + 1 * 2 ^ 64) by lia.
      rewrite Z.mod_add by lia. apply Z.mod_small. lia.
    + symmetry. replace (z) with (z + 2 ^ 64 + (-1) * 2 ^ 64) at 1 by lia.
      rewrite Z.mod_add by lia. apply Z.mod_small. lia.
  - rewrite (Z.mod_small z) by lia. rewrite Z.mod_small by lia. lia.
Qed.

Lemma i64_range (z : Z) : MinInt64 <= i64 z <= MaxInt64.
Proof.
  unfold MinInt64, MaxInt64, i64.
  pose proof (Z.mod_pos_bound (z + 2 ^ 63) (2 ^ 64)). lia.
Qed.

Lemma MaxTime_range (d : DataFile.dataFile) (t : Z) :
  DataFile.MaxTime d = Ok t -> MinInt64 <= t <= MaxInt64.
Proof.
  unfold DataFile.MaxTime. intros H.
  destruct (slice _ _ _) as [b|]; [|discriminate]. cbn [bind] in H.
  destruct (btou64 b) as [v|]; [|discriminate]. cbn [bind] in H.
  injection H as <-. apply i64_range.
Qed.

Section Written.

Import DataFile Engine Rewrite.

Context {codec : Codec}.

(** The file that [rewriteFile] creates ends with the time range that
    the loop over the new values computes from the time range of the
    old file. *)
Lemma rewriteFile_trailer (e e' : Engine) (now : Z) (oldDF : option dataFile)
    (valuesByID : list (Z * Values)) (d : dataFile) :
  rewriteFile e now oldDF valuesByID = Ok (e', Some d) ->
  exists body minTime0 maxTime0 minTime maxTime count,
    match oldDF with
    | Some old => DataFile.MinTime old = Ok minTime0 /\
                  DataFile.MaxTime old = Ok maxTime0
    | None => minTime0 = MaxInt64 /\ maxTime0 = MinInt64
    end /\
    rewriteFile_times valuesByID minTime0 maxTime0 = Ok (minTime, maxTime) /\
    d = NewDataFile (currentFileID e + 1)
          ((body ++ (u64tob (u64 minTime) ++ u64tob (u64 maxTime)))
             ++ u32tob (u32 count)) now.
Proof.
  unfold rewriteFile. intros H.
  destruct (len valuesByID =? 0); [discriminate|].
  match type of H with
  | bind ?m _ = _ => destruct m as [[[oldIDToPosition minTime0] maxTime0]|] eqn:Eold;
                     [|discriminate]
  end.
  cbn [bind] in H.
  destruct (rewriteFile_times valuesByID minTime0 maxTime0)
    as [[minTime maxTime]|] eqn:Etimes; [|discriminate].
  cbn [bind] in H.
  cbn [nextFileName currentFileID] in H.
  match type of H with
  | bind ?m _ = _ => destruct m as [[out newPositions]|]; [|discriminate]
  end.
  cbn [bind] in H.
  unfold writeIndexAndGetDataFile in H.
  match type of H with
  | bind (bind ?m _) _ = _ => destruct m as [out'|]; [|discriminate]
  end.
  cbn [bind] in H.
  match type of H with
  | bind ?m _ = _ => destruct m as [sorted|]; [|discriminate]
  end.
  cbn [bind] in H. injection H as _ <-.
  exists out', minTime0, maxTime0, minTime, maxTime.
  eexists. split; [|split; [exact Etimes|reflexivity]].
  destruct oldDF as [old|].
  - destruct (IDToPosition old); [|discriminate]. cbn [bind] in Eold.
    destruct (DataFile.MinTime old); [|discriminate]. cbn [bind] in Eold.
    destruct (DataFile.MaxTime old); [|discriminate]. cbn [bind] in Eold.
    injection Eold as _ <- <-. split; reflexivity.
  - injection Eold as _ <- <-. split; reflexivity.
Qed.

(** While no new value is after the maximum time of the old file, the
    new file keeps that maximum time: it is not advanced past a new
    value that lies exactly at it. *)
Lemma rewriteFile_keeps_old_maxTime (e e' : Engine) (now : Z)
    (old d : dataFile) (valuesByID : list (Z * Values)) (oldMax : Z) :
  DataFile.MaxTime old = Ok oldMax ->
  (forall id v t, In (id, v) valuesByID -> Encoding.MaxTime v = Ok t ->
                  t <= oldMax) ->
  rewriteFile e now (Some old) valuesByID = Ok (e', Some d) ->
  len (mmap d) < 2 ^ 32 ->
  DataFile.MaxTime d = Ok oldMax.
Proof.
  intros Hold Hle Hrun Hsize.
  destruct (rewriteFile_trailer _ _ _ _ _ _ Hrun)
    as (body & mn0 & mx0 & mn & mx & count & [Hmn0 Hmx0] & Htimes & ->).
  assert (mx0 = oldMax) by congruence. subst mx0.
  apply rewriteFile_times_max_kept in Htimes; [|exact Hle]. subst mx.
  rewrite MaxTime_written by exact Hsize.
  rewrite i64_u64; [reflexivity|]. eapply MaxTime_range; eauto.
Qed.

End Written.

(** ** Files written without an old file *)

Section FreshFiles.

Import DataFile Engine Rewrite.

(** *** Sorting the ids *)

Lemma insert_sorted_In (x y : Z) (l : list Z) :
  In y (insert_sorted (fun z => z) x l) <-> y = x \/ In y l.
Proof.
  induction l as [|z r IH]; simpl.
  - intuition.
  - destruct (x <=? z); simpl; [intuition|]. rewrite IH. intuition.
Qed.

Lemma sort_by_In (y : Z) (l : list Z) :
  In y (sort_by (fun z => z) l) <-> In y l.
Proof.
  unfold sort_by. induction l as [|x r IH]; simpl; [reflexivity|].
  rewrite insert_sorted_In, IH. intuition.
Qed.

Lemma insert_sorted_strict (x : Z) (l : list Z) :
  StronglySorted Z.lt l -> ~ In x l ->
  StronglySorted Z.lt (insert_sorted (fun z => z) x l).
Proof.
  induction 1 as [|z r Hs IH Hall]; intros Hx; simpl.
  - repeat constructor.
  - assert (Hne : x <> z) by (intros ->; apply Hx; left; reflexivity).
    destruct (x <=? z) eqn:E.
    + apply Z.leb_le in E. constructor; [constructor; assumption|].
      constructor; [lia|].
      rewrite Forall_forall in *. intros w Hw. specialize (Hall w Hw). lia.
    + apply Z.leb_gt in E. constructor.
      * apply IH. intros Hin. apply Hx. right. exact Hin.
      * rewrite Forall_forall in *. intros w Hw.
        apply insert_sorted_In in Hw. destruct Hw as [->|Hw]; [|auto].
        lia.
Qed.

Lemma sort_by_strict (l : list Z) :
  NoDup l -> StronglySorted Z.lt (sort_by (fun z => z) l).
Proof.
  unfold sort_by. induction 1 as [|x r Hx Hnd IH]; simpl; [constructor|].
  apply insert_sorted_strict; [exact IH|].
  intros Hin. apply Hx. apply (sort_by_In x r). exact Hin.
Qed.

(** *** The blocks of a file without an old file *)

(** A block as it is written: the id, the length, the bytes. *)
Definition block_bytes (b : Z * bytes) : bytes :=
  (u64tob (fst b) ++ u32tob (len (snd b))) ++ snd b.

Fixpoint blocks_bytes (bs : list (Z * bytes)) : bytes :=
  match bs with
  | [] => []
  | b :: r => block_bytes b ++ blocks_bytes r
  end.

(** The offsets of the blocks [bs] written from the offset [start]. *)
Fixpoint blocks_positions (start : Z) (bs : list (Z * bytes)) : list Z :=
  match bs with
  | [] => []
  | b :: r => start :: blocks_positions (start + len (block_bytes b)) r
  end.

Lemma len_block_bytes (b : Z * bytes) : len (block_bytes b) = 12 + len (snd b).
Proof.
  unfold block_bytes. rewrite !len_app, len_u64tob, len_u32tob. lia.
Qed.

Section Fresh.

Import DataFile Engine Rewrite.

Context {codec : Codec}.
Variable valuesByID : list (Z * Values).

Lemma rewriteFile_ids_grows (ids : list Z) :
  forall out cp np out' np',
    rewriteFile_ids None valuesByID [] ids out cp np = Ok (out', np') ->
    len out <= len out'.
Proof.
  induction ids as [|id rest IH]; intros out cp np out' np' Hrun;
    cbn [rewriteFile_ids] in Hrun.
  - injection Hrun as <- _. lia.
  - destruct (rewriteFile_id None valuesByID [] id out cp) as [[o1 c1]|] eqn:E;
      [|discriminate].
    cbn [bind] in Hrun. apply IH in Hrun.
    unfold rewriteFile_id in E. cbn [map_get] in E.
    destruct (len _ =? 0); [discriminate|].
    destruct (Encode _) as [bw|]; [|discriminate]. cbn [bind] in E.
    injection E as <- _. unfold writeBlock in Hrun.
    rewrite len_app in Hrun.
    pose proof (len_nonneg ((u64tob id ++ u32tob (len bw)) ++ bw)). lia.
Qed.

Lemma rewriteFile_ids_fresh (ids : list Z) :
  forall out cp np out' np',
    (forall id, In id ids -> exists v, map_get valuesByID id = Some v /\ v <> []) ->
    rewriteFile_ids None valuesByID [] ids out cp np = Ok (out', np') ->
    0 <= cp -> cp + (len out' - len out) < 2 ^ 32 ->
    exists bs,
      map fst bs = ids /\
      out' = out ++ blocks_bytes bs /\
      np' = np ++ blocks_positions cp bs /\
      Forall (fun b => exists v, map_get valuesByID (fst b) = Some v /\
                                 Encode v = Ok (snd b)) bs.
Proof.
  induction ids as [|id rest IH]; intros out cp np out' np' Hv Hrun Hcp Hfit;
    cbn [rewriteFile_ids] in Hrun.
  - injection Hrun as <- <-. exists [].
    simpl. rewrite !app_nil_r. repeat split. constructor.
  - destruct (Hv id (or_introl eq_refl)) as (v & Hget & Hne).
    destruct (rewriteFile_id None valuesByID [] id out cp) as [[out1 cp1]|] eqn:Eid;
      [|discriminate].
    cbn [bind] in Hrun.
    destruct (Encode v) as [blk|] eqn:Eenc.
    2:{ unfold rewriteFile_id in Eid. rewrite Hget in Eid.
        replace (len v =? 0) with false in Eid.
        - cbn [map_get] in Eid. rewrite Eenc in Eid. discriminate.
        - symmetry. apply Z.eqb_neq. destruct v; [contradiction|].
          unfold len. simpl Datatypes.length. lia. }
    pose proof (rewriteFile_id_new_only None valuesByID [] id out cp v blk
                  Hget Hne eq_refl Eenc) as Enew.
    rewrite Eid in Enew.
    assert (Ho : out1 = out ++ (u64tob id ++ u32tob (len blk)) ++ blk)
      by congruence.
    assert (Hc : cp1 = u32 (cp + u32 (blockHeaderSize + len blk)))
      by congruence.
    subst out1 cp1. clear Enew Eid.
    pose proof (rewriteFile_ids_grows _ _ _ _ _ _ Hrun) as Hmono.
    rewrite !len_app, len_u64tob, len_u32tob in Hmono.
    pose proof (len_nonneg blk) as Hblk.
    unfold blockHeaderSize in Hrun.
    rewrite (u32_small (12 + len blk)) in Hrun by lia.
    rewrite (u32_small (cp + (12 + len blk))) in Hrun by lia.
    apply IH in Hrun.
    + destruct Hrun as (bs & Hids & Hout & Hnp & Henc).
      exists ((id, blk) :: bs). split; [simpl; congruence|].
      split; [|split].
      * rewrite Hout. cbn [blocks_bytes]. unfold block_bytes. cbn [fst snd].
        now rewrite <- !app_assoc.
      * rewrite Hnp. cbn [blocks_positions]. rewrite len_block_bytes.
        cbn [snd]. rewrite <- app_assoc. reflexivity.
      * constructor; [|exact Henc]. exists v. split; assumption.
    + intros i Hi. apply Hv. right. exact Hi.
    + lia.
    + rewrite !len_app, len_u64tob, len_u32tob. lia.
Qed.

End Fresh.

(** *** The index of a file without an old file *)

Fixpoint index_bytes (idx : list (Z * Z)) : bytes :=
  match idx with
  | [] => []
  | e :: r => (u64tob (fst e) ++ u32tob (snd e)) ++ index_bytes r
  end.

(** The index entries of the blocks [bs] written from [start]. *)
Fixpoint blocks_index (start : Z) (bs : list (Z * bytes)) : list (Z * Z) :=
  match bs with
  | [] => []
  | b :: r => (fst b, start) :: blocks_index (start + len (block_bytes b)) r
  end.

Lemma blocks_index_combine (bs : list (Z * bytes)) :
  forall start,
    combine (map fst bs) (blocks_positions start bs) = blocks_index start bs.
Proof.
  induction bs as [|b r IH]; intros start; simpl; [reflexivity|].
  now rewrite IH.
Qed.

Lemma blocks_index_fst (bs : list (Z * bytes)) :
  forall start, map fst (blocks_index start bs) = map fst bs.
Proof.
  induction bs as [|b r IH]; intros start; simpl; [reflexivity|].
  now rewrite IH.
Qed.

Lemma length_blocks_positions (bs : list (Z * bytes)) :
  forall start, Datatypes.length (blocks_positions start bs) = Datatypes.length bs.
Proof.
  induction bs as [|b r IH]; intros start; simpl; [reflexivity|].
  now rewrite IH.
Qed.

Lemma len_index_bytes (idx : list (Z * Z)) : len (index_bytes idx) = 12 * len idx.
Proof.
  induction idx as [|e r IH]; [reflexivity|].
  cbn [index_bytes]. rewrite !len_app, len_u64tob, len_u32tob, IH.
  unfold len. simpl Datatypes.length. lia.
Qed.

Lemma index_middle {A : Type} (pre post : list A) (x : A) (i : Z) :
  i = len pre -> index (pre ++ x :: post) i = Ok x.
Proof.
  intros ->. unfold index. pose proof (len_nonneg pre). pose proof (len_nonneg post).
  replace (0 <=? len pre) with true by (symmetry; apply Z.leb_le; lia).
  replace (len pre <? len (pre ++ x :: post)) with true.
  - cbn [andb]. unfold len. rewrite Nat2Z.id.
    rewrite nth_error_app2 by lia. now rewrite Nat.sub_diag.
  - symmetry. apply Z.ltb_lt. rewrite len_app. unfold len. simpl Datatypes.length. lia.
Qed.

Lemma writeIndex_loop_bytes (ids : list Z) :
  forall pre ps out,
    Datatypes.length ps = Datatypes.length ids ->
    writeIndex_loop ids (len pre) (pre ++ ps) out
    = Ok (out ++ index_bytes (combine ids ps)).
Proof.
  induction ids as [|id rest IH]; intros pre ps out Hlen; simpl.
  - now rewrite app_nil_r.
  - destruct ps as [|p ps]; [discriminate|].
    rewrite index_middle by reflexivity. cbn [bind].
    replace (len pre + 1) with (len (pre ++ [p]))
      by (rewrite len_app; reflexivity).
    replace (pre ++ p :: ps) with ((pre ++ [p]) ++ ps)
      by (rewrite <- app_assoc; reflexivity).
    rewrite IH by (simpl in Hlen; lia).
    cbn [combine index_bytes fst snd]. now rewrite <- !app_assoc.
Qed.

Lemma rewriteFile_times_nonempty (vs : list (Z * Values)) :
  forall mn mx r, rewriteFile_times vs mn mx = Ok r ->
  forall id v, In (id, v) vs -> v <> [].
Proof.
  induction vs as [|[i w] rest IH]; intros mn mx r H id v Hin; [destruct Hin|].
  simpl in H.
  destruct (Encoding.MinTime w) eqn:Emin; [|discriminate]. cbn [bind] in H.
  destruct (Encoding.MaxTime w); [|discriminate]. cbn [bind] in H.
  destruct Hin as [Heq|Hin].
  - injection Heq as _ <-. intros ->. discriminate.
  - eapply IH; eauto.
Qed.

Lemma map_get_Some_of_key {V : Type} (m : list (Z * V)) (k : Z) :
  In k (map fst m) -> exists v, map_get m k = Some v /\ In (k, v) m.
Proof.
  induction m as [|[k' v'] r IH]; intros Hin; [destruct Hin|].
  simpl. destruct (k' =? k) eqn:E.
  - apply Z.eqb_eq in E. subst. eexists. split; [reflexivity|left; reflexivity].
  - destruct Hin as [Hk|Hin]; [simpl in Hk; apply Z.eqb_neq in E; contradiction|].
    destruct (IH Hin) as (v & Hv & Hv'). exists v. split; [exact Hv|right; exact Hv'].
Qed.

Section FreshFile.

Import DataFile Engine Rewrite.

Context {codec : Codec}.

(** The bytes of the file that [rewriteFile] creates when there is no
    old file: the header, one block for each id in ascending order, the
    index with the offsets of the blocks, the time range and the number
    of ids. *)
Lemma rewriteFile_fresh_layout (e e' : Engine) (now : Z)
    (valuesByID : list (Z * Values)) (d : dataFile) :
  rewriteFile e now None valuesByID = Ok (e', Some d) ->
  len (mmap d) < 2 ^ 32 ->
  exists bs minTime maxTime,
    map fst bs = sort_by (fun x => x) (map fst valuesByID) /\
    Forall (fun b => exists v, map_get valuesByID (fst b) = Some v /\
                               Encode v = Ok (snd b)) bs /\
    rewriteFile_times valuesByID MaxInt64 MinInt64 = Ok (minTime, maxTime) /\
    d = NewDataFile (currentFileID e + 1)
          ((((u32tob magicNumber ++ blocks_bytes bs)
               ++ index_bytes (blocks_index fileHeaderSize bs))
              ++ (u64tob (u64 minTime) ++ u64tob (u64 maxTime)))
             ++ u32tob (u32 (len bs))) now.
Proof.
  unfold rewriteFile. intros H Hsize.
  destruct (len valuesByID =? 0); [discriminate|].
  cbn [bind] in H.
  destruct (rewriteFile_times valuesByID MaxInt64 MinInt64)
    as [[minTime maxTime]|] eqn:Etimes; [|discriminate].
  cbn [bind] in H.
  cbn [nextFileName currentFileID rewriteFile_oldIDs] in H.
  set (ids := sort_by (fun x => x) (map fst valuesByID)) in *.
  destruct (rewriteFile_ids None valuesByID [] ids (u32tob magicNumber)
              fileHeaderSize []) as [[out newPositions]|] eqn:Eids; [|discriminate].
  cbn [bind] in H.
  unfold writeIndexAndGetDataFile in H.
  destruct (writeIndex_loop ids 0 newPositions out) as [out'|] eqn:Eidx;
    [|discriminate].
  cbn [bind] in H.
  match type of H with
  | bind ?m _ = _ => destruct m as [sorted|]; [|discriminate]
  end.
  cbn [bind] in H.
  assert (Hd : d = NewDataFile (currentFileID e + 1)
                 ((out' ++ u64tob (u64 minTime) ++ u64tob (u64 maxTime))
                    ++ u32tob (u32 (len ids))) now) by congruence.
  clear H. subst d. cbn [NewDataFile mmap] in Hsize.
  (* the index only adds to the blocks *)
  assert (Hgrow : len out <= len out').
  { clear - Eidx. revert Eidx. generalize 0 as i. revert out.
    induction ids as [|id rest IH]; intros out i H; cbn [writeIndex_loop] in H.
    - assert (out = out') by congruence. subst. lia.
    - destruct (index newPositions i); [|discriminate]. cbn [bind] in H.
      apply IH in H. rewrite !len_app in H.
      pose proof (len_nonneg (u64tob id)). pose proof (len_nonneg (u32tob a)). lia. }
  rewrite !len_app in Hsize.
  pose proof (len_nonneg (u64tob (u64 minTime))).
  pose proof (len_nonneg (u64tob (u64 maxTime))).
  pose proof (len_nonneg (u32tob (u32 (len ids)))).
  assert (Hvals : forall id, In id ids ->
                    exists v, map_get valuesByID id = Some v /\ v <> []).
  { intros id Hin. unfold ids in Hin. apply (proj1 (sort_by_In _ _)) in Hin.
    destruct (map_get_Some_of_key valuesByID id Hin) as (v & Hv & Hv').
    exists v. split; [exact Hv|].
    eapply rewriteFile_times_nonempty; eauto. }
  destruct (rewriteFile_ids_fresh valuesByID ids _ _ _ _ _ Hvals
              Eids ltac:(unfold fileHeaderSize; lia)
              ltac:(unfold fileHeaderSize; rewrite len_u32tob; lia))
    as (bs & Hids & Hout & Hnp & Henc).
  simpl in Hnp. subst out newPositions.
  rewrite (writeIndex_loop_bytes ids [] (blocks_positions fileHeaderSize bs))
    in Eidx by (rewrite length_blocks_positions, <- Hids, length_map; reflexivity).
  assert (out' = (u32tob magicNumber ++ blocks_bytes bs)
                   ++ index_bytes (combine ids (blocks_positions fileHeaderSize bs)))
    by congruence.
  subst out'. exists bs, minTime, maxTime. split; [exact Hids|].
  split; [exact Henc|]. split; [reflexivity|].
  rewrite <- Hids, blocks_index_combine.
  replace (len (map fst bs)) with (len bs) by (unfold len; now rewrite length_map).
  reflexivity.
Qed.

End FreshFile.

Lemma SeriesCount_written (name mtime : Z) (body : bytes) (count : Z) :
  len (body ++ u32tob (u32 count)) < 2 ^ 32 ->
  DataFile.SeriesCount (DataFile.NewDataFile name (body ++ u32tob (u32 count)) mtime)
  = Ok (u32 count).
Proof.
  intros Hsize. rewrite len_app, len_u32tob in Hsize.
  pose proof (len_nonneg body) as Hb.
  unfold SeriesCount, NewDataFile. cbn [size mmap].
  rewrite len_app, len_u32tob.
  rewrite (u32_small (len body + 4)) by lia.
  rewrite (u32_small (len body + 4 - 4)) by lia.
  replace (body ++ u32tob (u32 count)) with (body ++ u32tob (u32 count) ++ [])
    by now rewrite app_nil_r.
  rewrite slice_middle by (rewrite ?len_u32tob; lia).
  cbn [bind]. rewrite btou32_u32tob. unfold u32. now rewrite Z.mod_mod by lia.
Qed.

Lemma index_bytes_split (idx : list (Z * Z)) :
  forall k e, nth_error idx k = Some e ->
  exists pre post,
    index_bytes idx = pre ++ (u64tob (fst e) ++ u32tob (snd e)) ++ post /\
    len pre = 12 * Z.of_nat k.
Proof.
  induction idx as [|x r IH]; intros [|k] e H; simpl in H; try discriminate.
  - injection H as <-. exists [], (index_bytes r). split; reflexivity.
  - destruct (IH k e H) as (pre & post & Hs & Hl).
    exists ((u64tob (fst x) ++ u32tob (snd x)) ++ pre), post.
    cbn [index_bytes]. rewrite Hs. split; [now rewrite <- !app_assoc|].
    rewrite !len_app, len_u64tob, len_u32tob, Hl. lia.
Qed.

Lemma blocks_bytes_split (bs : list (Z * bytes)) :
  forall start id p, In (id, p) (blocks_index start bs) ->
  exists pre blk post,
    blocks_bytes bs = pre ++ block_bytes (id, blk) ++ post /\
    p = start + len pre /\ In (id, blk) bs.
Proof.
  induction bs as [|[i b] r IH]; intros start id p H; [destruct H|].
  cbn [blocks_index fst] in H. destruct H as [H|H].
  - injection H as <- <-. exists [], b, (blocks_bytes r).
    split; [reflexivity|]. split; [unfold len; simpl; lia|left; reflexivity].
  - destruct (IH _ _ _ H) as (pre & blk & post & Hs & Hp & Hin).
    exists (block_bytes (i, b) ++ pre), blk, post.
    cbn [blocks_bytes]. rewrite Hs. split; [now rewrite <- !app_assoc|].
    split; [rewrite len_app; lia|right; exact Hin].
Qed.

Lemma length_blocks_index (bs : list (Z * bytes)) :
  forall start, len (blocks_index start bs) = len bs.
Proof.
  intros start. unfold len. f_equal.
  rewrite <- (length_map fst), blocks_index_fst, length_map. reflexivity.
Qed.

Section Layout.

Import DataFile.

Variables (name mtime : Z) (bs : list (Z * bytes)) (minTime maxTime : Z).

Let idx : list (Z * Z) := blocks_index fileHeaderSize bs.

Let contents : bytes :=
  (((u32tob magicNumber ++ blocks_bytes bs) ++ index_bytes idx)
     ++ (u64tob (u64 minTime) ++ u64tob (u64 maxTime)))
    ++ u32tob (u32 (len bs)).

Let d : dataFile := NewDataFile name contents mtime.

Hypothesis Hsize : len contents < 2 ^ 32.
Hypothesis Hids : forall b, In b bs -> 0 <= fst b < 2 ^ 64.

Lemma layout_len :
  len contents = 4 + len (blocks_bytes bs) + 12 * len bs + 20.
Proof.
  unfold contents. rewrite !len_app, !len_u64tob, !len_u32tob, len_index_bytes.
  unfold idx. rewrite length_blocks_index. lia.
Qed.

Lemma layout_size : size d = len contents.
Proof.
  unfold d, NewDataFile. cbn [size]. apply u32_small.
  pose proof (len_nonneg contents). lia.
Qed.

Lemma layout_count : SeriesCount d = Ok (len bs).
Proof.
  unfold d, contents. rewrite SeriesCount_written by exact Hsize.
  f_equal. apply u32_small. pose proof layout_len. pose proof (len_nonneg bs).
  pose proof (len_nonneg (blocks_bytes bs)). lia.
Qed.

Lemma layout_indexPosition :
  indexPosition d = Ok (4 + len (blocks_bytes bs)).
Proof.
  pose proof layout_len as Hl. pose proof (len_nonneg bs).
  pose proof (len_nonneg (blocks_bytes bs)).
  unfold indexPosition. rewrite layout_count. cbn [bind].
  rewrite layout_size, Hl.
  rewrite (u32_small (len bs * 12 + 20)) by lia.
  f_equal. rewrite u32_small by lia. lia.
Qed.

Lemma layout_entry (k : nat) (e : Z * Z) :
  nth_error idx k = Some e ->
  0 <= fst e < 2 ^ 64 -> 0 <= snd e < 2 ^ 32 ->
  index_at d (Z.of_nat k) = Ok e.
Proof.
  intros Hk Hid Hp.
  pose proof layout_len as Hl. pose proof (len_nonneg bs).
  pose proof (len_nonneg (blocks_bytes bs)).
  assert (Hlt : Z.of_nat k < len bs).
  { assert (nth_error idx k <> None) by congruence.
    apply nth_error_Some in H1. unfold idx in H1.
    pose proof (length_blocks_index bs fileHeaderSize). unfold len in *. lia. }
  destruct (index_bytes_split idx k e Hk) as (pre & post & Hs & Hpre).
  unfold index_at. rewrite layout_indexPosition. cbn [bind].
  unfold seriesHeaderSize, seriesIDSize, seriesPositionSize.
  assert (Hpost : len (index_bytes idx) = len pre + 12 + len post).
  { rewrite Hs, !len_app, len_u64tob, len_u32tob. lia. }
  rewrite len_index_bytes in Hpost. unfold idx in Hpost at 1.
  rewrite length_blocks_index in Hpost.
  pose proof (len_nonneg post).
  rewrite (u32_small (Z.of_nat k * (8 + 4) + _)) by lia.
  rewrite !(u32_small (_ + 8)) by lia.
  rewrite !(u32_small (_ + 12)) by lia.
  unfold d, NewDataFile. cbn [mmap]. unfold contents. rewrite Hs.
  rewrite <- !app_assoc.
  rewrite (app_assoc (u32tob magicNumber)),
          (app_assoc (u32tob magicNumber ++ blocks_bytes bs)).
  rewrite slice_middle
    by (rewrite ?len_app, ?len_u64tob, ?len_u32tob; lia).
  cbn [bind]. rewrite btou64_u64tob. cbn [bind].
  rewrite (app_assoc _ (u64tob (fst e))).
  rewrite slice_middle
    by (rewrite ?len_app, ?len_u64tob, ?len_u32tob; lia).
  cbn [bind]. rewrite btou32_u32tob. cbn [bind].
  unfold u64. rewrite Z.mod_small by lia. rewrite u32_small by lia.
  destruct e; reflexivity.
Qed.

Lemma layout_block (id p : Z) :
  In (id, p) idx ->
  fileHeaderSize <= p /\ p < 2 ^ 32 /\
  exists t blk, block d p = Ok (id, t, blk) /\ In (id, blk) bs.
Proof.
  intros Hin. unfold idx in Hin.
  destruct (blocks_bytes_split bs _ _ _ Hin) as (pre & blk & post & Hs & Hp & Hb).
  pose proof layout_len as Hl. pose proof (len_nonneg bs).
  pose proof (len_nonneg pre). pose proof (len_nonneg blk). pose proof (len_nonneg post).
  assert (Hbb : len (blocks_bytes bs) = len pre + (12 + len blk) + len post).
  { rewrite Hs, !len_app, len_block_bytes. cbn [snd]. lia. }
  unfold fileHeaderSize in *.
  split; [lia|]. split; [lia|].
  unfold block. rewrite layout_indexPosition. cbn [bind].
  replace (p <? 4 + len (blocks_bytes bs)) with true
    by (symmetry; apply Z.ltb_lt; lia).
  unfold blockHeaderSize.
  rewrite !(u32_small (p + 8)) by lia.
  rewrite !(u32_small (p + 12)) by lia.
  rewrite !(u32_small (p + 12 + 8)) by lia.
  unfold d, NewDataFile. cbn [mmap]. unfold contents. rewrite Hs.
  unfold block_bytes. cbn [fst snd].
  rewrite <- !app_assoc.
  rewrite (app_assoc (u32tob magicNumber)).
  rewrite slice_middle
    by (rewrite ?len_app, ?len_u64tob, ?len_u32tob; lia).
  cbn [bind]. rewrite btou64_u64tob. cbn [bind].
  rewrite (app_assoc _ (u64tob id)).
  rewrite slice_middle
    by (rewrite ?len_app, ?len_u64tob, ?len_u32tob; lia).
  cbn [bind]. rewrite btou32_u32tob. cbn [bind].
  rewrite (u32_small (len blk)) by lia.
  rewrite (u32_small (p + 12 + len blk)) by lia.
  rewrite (app_assoc _ (u32tob (len blk))).
  rewrite slice_middle
    by (rewrite ?len_app, ?len_u64tob, ?len_u32tob; lia).
  cbn [bind].
  match goal with
  | |- context [slice ?l (p + 12) (p + 12 + 8)] =>
      destruct (slice l (p + 12) (p + 12 + 8)) as [tb|] eqn:Et
  end.
  - apply slice_length in Et. cbn [bind]. unfold btou64.
    replace (8 <=? len tb) with true by (symmetry; apply Z.leb_le; lia).
    cbn [bind]. unfold u64. rewrite Z.mod_small.
    + do 2 eexists. split; [reflexivity|exact Hb].
    + apply (Hids (id, blk) Hb).
  - exfalso. rewrite slice_ok in Et; [discriminate|lia|lia|].
    rewrite !len_app, !len_u64tob, !len_u32tob, len_index_bytes.
    pose proof (len_nonneg idx). lia.
Qed.

Lemma layout_sealed : sealed d idx.
Proof.
  pose proof layout_len as Hl. pose proof (len_nonneg bs).
  pose proof (len_nonneg (blocks_bytes bs)).
  constructor.
  - unfold d, NewDataFile. cbn [mmap]. unfold contents.
    rewrite <- !app_assoc.
    apply (slice_middle [] (u32tob magicNumber)); [reflexivity|].
    rewrite len_u32tob. reflexivity.
  - rewrite layout_size. exact Hsize.
  - rewrite layout_size, Hl. unfold idx. rewrite length_blocks_index. lia.
  - unfold idx at 1. rewrite length_blocks_index. apply layout_count.
  - intros k e Hk. 
    assert (Hin : In e idx) by (eapply nth_error_In; eauto).
    destruct e as [id p].
    destruct (layout_block id p Hin) as (Hp & Hp' & _).
    unfold idx in Hin.
    destruct (blocks_bytes_split bs _ _ _ Hin) as (_ & blk & _ & _ & _ & Hb).
    apply layout_entry; [exact Hk| |]; cbn [fst snd].
    + apply (Hids (id, blk) Hb).
    + unfold fileHeaderSize in Hp. lia.
  - intros id p Hin.
    destruct (layout_block id p Hin) as (Hp & _ & t & blk & Hb & _).
    split; [exact Hp|]. exists t, blk. exact Hb.
Qed.

End Layout.

End FreshFiles.

Section FreshSealed.

Import DataFile Engine Rewrite.

Context {codec : Codec}.

(** A file that [rewriteFile] creates from new values alone is sealed,
    and its index lists the ids of the values in strictly ascending
    order, while the ids are 64-bit and the file is within the 32 bits
    of its offsets. *)
Lemma rewriteFile_fresh_sealed (e e' : Engine) (now : Z)
    (valuesByID : list (Z * Values)) (d : dataFile) :
  NoDup (map fst valuesByID) ->
  (forall id, In id (map fst valuesByID) -> 0 <= id < 2 ^ 64) ->
  rewriteFile e now None valuesByID = Ok (e', Some d) ->
  len (mmap d) < 2 ^ 32 ->
  exists idx,
    sealed d idx /\
    StronglySorted Z.lt (map fst idx) /\
    (forall id, In id (map fst idx) <-> In id (map fst valuesByID)).
Proof.
  intros Hnd Hrange Hrun Hsize.
  destruct (rewriteFile_fresh_layout _ _ _ _ _ Hrun Hsize)
    as (bs & minTime & maxTime & Hids & _ & _ & ->).
  cbn [NewDataFile mmap] in Hsize.
  exists (blocks_index fileHeaderSize bs).
  split; [|split].
  - apply layout_sealed; [exact Hsize|].
    intros b Hb. apply Hrange. apply (sort_by_In (fst b)).
    rewrite <- Hids. apply in_map. exact Hb.
  - rewrite blocks_index_fst, Hids. apply sort_by_strict. exact Hnd.
  - intros id. rewrite blocks_index_fst, Hids. apply sort_by_In.
Qed.

(** So, in such a file, [StartingPositionForID] finds a block of the id
    for every id that was written, and 0 for any other id. *)
Lemma StartingPositionForID_fresh_file (e e' : Engine) (now : Z)
    (valuesByID : list (Z * Values)) (d : dataFile) (id : Z) :
  NoDup (map fst valuesByID) ->
  (forall id, In id (map fst valuesByID) -> 0 <= id < 2 ^ 64) ->
  rewriteFile e now None valuesByID = Ok (e', Some d) ->
  len (mmap d) < 2 ^ 32 ->
  (In id (map fst valuesByID) ->
   exists p t blk, StartingPositionForID d id = Ok p /\ p <> 0 /\
                   block d p = Ok (id, t, blk)) /\
  (~ In id (map fst valuesByID) -> StartingPositionForID d id = Ok 0).
Proof.
  intros Hnd Hrange Hrun Hsize.
  destruct (rewriteFile_fresh_sealed _ _ _ _ _ Hnd Hrange Hrun Hsize)
    as (idx & Hsealed & Hsorted & Hkeys).
  rewrite (StartingPositionForID_map_get d idx id Hsealed Hsorted).
  split.
  - intros Hin. apply Hkeys in Hin.
    destruct (map_get_Some_of_key idx id Hin) as (p & Hget & Hp).
    rewrite Hget.
    destruct (sealed_blocks _ _ Hsealed id p Hp) as (H4 & t & blk & Hb).
    exists p, t, blk. unfold fileHeaderSize in H4.
    split; [reflexivity|]. split; [lia|exact Hb].
  - intros Hout. rewrite map_get_absent; [reflexivity|].
    intros i [k v] Hi Hk. cbn [fst] in Hk. subst k. apply Hout, Hkeys.
    apply nth_error_In in Hi. apply (in_map fst) in Hi. exact Hi.
Qed.

End FreshSealed.

(* ================================================================== *)
(** * Part III: further properties of the code *)
(* ================================================================== *)

(** ** The range lock, continued *)

Section MoreLock.

Import Lock.

(** X1: on ranges with [min <= max], [overlaps] says that the held
    range [r] and the requested range [l] overlap exactly when they
    share a point and [l] does not strictly contain [r]. *)
Theorem overlaps_misses_only_containment (r l : rangeLock) :
  min r <= max r -> min l <= max l ->
  (overlaps r l = true <->
   (min r <= max l /\ min l <= max r) /\ ~ (min l < min r /\ max r < max l)).
Proof.
  intros Hr Hl. rewrite overlaps_iff. lia.
Qed.

Lemma overlaps_misses_only_containment_witness :
  overlaps {| min := 10; max := 20 |} {| min := 15; max := 25 |} = true <->
  (10 <= 25 /\ 15 <= 20) /\ ~ (15 < 10 /\ 20 < 25).
Proof.
  apply (overlaps_misses_only_containment
           {| min := 10; max := 20 |} {| min := 15; max := 25 |});
    simpl; lia.
Defined.

Lemma filter_all {A : Type} (p : A -> bool) (l : list A) :
  (forall x, In x l -> p x = true) -> filter p l = l.
Proof.
  induction l as [|x r IH]; intros H; simpl; [reflexivity|].
  rewrite (H x (or_introl eq_refl)). f_equal. apply IH.
  intros y Hy. apply H. right. exact Hy.
Qed.

Lemma LockRange_ok_inv (w w' : writeLock) (a b : Z) :
  LockRange w a b = Ok w' ->
  ranges w' = ranges w ++ [{| min := a; max := b |}] /\
  forall rr, In rr (ranges w) -> overlaps rr {| min := a; max := b |} = false.
Proof.
  intros H. split.
  - unfold LockRange in H. destruct (LockRange_waits w a b); [|discriminate].
    injection H as <-. reflexivity.
  - apply LockRange_returns_iff. eauto.
Qed.

(** X2: taking a range with [min <= max] and releasing it again gives
    back the lock as it was: the ranges held before are all still held,
    in their order, and nothing else. *)
Theorem UnlockRange_after_LockRange (w w' : writeLock) (a b : Z) :
  a <= b ->
  LockRange w a b = Ok w' ->
  UnlockRange w' a b = w.
Proof.
  intros Hab H. destruct (LockRange_ok_inv _ _ _ _ H) as [Hr Hno].
  unfold UnlockRange. rewrite Hr, filter_app. simpl.
  rewrite !Z.eqb_refl. simpl. rewrite app_nil_r.
  rewrite filter_all; [destruct w; reflexivity|].
  intros rr Hin. specialize (Hno rr Hin).
  destruct ((min rr =? a) && (max rr =? b)) eqn:E; [|reflexivity].
  apply andb_prop in E. destruct E as [E1 E2].
  apply Z.eqb_eq in E1, E2. exfalso.
  assert (overlaps rr {| min := a; max := b |} = true)
    by (apply overlaps_iff; simpl; lia).
  congruence.
Qed.

Lemma UnlockRange_after_LockRange_witness :
  UnlockRange {| ranges := [ {| min := 1; max := 5 |}; {| min := 10; max := 20 |} ] |} 10 20
  = {| ranges := [ {| min := 1; max := 5 |} ] |}.
Proof.
  apply (UnlockRange_after_LockRange
           {| ranges := [ {| min := 1; max := 5 |} ] |} _ 10 20);
    [lia|reflexivity].
Defined.

(** X3: while the range from [MinInt64] to [MaxInt64] is held, every
    request that starts at a 64-bit time is blocked. *)
Theorem full_range_blocks_every_request (w : writeLock) (a b : Z) :
  In {| min := MinInt64; max := MaxInt64 |} (ranges w) ->
  MinInt64 <= a <= MaxInt64 ->
  LockRange w a b = Abort Blocked.
Proof.
  intros Hin Ha. unfold LockRange.
  destruct (LockRange_waits w a b) as [|x xs] eqn:E; [|reflexivity].
  exfalso. unfold LockRange_waits, currentlyLockedRanges in E.
  assert (Hf : In {| min := MinInt64; max := MaxInt64 |}
                 (filter (fun rr => overlaps rr {| min := a; max := b |}) (ranges w))).
  { apply filter_In. split; [exact Hin|]. apply overlaps_iff. simpl. lia. }
  rewrite E in Hf. destruct Hf.
Qed.

Lemma full_range_blocks_every_request_witness :
  LockRange {| ranges := [ {| min := MinInt64; max := MaxInt64 |} ] |} 3 4
  = Abort Blocked.
Proof.
  apply full_range_blocks_every_request.
  - left. reflexivity.
  - unfold MinInt64, MaxInt64. lia.
Defined.

(** X4: the request for the whole range from [MinInt64] to
    [MaxInt64], as [Close] makes it, returns at once when every held
    range lies strictly inside it: it takes the range while they are
    held. *)
Theorem full_range_request_does_not_wait (w : writeLock) :
  (forall rr, In rr (ranges w) -> MinInt64 < min rr /\ max rr < MaxInt64) ->
  LockRange w MinInt64 MaxInt64
  = Ok {| ranges := ranges w ++ [ {| min := MinInt64; max := MaxInt64 |} ] |}.
Proof.
  intros H. unfold LockRange.
  destruct (LockRange_waits w MinInt64 MaxInt64) as [|x xs] eqn:E; [reflexivity|].
  exfalso. unfold LockRange_waits, currentlyLockedRanges in E.
  assert (Hf : In x (filter (fun rr => overlaps rr {| min := MinInt64; max := MaxInt64 |})
                       (ranges w))) by (rewrite E; left; reflexivity).
  apply filter_In in Hf. destruct Hf as [Hin Ho].
  destruct (H x Hin) as [H1 H2].
  rewrite (overlaps_inner_range x {| min := MinInt64; max := MaxInt64 |}) in Ho;
    [discriminate|exact H1|exact H2].
Qed.

Lemma full_range_request_does_not_wait_witness :
  LockRange {| ranges := [ {| min := 10; max := 20 |} ] |} MinInt64 MaxInt64
  = Ok {| ranges := [ {| min := 10; max := 20 |};
                      {| min := MinInt64; max := MaxInt64 |} ] |}.
Proof.
  apply (full_range_request_does_not_wait {| ranges := [ {| min := 10; max := 20 |} ] |}).
  intros rr [<-|[]]. unfold MinInt64, MaxInt64. simpl. lia.
Defined.

(** The ranges held together: a range taken later has no end point
    inside a range taken earlier. *)
Definition exclusive (l : list rangeLock) : Prop :=
  StronglySorted (fun earlier later => overlaps earlier later = false) l.

Lemma exclusive_snoc (l : list rangeLock) (r : rangeLock) :
  exclusive l -> (forall rr, In rr l -> overlaps rr r = false) ->
  exclusive (l ++ [r]).
Proof.
  unfold exclusive. induction 1 as [|x l Hs IH Hall]; intros Hr; simpl.
  - repeat constructor.
  - constructor.
    + apply IH. intros rr Hin. apply Hr. right. exact Hin.
    + rewrite Forall_forall in *. intros y Hy. apply in_app_or in Hy.
      destruct Hy as [Hy|[<-|[]]]; [auto|]. apply Hr. left. reflexivity.
Qed.

Lemma exclusive_filter (p : rangeLock -> bool) (l : list rangeLock) :
  exclusive l -> exclusive (filter p l).
Proof.
  unfold exclusive. induction 1 as [|x l Hs IH Hall]; simpl; [constructor|].
  destruct (p x); [|exact IH].
  constructor; [exact IH|].
  rewrite Forall_forall in *. intros y Hy. apply filter_In in Hy.
  apply Hall. tauto.
Qed.

(** X5: among the ranges held together, a range taken later never has
    an end point inside a range taken earlier; [LockRange] and
    [UnlockRange] keep it so. *)
Theorem held_ranges_stay_exclusive (w : writeLock) (a b : Z) :
  exclusive (ranges w) ->
  (forall w', LockRange w a b = Ok w' -> exclusive (ranges w')) /\
  exclusive (ranges (UnlockRange w a b)).
Proof.
  intros Hex. split.
  - intros w' H. destruct (LockRange_ok_inv _ _ _ _ H) as [Hr Hno].
    rewrite Hr. apply exclusive_snoc; assumption.
  - unfold UnlockRange. cbn [ranges]. apply exclusive_filter. exact Hex.
Qed.

Lemma held_ranges_stay_exclusive_witness :
  (forall w', LockRange {| ranges := [ {| min := 1; max := 5 |} ] |} 10 20 = Ok w' ->
              exclusive (ranges w')) /\
  exclusive (ranges (UnlockRange {| ranges := [ {| min := 1; max := 5 |} ] |} 10 20)).
Proof.
  apply (held_ranges_stay_exclusive {| ranges := [ {| min := 1; max := 5 |} ] |} 10 20).
  unfold exclusive. simpl. repeat constructor.
Defined.

End MoreLock.

Section MoreBytes.

(** X6: an integer written with [u64tob] (or [u32tob]) is read back by
    [btou64] (or [btou32]) as its value modulo 2^64 (or 2^32). *)
Theorem integers_survive_the_byte_conversion (v : Z) :
  btou64 (u64tob v) = Ok (v mod 2 ^ 64) /\
  btou32 (u32tob v) = Ok (v mod 2 ^ 32).
Proof.
  split; [apply btou64_u64tob|apply btou32_u32tob].
Qed.

Lemma byte_of_Z_of_byte (x : byte) : byte_of_Z (Z_of_byte x) = x.
Proof.
  unfold byte_of_Z, Z_of_byte.
  pose proof (Byte.to_N_bounded x) as Hb.
  rewrite Z.mod_small by lia.
  rewrite N2Z.id, Byte.of_to_N. reflexivity.
Qed.

Lemma be_fold_acc (l : bytes) :
  forall acc,
    fold_left (fun a x => a * 256 + Z_of_byte x) l acc
    = acc * 256 ^ len l + be_value l.
Proof.
  unfold be_value.
  induction l as [|x r IH]; intros acc.
  - simpl. lia.
  - cbn [fold_left]. rewrite IH, (IH (0 * 256 + Z_of_byte x)).
    unfold len. simpl Datatypes.length.
    replace (Z.of_nat (S (Datatypes.length r))) with (Z.of_nat (Datatypes.length r) + 1) by lia.
    rewrite Z.pow_add_r, Z.pow_1_r by lia. ring.
Qed.

Lemma be_value_bound (l : bytes) : 0 <= be_value l < 256 ^ len l.
Proof.
  induction l as [|x r IH].
  - unfold be_value. simpl. lia.
  - unfold be_value. cbn [fold_left]. rewrite be_fold_acc.
    unfold len in *. simpl Datatypes.length.
    replace (Z.of_nat (S (Datatypes.length r))) with (Z.of_nat (Datatypes.length r) + 1) by lia.
    rewrite Z.pow_add_r, Z.pow_1_r by lia.
    assert (0 <= Z_of_byte x < 256).
    { unfold Z_of_byte. pose proof (Byte.to_N_bounded x). lia. }
    nia.
Qed.

Lemma be_bytes_shift (k : nat) :
  forall v m, be_bytes k (v + m * 256 ^ Z.of_nat k) = be_bytes k v.
Proof.
  induction k as [|k IH]; intros v m; [reflexivity|].
  cbn [be_bytes].
  replace (Z.of_nat (S k)) with (Z.of_nat k + 1) by lia.
  rewrite Z.pow_add_r, Z.pow_1_r by lia.
  assert (Hp : 0 < 256 ^ Z.of_nat k) by (apply Z.pow_pos_nonneg; lia).
  f_equal.
  - replace (v + m * (256 ^ Z.of_nat k * 256))
      with (v + (m * 256) * 256 ^ Z.of_nat k) by ring.
    rewrite Z.div_add by lia.
    unfold byte_of_Z. rewrite Z.mod_add by lia. reflexivity.
  - replace (v + m * (256 ^ Z.of_nat k * 256))
      with (v + (m * 256) * 256 ^ Z.of_nat k) by ring.
    apply IH.
Qed.

Lemma be_bytes_be_value (l : bytes) :
  be_bytes (Datatypes.length l) (be_value l) = l.
Proof.
  induction l as [|x r IH]; [reflexivity|].
  simpl Datatypes.length. cbn [be_bytes].
  unfold be_value at 1 2. cbn [fold_left]. rewrite be_fold_acc.
  fold (len r).
  pose proof (be_value_bound r) as Hb.
  assert (Hp : 0 < 256 ^ len r) by (apply Z.pow_pos_nonneg; [lia|apply len_nonneg]).
  f_equal.
  - replace ((0 * 256 + Z_of_byte x) * 256 ^ len r + be_value r)
      with (be_value r + Z_of_byte x * 256 ^ len r) by ring.
    rewrite Z.div_add by lia. rewrite Z.div_small by lia.
    apply byte_of_Z_of_byte.
  - replace ((0 * 256 + Z_of_byte x) * 256 ^ len r + be_value r)
      with (be_value r + Z_of_byte x * 256 ^ len r) by ring.
    unfold len. rewrite be_bytes_shift. exact IH.
Qed.

(** X7: [btou64] reads any eight bytes as an unsigned 64-bit integer
    from which [u64tob] gives the same eight bytes back. *)
Theorem eight_bytes_survive_btou64 (b : bytes) :
  len b = 8 ->
  exists v, btou64 b = Ok v /\ 0 <= v < 2 ^ 64 /\ u64tob v = b.
Proof.
  intros Hlen. exists (be_value b).
  pose proof (be_value_bound b) as Hb. rewrite Hlen in Hb.
  change (256 ^ 8) with (2 ^ 64) in Hb.
  split; [|split; [exact Hb|]].
  - unfold btou64. rewrite Hlen. change (8 <=? 8) with true. cbv iota.
    rewrite firstn_all2 by (unfold len in Hlen; lia). reflexivity.
  - unfold u64tob, u64. rewrite Z.mod_small by lia.
    replace 8%nat with (Datatypes.length b) by (unfold len in Hlen; lia).
    apply be_bytes_be_value.
Qed.

Lemma eight_bytes_survive_btou64_witness :
  exists v, btou64 (u64tob 0x16D116D1) = Ok v /\ 0 <= v < 2 ^ 64 /\
            u64tob v = u64tob 0x16D116D1.
Proof.
  apply (eight_bytes_survive_btou64 (u64tob 0x16D116D1)). reflexivity.
Defined.

(** X8: [btou32] reads any four bytes as an unsigned 32-bit integer
    from which [u32tob] gives the same four bytes back. *)
Theorem four_bytes_survive_btou32 (b : bytes) :
  len b = 4 ->
  exists v, btou32 b = Ok v /\ 0 <= v < 2 ^ 32 /\ u32tob v = b.
Proof.
  intros Hlen. exists (be_value b).
  pose proof (be_value_bound b) as Hb. rewrite Hlen in Hb.
  change (256 ^ 4) with (2 ^ 32) in Hb.
  split; [|split; [exact Hb|]].
  - unfold btou32. rewrite Hlen. change (4 <=? 4) with true. cbv iota.
    rewrite firstn_all2 by (unfold len in Hlen; lia). reflexivity.
  - unfold u32tob, u32. rewrite Z.mod_small by lia.
    replace 4%nat with (Datatypes.length b) by (unfold len in Hlen; lia).
    apply be_bytes_be_value.
Qed.

Lemma four_bytes_survive_btou32_witness :
  exists v, btou32 (u32tob DataFile.magicNumber) = Ok v /\ 0 <= v < 2 ^ 32 /\
            u32tob v = u32tob DataFile.magicNumber.
Proof.
  apply (four_bytes_survive_btou32 (u32tob DataFile.magicNumber)). reflexivity.
Defined.

End MoreBytes.

Section MoreDataFile.

Import DataFile Engine Rewrite.

Lemma writeIndex_loop_len (ids : list Z) :
  forall i np out out',
    writeIndex_loop ids i np out = Ok out' ->
    len out' = len out + 12 * len ids.
Proof.
  induction ids as [|id rest IH]; intros i np out out' H;
    cbn [writeIndex_loop] in H.
  - assert (out = out') by congruence. subst. unfold len. simpl. lia.
  - destruct (index np i) as [p|]; [|discriminate]. cbn [bind] in H.
    apply IH in H. rewrite H, !len_app, len_u64tob, len_u32tob.
    unfold len. simpl Datatypes.length. lia.
Qed.

(** X9: a file sealed by [writeIndexAndGetDataFile] reads back what
    was written last: its [MinTime] and [MaxTime] are the times
    written, its [SeriesCount] is the number of ids, and its index
    starts where the bytes written before the index end; this while the
    file is below 2^32 bytes. *)
Theorem written_trailer_reads_back (name mtime : Z) (out : bytes)
    (minTime maxTime : Z) (ids newPositions : list Z) (d : dataFile) :
  writeIndexAndGetDataFile name mtime out minTime maxTime ids newPositions
  = Ok d ->
  len (mmap d) < 2 ^ 32 ->
  MinInt64 <= minTime <= MaxInt64 ->
  MinInt64 <= maxTime <= MaxInt64 ->
  DataFile.MinTime d = Ok minTime /\
  DataFile.MaxTime d = Ok maxTime /\
  SeriesCount d = Ok (len ids) /\
  indexPosition d = Ok (len out).
Proof.
  unfold writeIndexAndGetDataFile. intros H Hsize Hmin Hmax.
  destruct (writeIndex_loop ids 0 newPositions out) as [out'|] eqn:Eidx;
    [|discriminate].
  cbn [bind] in H. assert (Hd : d = NewDataFile name
    ((out' ++ u64tob (u64 minTime) ++ u64tob (u64 maxTime))
       ++ u32tob (u32 (len ids))) mtime) by congruence.
  clear H. subst d. cbn [NewDataFile mmap] in Hsize.
  pose proof (writeIndex_loop_len _ _ _ _ _ Eidx) as Hlen.
  pose proof (len_nonneg out) as Ho. pose proof (len_nonneg ids) as Hi.
  assert (Htot : len ((out' ++ u64tob (u64 minTime) ++ u64tob (u64 maxTime))
                        ++ u32tob (u32 (len ids))) = len out' + 20)
    by (rewrite !len_app, !len_u64tob, len_u32tob; lia).
  rewrite Htot in Hsize.
  assert (Hcount : SeriesCount (NewDataFile name
            ((out' ++ u64tob (u64 minTime) ++ u64tob (u64 maxTime))
               ++ u32tob (u32 (len ids))) mtime) = Ok (len ids)).
  { rewrite SeriesCount_written by (rewrite Htot; lia).
    f_equal. apply u32_small. lia. }
  split; [|split; [|split]].
  - rewrite MinTime_written by (rewrite Htot; lia).
    now rewrite i64_u64.
  - rewrite MaxTime_written by (rewrite Htot; lia).
    now rewrite i64_u64.
  - exact Hcount.
  - unfold indexPosition. rewrite Hcount. cbn [bind NewDataFile size].
    rewrite Htot. rewrite (u32_small (len out' + 20)) by lia.
    rewrite (u32_small (len ids * 12 + 20)) by lia.
    f_equal. rewrite u32_small by lia. lia.
Qed.

(** The header and the two blocks of [file_two_series], as [rewriteFile]
    has written them when it turns to the index. *)
Definition two_series_blocks : bytes :=
  writeBlock
    (writeBlock (u32tob magicNumber) 3 (encoded [pt 10; pt 20; pt 30]))
    8 (encoded [pt 15; pt 25]).

Lemma written_trailer_reads_back_witness :
  DataFile.MinTime file_two_series = Ok 10 /\
  DataFile.MaxTime file_two_series = Ok 31 /\
  SeriesCount file_two_series = Ok (len [3; 8]) /\
  indexPosition file_two_series = Ok (len two_series_blocks).
Proof.
  apply (written_trailer_reads_back 1 0 two_series_blocks 10 31
           [3; 8] [4; 64] file_two_series).
  - vm_compute. reflexivity.
  - vm_compute. reflexivity.
  - unfold MinInt64, MaxInt64. lia.
  - unfold MinInt64, MaxInt64. lia.
Defined.

(** X10: on a sealed file with strictly ascending ids, [IDToPosition]
    returns the index entries in the order of the file, and
    [StartingPositionForID] returns for every id what a lookup in that
    map gives, 0 standing for an id that is not in it. *)
Theorem StartingPositionForID_agrees_with_IDToPosition (d : dataFile)
    (idx : list (Z * Z)) (id : Z) :
  sealed d idx ->
  StronglySorted Z.lt (map fst idx) ->
  IDToPosition d = Ok idx /\
  StartingPositionForID d id
  = Ok (match map_get idx id with Some p => p | None => 0 end).
Proof.
  intros Hsealed Hsorted. split.
  - apply IDToPosition_sealed; assumption.
  - apply StartingPositionForID_map_get; assumption.
Qed.

Lemma StartingPositionForID_agrees_with_IDToPosition_witness :
  IDToPosition file_two_series = Ok [(3, 4); (8, 64)] /\
  StartingPositionForID file_two_series 8 = Ok 64.
Proof.
  apply (StartingPositionForID_agrees_with_IDToPosition file_two_series
           [(3, 4); (8, 64)] 8 file_two_series_sealed).
  simpl. repeat constructor.
Defined.

Lemma u32_negative (z : Z) : - 2 ^ 32 <= z < 0 -> u32 z = z + 2 ^ 32.
Proof.
  intros H. unfold u32. rewrite <- (Z.mod_add z 1 (2 ^ 32)) by lia.
  apply Z.mod_small. lia.
Qed.

(** X11: on a file of fewer than twenty bytes, too short to hold a
    trailer, [MinTime] panics (its slice bounds wrap around). *)
Theorem MinTime_short_file_panics (d : dataFile) :
  size d = len (mmap d) ->
  size d < 20 ->
  DataFile.MinTime d = Abort Panic.
Proof.
  intros Hsz Hshort. pose proof (len_nonneg (mmap d)) as Hn.
  unfold DataFile.MinTime.
  replace (slice (mmap d) (u32 (size d - 20)) (u32 (size d - 12)))
    with (@Abort bytes Panic); [reflexivity|].
  symmetry. unfold slice.
  rewrite (u32_negative (size d - 20)) by lia.
  destruct (Z_lt_le_dec (size d) 12) as [H12|H12].
  - rewrite (u32_negative (size d - 12)) by lia.
    replace (size d - 12 + 2 ^ 32 <=? len (mmap d)) with false
      by (symmetry; apply Z.leb_gt; lia).
    now rewrite andb_false_r.
  - rewrite (u32_small (size d - 12)) by lia.
    replace (size d - 20 + 2 ^ 32 <=? size d - 12) with false
      by (symmetry; apply Z.leb_gt; lia).
    now rewrite andb_false_r.
Qed.

Lemma MinTime_short_file_panics_witness :
  DataFile.MinTime (NewDataFile 1 (u32tob magicNumber) 0) = Abort Panic.
Proof.
  apply MinTime_short_file_panics; vm_compute; reflexivity.
Defined.

End MoreDataFile.

(** ** Rewriting, continued *)

Section MoreRewrite.

Import DataFile Engine Rewrite.

Context {codec : Codec}.

Lemma map_get_unique_key {V : Type} (m : list (Z * V)) (k : Z) (v : V) :
  NoDup (map fst m) -> In (k, v) m -> map_get m k = Some v.
Proof.
  induction m as [|[k' v'] r IH]; intros Hnd Hin; [destruct Hin|].
  simpl in Hnd. inversion Hnd as [|? ? Hk Hr]; subst.
  simpl. destruct Hin as [Heq|Hin].
  - injection Heq as -> ->. now rewrite Z.eqb_refl.
  - destruct (k' =? k) eqn:E.
    + apply Z.eqb_eq in E. subst k'. exfalso. apply Hk.
      apply (in_map fst) in Hin. exact Hin.
    + apply IH; assumption.
Qed.

Lemma StronglySorted_lt_NoDup (l : list Z) : StronglySorted Z.lt l -> NoDup l.
Proof.
  induction 1 as [|x l Hs IH Hall]; constructor; [|exact IH].
  intros Hin. rewrite Forall_forall in Hall. specialize (Hall x Hin). lia.
Qed.

(** X12: what [rewriteFile] writes without an old file is read back:
    for every id and its new values, [StartingPositionForID] of the new
    file gives a position other than 0, at which [block] finds a block
    of that id whose bytes are the encoding of those values. *)
Theorem fresh_file_blocks_read_back (e e' : Engine) (now : Z)
    (valuesByID : list (Z * Values)) (d : dataFile) (id : Z) (v : Values) :
  NoDup (map fst valuesByID) ->
  (forall k, In k (map fst valuesByID) -> 0 <= k < 2 ^ 64) ->
  rewriteFile e now None valuesByID = Ok (e', Some d) ->
  len (mmap d) < 2 ^ 32 ->
  In (id, v) valuesByID ->
  exists p t blk,
    StartingPositionForID d id = Ok p /\
    p <> 0 /\
    block d p = Ok (id, t, blk) /\
    Encode v = Ok blk.
Proof.
  intros Hnd Hrange Hrun Hsize Hin.
  destruct (rewriteFile_fresh_layout _ _ _ _ _ Hrun Hsize)
    as (bs & minTime & maxTime & Hids & Henc & _ & ->).
  cbn [NewDataFile mmap] in Hsize.
  assert (Hbs : forall b, In b bs -> 0 <= fst b < 2 ^ 64).
  { intros b Hb. apply Hrange. apply (sort_by_In (fst b)).
    rewrite <- Hids. apply in_map. exact Hb. }
  pose proof (layout_sealed (currentFileID e + 1) now bs minTime maxTime Hsize Hbs)
    as Hsealed.
  assert (Hsorted : StronglySorted Z.lt (map fst (blocks_index fileHeaderSize bs))).
  { rewrite blocks_index_fst, Hids. apply sort_by_strict. exact Hnd. }
  assert (Hkey : In id (map fst (blocks_index fileHeaderSize bs))).
  { rewrite blocks_index_fst, Hids. apply sort_by_In.
    apply (in_map fst) in Hin. exact Hin. }
  destruct (map_get_Some_of_key _ id Hkey) as (p & Hget & Hp).
  destruct (layout_block (currentFileID e + 1) now bs minTime maxTime Hsize Hbs id p Hp)
    as (H4 & _ & t & blk & Hblock & Hb).
  exists p, t, blk.
  rewrite (StartingPositionForID_map_get _ _ id Hsealed Hsorted), Hget.
  unfold fileHeaderSize in H4.
  split; [reflexivity|]. split; [lia|]. split; [exact Hblock|].
  rewrite Forall_forall in Henc. destruct (Henc _ Hb) as (v' & Hv' & He).
  cbn [fst snd] in Hv', He.
  rewrite (map_get_unique_key valuesByID id v Hnd Hin) in Hv'.
  congruence.
Qed.

(** *** The time range of the new file *)

Lemma MinTime_In (v : Values) (t : Z) :
  Encoding.MinTime v = Ok t -> exists x, In x v /\ UnixNano x = t.
Proof.
  destruct v as [|x r]; [discriminate|]. simpl. intros H.
  injection H as <-. exists x. split; [left|]; reflexivity.
Qed.

Lemma last_cons {A : Type} (r : list A) :
  forall x y, last (y :: r) x = last r y.
Proof.
  induction r as [|z r IH]; intros x y; [reflexivity|].
  change (last (y :: z :: r) x) with (last (z :: r) x).
  rewrite (IH x z), (IH y z). reflexivity.
Qed.

Lemma last_In {A : Type} (r : list A) : forall x, In (last r x) (x :: r).
Proof.
  induction r as [|y r IH]; intros x; [left; reflexivity|].
  rewrite last_cons. right. apply IH.
Qed.

Lemma MaxTime_In (v : Values) (t : Z) :
  Encoding.MaxTime v = Ok t -> exists x, In x v /\ UnixNano x = t.
Proof.
  destruct v as [|x r]; [discriminate|]. cbn [Encoding.MaxTime]. intros H.
  injection H as <-. exists (last r x). split; [|reflexivity].
  apply last_In.
Qed.

Lemma rewriteFile_times_bounds (vs : list (Z * Values)) :
  forall mn0 mx0 mn mx,
    rewriteFile_times vs mn0 mx0 = Ok (mn, mx) ->
    (forall id v x, In (id, v) vs -> In x v ->
                    MinInt64 <= UnixNano x < MaxInt64) ->
    MinInt64 <= mn0 <= MaxInt64 -> MinInt64 <= mx0 <= MaxInt64 ->
    (MinInt64 <= mn <= mn0 /\ mx0 <= mx <= MaxInt64) /\
    (forall id v t, In (id, v) vs -> Encoding.MinTime v = Ok t -> mn <= t) /\
    (forall id v t, In (id, v) vs -> Encoding.MaxTime v = Ok t -> t <= mx).
Proof.
  induction vs as [|[i w] rest IH]; intros mn0 mx0 mn mx H Hr Hmn Hmx.
  - simpl in H. injection H as <- <-. split; [lia|]. split; intros ? ? ? [].
  - cbn [rewriteFile_times] in H.
    destruct (Encoding.MinTime w) as [vmin|] eqn:Emin; [|discriminate].
    cbn [bind] in H.
    destruct (Encoding.MaxTime w) as [vmax|] eqn:Emax; [|discriminate].
    cbn [bind] in H.
    destruct (MinTime_In _ _ Emin) as (x1 & Hx1 & <-).
    destruct (MaxTime_In _ _ Emax) as (x2 & Hx2 & <-).
    pose proof (Hr i w x1 (or_introl eq_refl) Hx1) as R1.
    pose proof (Hr i w x2 (or_introl eq_refl) Hx2) as R2.
    assert (Hi : i64 (UnixNano x2 + 1) = UnixNano x2 + 1).
    { unfold i64, MinInt64, MaxInt64 in *. rewrite Z.mod_small by lia. lia. }
    rewrite Hi in H.
    apply IH in H.
    + destruct H as ([Ha Hb] & Hc & Hd).
      assert (Hmn' : (if mn0 >? UnixNano x1 then UnixNano x1 else mn0) <= mn0
                     /\ (if mn0 >? UnixNano x1 then UnixNano x1 else mn0) <= UnixNano x1).
      { destruct (mn0 >? UnixNano x1) eqn:E; [apply Z.gtb_lt in E|
          rewrite Z.gtb_ltb in E; apply Z.ltb_ge in E]; lia. }
      assert (Hmx' : mx0 <= (if mx0 <? UnixNano x2 then UnixNano x2 + 1 else mx0)
                     /\ UnixNano x2 <= (if mx0 <? UnixNano x2 then UnixNano x2 + 1 else mx0)).
      { destruct (mx0 <? UnixNano x2) eqn:E; [apply Z.ltb_lt in E|
          apply Z.ltb_ge in E]; lia. }
      split; [lia|]. split.
      * intros id v t [Heq|Hin] Ht.
        -- injection Heq as <- <-. rewrite Emin in Ht. injection Ht as <-. lia.
        -- eapply Hc; eauto.
      * intros id v t [Heq|Hin] Ht.
        -- injection Heq as <- <-. rewrite Emax in Ht. injection Ht as <-. lia.
        -- eapply Hd; eauto.
    + intros id v x Hin Hx. apply (Hr id v x); [right|]; assumption.
    + destruct (mn0 >? UnixNano x1); lia.
    + destruct (mx0 <? UnixNano x2); unfold MinInt64, MaxInt64 in *; lia.
Qed.

Lemma MinTime_range (d : dataFile) (t : Z) :
  DataFile.MinTime d = Ok t -> MinInt64 <= t <= MaxInt64.
Proof.
  unfold DataFile.MinTime. intros H.
  destruct (slice _ _ _) as [b|]; [|discriminate]. cbn [bind] in H.
  destruct (btou64 b) as [v|]; [|discriminate]. cbn [bind] in H.
  injection H as <-. apply i64_range.
Qed.

(** X13: the time range in the trailer of the file that [rewriteFile]
    creates covers, inclusively, the time range of the old file and the
    first and the last time of every new sequence of values, as long as
    no new value is at [MaxInt64]. *)
Theorem new_file_time_range_covers (e e' : Engine) (now : Z)
    (oldDF : option dataFile) (valuesByID : list (Z * Values)) (d : dataFile) :
  rewriteFile e now oldDF valuesByID = Ok (e', Some d) ->
  len (mmap d) < 2 ^ 32 ->
  (forall id v x, In (id, v) valuesByID -> In x v ->
                  MinInt64 <= UnixNano x < MaxInt64) ->
  exists mn mx,
    DataFile.MinTime d = Ok mn /\
    DataFile.MaxTime d = Ok mx /\
    (forall id v t, In (id, v) valuesByID ->
                    Encoding.MinTime v = Ok t -> mn <= t) /\
    (forall id v t, In (id, v) valuesByID ->
                    Encoding.MaxTime v = Ok t -> t <= mx) /\
    (forall old omn omx, oldDF = Some old ->
                         DataFile.MinTime old = Ok omn ->
                         DataFile.MaxTime old = Ok omx ->
                         mn <= omn /\ omx <= mx).
Proof.
  intros Hrun Hsize Hr.
  destruct (rewriteFile_trailer _ _ _ _ _ _ Hrun)
    as (body & mn0 & mx0 & mn & mx & count & Hold & Htimes & ->).
  cbn [NewDataFile mmap] in Hsize.
  assert (Hr0 : MinInt64 <= mn0 <= MaxInt64 /\ MinInt64 <= mx0 <= MaxInt64).
  { destruct oldDF as [old|].
    - destruct Hold as [H1 H2]. split;
        [eapply MinTime_range|eapply MaxTime_range]; eauto.
    - destruct Hold as [-> ->]. unfold MinInt64, MaxInt64. lia. }
  destruct Hr0 as [Hmn0 Hmx0].
  destruct (rewriteFile_times_bounds _ _ _ _ _ Htimes Hr Hmn0 Hmx0)
    as ([Ha Hb] & Hc & Hd).
  exists mn, mx.
  rewrite MinTime_written, MaxTime_written by exact Hsize.
  rewrite !i64_u64 by lia.
  split; [reflexivity|]. split; [reflexivity|]. split; [exact Hc|].
  split; [exact Hd|].
  intros old omn omx -> H1 H2. destruct Hold as [H1' H2'].
  assert (omn = mn0) by congruence. assert (omx = mx0) by congruence. lia.
Qed.


(** *** The file set after a rewrite *)

Lemma insert_sorted_In_gen {A : Type} (key : A -> Z) (x y : A) (l : list A) :
  In y (insert_sorted key x l) <-> y = x \/ In y l.
Proof.
  induction l as [|z r IH]; simpl.
  - intuition.
  - destruct (key x <=? key z); simpl; [intuition|]. rewrite IH. intuition.
Qed.

Lemma sort_by_In_gen {A : Type} (key : A -> Z) (y : A) (l : list A) :
  In y (sort_by key l) <-> In y l.
Proof.
  unfold sort_by. induction l as [|x r IH]; simpl; [reflexivity|].
  rewrite insert_sorted_In_gen, IH. intuition.
Qed.

Lemma insert_sorted_sorted {A : Type} (key : A -> Z) (x : A) (l : list A) :
  StronglySorted (fun a b => key a <= key b) l ->
  StronglySorted (fun a b => key a <= key b) (insert_sorted key x l).
Proof.
  induction 1 as [|z r Hs IH Hall]; simpl.
  - repeat constructor.
  - destruct (key x <=? key z) eqn:E.
    + apply Z.leb_le in E. constructor; [constructor; assumption|].
      constructor; [lia|].
      rewrite Forall_forall in *. intros w Hw. specialize (Hall w Hw). lia.
    + apply Z.leb_gt in E. constructor; [exact IH|].
      rewrite Forall_forall in *. intros w Hw.
      apply insert_sorted_In_gen in Hw. destruct Hw as [->|Hw]; [lia|auto].
Qed.

Lemma sort_by_sorted {A : Type} (key : A -> Z) (l : list A) :
  StronglySorted (fun a b => key a <= key b) (sort_by key l).
Proof.
  unfold sort_by. induction l as [|x r IH]; simpl; [constructor|].
  apply insert_sorted_sorted. exact IH.
Qed.

Lemma keyed_files (a : list dataFile) :
  forall keyed,
    fold_right (fun d acc => l <- acc ;; t <- DataFile.MinTime d ;; Ok ((t, d) :: l))
      (Ok []) a = Ok keyed ->
    map snd keyed = a /\
    Forall (fun kd => DataFile.MinTime (snd kd) = Ok (fst kd)) keyed.
Proof.
  induction a as [|d r IH]; intros keyed H; simpl in H.
  - injection H as <-. split; [reflexivity|constructor].
  - destruct (fold_right _ _ r) as [l|]; [|discriminate]. cbn [bind] in H.
    destruct (DataFile.MinTime d) as [t|] eqn:Et; [|discriminate].
    cbn [bind] in H. injection H as <-.
    destruct (IH l eq_refl) as [Hm Hf].
    split; [simpl; now rewrite Hm|]. constructor; [exact Et|exact Hf].
Qed.

Lemma sort_dataFiles_In (a r : list dataFile) :
  sort_dataFiles a = Ok r -> forall x, In x r <-> In x a.
Proof.
  unfold sort_dataFiles. intros H x.
  destruct a as [|d1 [|d2 rest]]; try (injection H as <-; reflexivity).
  match type of H with
  | bind ?m _ = _ => destruct m as [keyed|] eqn:Ek; [|discriminate]
  end.
  cbn [bind] in H. injection H as <-.
  destruct (keyed_files _ _ Ek) as [Hm _].
  rewrite <- Hm. rewrite !in_map_iff.
  split; intros (kd & Hs & Hin); exists kd; (split; [exact Hs|]);
    apply (sort_by_In_gen fst kd keyed); exact Hin.
Qed.

Lemma sort_dataFiles_sorted (a r : list dataFile) :
  sort_dataFiles a = Ok r ->
  (forall d, a = [d] -> exists t, DataFile.MinTime d = Ok t) ->
  exists keys,
    Forall2 (fun d t => DataFile.MinTime d = Ok t) r keys /\
    StronglySorted Z.le keys.
Proof.
  unfold sort_dataFiles. intros H Hone.
  destruct a as [|d1 [|d2 rest]].
  - injection H as <-. exists []. split; constructor.
  - injection H as <-. destruct (Hone d1 eq_refl) as [t Ht].
    exists [t]. split; repeat constructor. exact Ht.
  - match type of H with
    | bind ?m _ = _ => destruct m as [keyed|] eqn:Ek; [|discriminate]
    end.
    cbn [bind] in H. injection H as <-.
    destruct (keyed_files _ _ Ek) as [_ Hf].
    exists (map fst (sort_by fst keyed)). split.
    + assert (Hall : Forall (fun kd => DataFile.MinTime (snd kd) = Ok (fst kd))
                       (sort_by fst keyed)).
      { rewrite Forall_forall in *. intros kd Hin. apply Hf.
        apply (sort_by_In_gen fst kd keyed). exact Hin. }
      induction Hall as [|kd l Hkd Hl IHl]; simpl; constructor; assumption.
    + pose proof (sort_by_sorted fst keyed) as Hs.
      induction Hs as [|kd l Hs IHs Hall]; simpl; constructor; [exact IHs|].
      rewrite Forall_forall in *. intros t Ht. apply in_map_iff in Ht.
      destruct Ht as (kd' & <- & Hin). apply Hall. exact Hin.
Qed.

Lemma rewriteFile_files (e e' : Engine) (now : Z) (oldDF : option dataFile)
    (valuesByID : list (Z * Values)) (d : dataFile) :
  rewriteFile e now oldDF valuesByID = Ok (e', Some d) ->
  currentFileID e' = currentFileID e + 1 /\
  DataFile.f d = Some (currentFileID e + 1) /\
  modTime d = now /\
  writeLock e' = writeLock e /\
  sort_dataFiles
    (filter (fun df => match oldDF with
                       | Some old => negb (same_file df old)
                       | None => true
                       end) (files e) ++ [d]) = Ok (files e').
Proof.
  unfold rewriteFile. intros H.
  destruct (len valuesByID =? 0); [discriminate|].
  match type of H with
  | bind ?m _ = _ => destruct m as [[[oldIDToPosition minTime0] maxTime0]|];
                     [|discriminate]
  end.
  cbn [bind] in H.
  destruct (rewriteFile_times valuesByID minTime0 maxTime0)
    as [[minTime maxTime]|]; [|discriminate].
  cbn [bind] in H.
  cbn [nextFileName currentFileID files] in H.
  match type of H with
  | bind ?m _ = _ => destruct m as [[out newPositions]|]; [|discriminate]
  end.
  cbn [bind] in H.
  unfold writeIndexAndGetDataFile in H.
  match type of H with
  | bind (bind ?m _) _ = _ => destruct m as [out'|]; [|discriminate]
  end.
  cbn [bind] in H.
  match type of H with
  | bind ?m _ = _ => destruct m as [sorted|] eqn:Es; [|discriminate]
  end.
  cbn [bind] in H.
  injection H as <- <-.
  cbn [currentFileID files writeLock NewDataFile DataFile.f modTime].
  repeat split. exact Es.
Qed.

(** X14: a [rewriteFile] that creates a file advances the file counter
    by one, names the new file after it, and leaves in the file set the
    new file together with the files that were there, the old file
    excepted. *)
Theorem rewriteFile_replaces_old_file (e e' : Engine) (now : Z)
    (oldDF : option dataFile) (valuesByID : list (Z * Values)) (d : dataFile) :
  rewriteFile e now oldDF valuesByID = Ok (e', Some d) ->
  currentFileID e' = currentFileID e + 1 /\
  DataFile.f d = Some (currentFileID e + 1) /\
  forall x, In x (files e') <->
            x = d \/
            (In x (files e) /\
             match oldDF with
             | Some old => same_file x old = false
             | None => True
             end).
Proof.
  intros Hrun.
  destruct (rewriteFile_files _ _ _ _ _ _ Hrun) as (Hid & Hf & _ & _ & Hs).
  split; [exact Hid|]. split; [exact Hf|].
  intros x. rewrite (sort_dataFiles_In _ _ Hs x), in_app_iff, filter_In.
  simpl. destruct oldDF as [old|].
  - rewrite negb_true_iff. intuition.
  - intuition.
Qed.

(** X15: after a [rewriteFile] that creates a file, every file of the
    file set has a readable minimum time and the file set is in
    ascending order of these minimum times. *)
Theorem rewriteFile_keeps_files_sorted (e e' : Engine) (now : Z)
    (oldDF : option dataFile) (valuesByID : list (Z * Values)) (d : dataFile) :
  rewriteFile e now oldDF valuesByID = Ok (e', Some d) ->
  len (mmap d) < 2 ^ 32 ->
  exists keys,
    Forall2 (fun x t => DataFile.MinTime x = Ok t) (files e') keys /\
    StronglySorted Z.le keys.
Proof.
  intros Hrun Hsize.
  destruct (rewriteFile_files _ _ _ _ _ _ Hrun) as (_ & _ & _ & _ & Hs).
  apply (sort_dataFiles_sorted _ _ Hs).
  intros d' Hd'.
  assert (d' = d).
  { destruct (filter _ (files e)) as [|y [|z r]]; simpl in Hd';
      [congruence|discriminate|discriminate]. }
  subst d'.
  destruct (rewriteFile_trailer _ _ _ _ _ _ Hrun)
    as (body & mn0 & mx0 & mn & mx & count & _ & _ & ->).
  cbn [NewDataFile mmap] in Hsize.
  rewrite MinTime_written by exact Hsize. eauto.
Qed.

End MoreRewrite.

Section MoreRewriteExamples.

Import DataFile Engine Rewrite.

#[local] Existing Instance sampleCodec.

Definition two_series_values : list (Z * Values) :=
  [(3, [pt 10; pt 20; pt 30]); (8, [pt 15; pt 25])].

Lemma fresh_file_blocks_read_back_witness :
  exists p t blk,
    StartingPositionForID file_two_series 8 = Ok p /\
    p <> 0 /\
    block file_two_series p = Ok (8, t, blk) /\
    Encode [pt 15; pt 25] = Ok blk.
Proof.
  apply (fresh_file_blocks_read_back (sampleEngine 0 [])
           (rewritten (sampleEngine 0 []) 0 None two_series_values) 0
           two_series_values file_two_series 8 [pt 15; pt 25]).
  - simpl. repeat constructor; simpl; intuition discriminate.
  - intros k Hk. simpl in Hk.
    destruct Hk as [<-|[<-|[]]]; (split; [lia|reflexivity]).
  - vm_compute. reflexivity.
  - vm_compute. reflexivity.
  - right. left. reflexivity.
Defined.

Definition merged_file : dataFile :=
  Eval vm_compute in written engine_10_20 5 (Some file_10_20) [(1, pts 15 6)].

Definition merged_engine : Engine :=
  Eval vm_compute in rewritten engine_10_20 5 (Some file_10_20) [(1, pts 15 6)].

Lemma merged_run :
  rewriteFile engine_10_20 5 (Some file_10_20) [(1, pts 15 6)]
  = Ok (merged_engine, Some merged_file).
Proof. vm_compute. reflexivity. Qed.

Lemma new_file_time_range_covers_witness :
  exists mn mx,
    DataFile.MinTime merged_file = Ok mn /\
    DataFile.MaxTime merged_file = Ok mx /\
    (forall id v t, In (id, v) [(1, pts 15 6)] ->
                    Encoding.MinTime v = Ok t -> mn <= t) /\
    (forall id v t, In (id, v) [(1, pts 15 6)] ->
                    Encoding.MaxTime v = Ok t -> t <= mx) /\
    (forall old omn omx, Some file_10_20 = Some old ->
                         DataFile.MinTime old = Ok omn ->
                         DataFile.MaxTime old = Ok omx ->
                         mn <= omn /\ omx <= mx).
Proof.
  apply (new_file_time_range_covers engine_10_20 merged_engine 5
           (Some file_10_20) [(1, pts 15 6)] merged_file merged_run).
  - vm_compute. reflexivity.
  - intros id v x [H|[]] Hx. injection H as <- <-.
    unfold MinInt64, MaxInt64.
    simpl in Hx. repeat (destruct Hx as [<-|Hx]; [simpl; lia|]). destruct Hx.
Defined.

Lemma rewriteFile_replaces_old_file_witness :
  currentFileID merged_engine = currentFileID engine_10_20 + 1 /\
  DataFile.f merged_file = Some (currentFileID engine_10_20 + 1) /\
  forall x, In x (files merged_engine) <->
            x = merged_file \/
            (In x (files engine_10_20) /\ same_file x file_10_20 = false).
Proof.
  apply (rewriteFile_replaces_old_file engine_10_20 merged_engine 5
           (Some file_10_20) [(1, pts 15 6)] merged_file merged_run).
Defined.

(** A flush of values that are older than the file of [engine_10_20]:
    the new file is appended to the file set and the sort moves it in
    front of the file that was there. *)
Definition earlier_file : dataFile :=
  Eval vm_compute in written engine_10_20 5 None [(1, pts 1 3)].

Definition earlier_engine : Engine :=
  Eval vm_compute in rewritten engine_10_20 5 None [(1, pts 1 3)].

Lemma earlier_run :
  rewriteFile engine_10_20 5 None [(1, pts 1 3)]
  = Ok (earlier_engine, Some earlier_file) /\
  files earlier_engine = [earlier_file; file_10_20].
Proof. split; vm_compute; reflexivity. Qed.

Lemma rewriteFile_keeps_files_sorted_witness :
  exists keys,
    Forall2 (fun x t => DataFile.MinTime x = Ok t)
      [earlier_file; file_10_20] keys /\
    StronglySorted Z.le keys.
Proof.
  apply (rewriteFile_keeps_files_sorted engine_10_20 earlier_engine 5
           None [(1, pts 1 3)] earlier_file (proj1 earlier_run)).
  vm_compute. reflexivity.
Defined.

End MoreRewriteExamples.

(** ** Merging a block with new values *)

Section MoreCombine.

Import DataFile Engine Rewrite.

Context {codec : Codec}.

(** X16: whatever its inputs, the block that [DecodeAndCombine] returns
    is the encoding of at most [DefaultMaxPointsPerBlock] values. *)
Theorem DecodeAndCombine_block_is_bounded (newValues : Values) (block : bytes)
    (nextTime : Z) (hasFutureBlock : bool) (leftover : Values) (blk : bytes) :
  DecodeAndCombine newValues block nextTime hasFutureBlock = Ok (leftover, blk) ->
  exists vs, Encode vs = Ok blk /\ len vs <= DefaultMaxPointsPerBlock.
Proof.
  unfold DecodeAndCombine. intros H.
  destruct (DecodeSameTypeBlock newValues block) as [values|]; [|discriminate].
  cbn [bind] in H.
  match type of H with
  | bind ?m _ = _ => destruct m as [[merged rem]|]; [|discriminate]
  end.
  cbn [bind] in H.
  destruct (len merged >? DefaultMaxPointsPerBlock) eqn:Egt.
  - destruct (slice merged DefaultMaxPointsPerBlock (len merged)) as [r|];
      [|discriminate].
    cbn [bind] in H.
    destruct (slice merged 0 DefaultMaxPointsPerBlock) as [vs|] eqn:Es;
      [|discriminate].
    cbn [bind] in H.
    destruct (Encode vs) as [b|] eqn:Ee; [|discriminate].
    cbn [bind] in H. exists vs. apply slice_length in Es.
    split; [congruence|lia].
  - cbn [bind] in H.
    destruct (Encode merged) as [b|] eqn:Ee; [|discriminate].
    cbn [bind] in H. exists merged.
    rewrite Z.gtb_ltb in Egt. apply Z.ltb_ge in Egt.
    split; [congruence|lia].
Qed.

(** X17: without a future block [DecodeAndCombine] loses no value: the
    values of the block it returns, followed by the leftover, are the
    decoded values followed by the new values, deduplicated when the
    last decoded time is not before the first new time. *)
Theorem DecodeAndCombine_last_block_keeps_all (newValues : Values)
    (block : bytes) (nextTime : Z) (leftover : Values) (blk : bytes) :
  DecodeAndCombine newValues block nextTime false = Ok (leftover, blk) ->
  exists decoded vmax nmin vs,
    DecodeSameTypeBlock newValues block = Ok decoded /\
    Encoding.MaxTime decoded = Ok vmax /\
    Encoding.MinTime newValues = Ok nmin /\
    Encode vs = Ok blk /\
    vs ++ leftover = (if vmax >=? nmin then Deduplicate (decoded ++ newValues)
                      else decoded ++ newValues).
Proof.
  unfold DecodeAndCombine. intros H.
  destruct (DecodeSameTypeBlock newValues block) as [decoded|]; [|discriminate].
  cbn [bind] in H.
  destruct (Encoding.MaxTime decoded) as [vmax|] eqn:Emax; [|discriminate].
  cbn [bind] in H.
  destruct (Encoding.MinTime newValues) as [nmin|] eqn:Emin; [|discriminate].
  cbn [bind] in H.
  set (merged := if vmax >=? nmin then Deduplicate (decoded ++ newValues)
                 else decoded ++ newValues) in *.
  exists decoded, vmax, nmin.
  destruct (len merged >? DefaultMaxPointsPerBlock) eqn:Egt.
  - destruct (slice merged DefaultMaxPointsPerBlock (len merged)) as [r|] eqn:Er;
      [|discriminate].
    cbn [bind] in H.
    destruct (slice merged 0 DefaultMaxPointsPerBlock) as [vs|] eqn:Es;
      [|discriminate].
    cbn [bind] in H.
    destruct (Encode vs) as [b|] eqn:Ee; [|discriminate].
    cbn [bind] in H. exists vs.
    assert (leftover = r) by congruence. assert (blk = b) by congruence.
    subst leftover blk.
    apply Z.gtb_lt in Egt.
    assert (H0 : 0 <= DefaultMaxPointsPerBlock) by (unfold DefaultMaxPointsPerBlock; lia).
    rewrite slice_suffix in Er by lia. rewrite slice_prefix in Es by lia.
    assert (Hr : r = skipn (Z.to_nat DefaultMaxPointsPerBlock) merged)
      by congruence.
    assert (Hv : vs = firstn (Z.to_nat DefaultMaxPointsPerBlock) merged)
      by congruence.
    subst r vs.
    repeat split; try reflexivity; try assumption. apply firstn_skipn.
  - cbn [bind] in H.
    destruct (Encode merged) as [b|] eqn:Ee; [|discriminate].
    cbn [bind] in H. exists merged.
    assert (leftover = []) by congruence. assert (blk = b) by congruence.
    subst leftover blk. repeat split; try reflexivity; try assumption.
    apply app_nil_r.
Qed.

(** *** The new values before the next block *)

Definition ascending (vs : Values) : Prop :=
  StronglySorted (fun a b => UnixNano a <= UnixNano b) vs.

Definition before (t : Z) (v : Value) : bool := UnixNano v <? t.
Definition from (t : Z) (v : Value) : bool := UnixNano v >=? t.

Lemma from_not_before (t : Z) (v : Value) : from t v = negb (before t v).
Proof.
  unfold from, before. rewrite Z.geb_leb. apply Z.leb_antisym.
Qed.

Lemma filter_all_from (t : Z) (vs : Values) :
  Forall (fun v => t <= UnixNano v) vs ->
  filter (before t) vs = [] /\ filter (from t) vs = vs.
Proof.
  induction 1 as [|x r Hx Hr [IH1 IH2]]; [split; reflexivity|].
  cbn [filter]. rewrite from_not_before.
  assert (E : before t x = false) by (unfold before; apply Z.ltb_ge; lia).
  rewrite E. cbn [negb]. split; [exact IH1|now rewrite IH2].
Qed.

Lemma ascending_split (t : Z) (vs : Values) :
  ascending vs -> vs = filter (before t) vs ++ filter (from t) vs.
Proof.
  unfold ascending.
  induction 1 as [|x r Hs IH Hall]; [reflexivity|].
  cbn [filter]. rewrite from_not_before.
  destruct (before t x) eqn:E; cbn [negb].
  - cbn [app]. f_equal. exact IH.
  - unfold before in E. apply Z.ltb_ge in E.
    destruct (filter_all_from t r) as [H1 H2].
    { eapply Forall_impl; [|exact Hall]. cbn beta. intros; lia. }
    rewrite H1, H2. reflexivity.
Qed.

Lemma index_app_l {A : Type} (a b : list A) (i : Z) :
  0 <= i < len a -> exists x, index (a ++ b) i = Ok x /\ In x a.
Proof.
  intros Hi. unfold index.
  replace (0 <=? i) with true by (symmetry; apply Z.leb_le; lia).
  replace (i <? len (a ++ b)) with true
    by (symmetry; apply Z.ltb_lt; rewrite len_app; pose proof (len_nonneg b); lia).
  cbn [andb]. unfold len in Hi.
  rewrite nth_error_app1 by lia.
  destruct (nth_error a (Z.to_nat i)) as [x|] eqn:E.
  - exists x. split; [reflexivity|]. eapply nth_error_In; eauto.
  - apply nth_error_None in E. lia.
Qed.

Lemma index_app_r {A : Type} (a b : list A) (i : Z) :
  len a <= i < len a + len b -> exists x, index (a ++ b) i = Ok x /\ In x b.
Proof.
  intros Hi. unfold index. pose proof (len_nonneg a).
  replace (0 <=? i) with true by (symmetry; apply Z.leb_le; lia).
  replace (i <? len (a ++ b)) with true
    by (symmetry; apply Z.ltb_lt; rewrite len_app; lia).
  cbn [andb]. unfold len in Hi.
  rewrite nth_error_app2 by lia.
  destruct (nth_error b (Z.to_nat i - Datatypes.length a)) as [x|] eqn:E.
  - exists x. split; [reflexivity|]. eapply nth_error_In; eauto.
  - apply nth_error_None in E. lia.
Qed.

Lemma Search_loop_boundary (t : Z) (a b : Values) :
  (forall x, In x a -> UnixNano x < t) ->
  (forall x, In x b -> t <= UnixNano x) ->
  forall fuel i j,
    0 <= i -> i <= len a -> len a <= j -> j <= len a + len b ->
    j - i <= Z.of_nat fuel ->
    Search_loop fuel
      (fun k => v <- index (a ++ b) k ;; Ok (UnixNano v >=? t)) i j
    = Ok (len a).
Proof.
  intros Ha Hb. induction fuel as [|fuel IH]; intros i j H0 Hi Hj Hjn Hf.
  - assert (i = j) by lia. subst j. simpl. rewrite Z.ltb_irrefl.
    f_equal. lia.
  - cbn [Search_loop]. destruct (i <? j) eqn:Elt.
    2:{ apply Z.ltb_ge in Elt. f_equal. lia. }
    apply Z.ltb_lt in Elt.
    assert (Hh : i <= (i + j) / 2 < j).
    { split; [apply Z.div_le_lower_bound; lia|apply Z.div_lt_upper_bound; lia]. }
    destruct (Z_lt_le_dec ((i + j) / 2) (len a)) as [Hl|Hr].
    + destruct (index_app_l a b ((i + j) / 2)) as (x & Hx & Hin); [lia|].
      rewrite Hx. cbn [bind].
      specialize (Ha x Hin). rewrite Z.geb_leb.
      replace (t <=? UnixNano x) with false by (symmetry; apply Z.leb_gt; lia).
      cbn [negb]. apply IH; lia.
    + destruct (index_app_r a b ((i + j) / 2)) as (x & Hx & Hin); [lia|].
      rewrite Hx. cbn [bind].
      specialize (Hb x Hin). rewrite Z.geb_leb.
      replace (t <=? UnixNano x) with true by (symmetry; apply Z.leb_le; lia).
      cbn [negb]. apply IH; lia.
Qed.

Lemma Search_ascending (t : Z) (vs : Values) :
  ascending vs ->
  Search (len vs) (fun k => v <- index vs k ;; Ok (UnixNano v >=? t))
  = Ok (len (filter (before t) vs)).
Proof.
  intros Hasc. unfold Search.
  pose proof (ascending_split t vs Hasc) as Hsplit.
  assert (Ha : forall x, In x (filter (before t) vs) -> UnixNano x < t).
  { intros x Hx. apply filter_In in Hx. destruct Hx as [_ Hx].
    unfold before in Hx. apply Z.ltb_lt in Hx. exact Hx. }
  assert (Hb : forall x, In x (filter (from t) vs) -> t <= UnixNano x).
  { intros x Hx. apply filter_In in Hx. destruct Hx as [_ Hx].
    unfold from in Hx. rewrite Z.geb_leb in Hx. apply Z.leb_le in Hx. exact Hx. }
  remember (filter (before t) vs) as a eqn:Ea.
  remember (filter (from t) vs) as b eqn:Eb.
  clear Ea Eb. subst vs. rewrite len_app.
  pose proof (len_nonneg a). pose proof (len_nonneg b).
  apply Search_loop_boundary; try assumption; lia.
Qed.

Lemma firstn_len_app {A : Type} (a b : list A) :
  firstn (Z.to_nat (len a)) (a ++ b) = a.
Proof.
  unfold len. rewrite Nat2Z.id, firstn_app, Nat.sub_diag, firstn_all.
  apply app_nil_r.
Qed.

Lemma skipn_len_app {A : Type} (a b : list A) :
  skipn (Z.to_nat (len a)) (a ++ b) = b.
Proof.
  unfold len. rewrite Nat2Z.id, skipn_app, Nat.sub_diag, skipn_all.
  reflexivity.
Qed.

(** X18: with a future block and new values in ascending order of
    time, the search splits the new values at [nextTime]: those before
    it are merged with the decoded values and, when the merged values
    fit into one block, the leftover is exactly the new values at or
    after [nextTime]. *)
Theorem DecodeAndCombine_splits_at_next_block (newValues : Values)
    (block : bytes) (nextTime : Z) (decoded : Values) (blk : bytes) :
  ascending newValues ->
  DecodeSameTypeBlock newValues block = Ok decoded ->
  len (Deduplicate (decoded ++ filter (before nextTime) newValues))
  <= DefaultMaxPointsPerBlock ->
  Encode (Deduplicate (decoded ++ filter (before nextTime) newValues)) = Ok blk ->
  DecodeAndCombine newValues block nextTime true
  = Ok (filter (from nextTime) newValues, blk).
Proof.
  intros Hasc Hd Hlen He. unfold DecodeAndCombine.
  rewrite Hd. cbn [bind]. rewrite (Search_ascending nextTime newValues Hasc).
  cbn [bind].
  pose proof (ascending_split nextTime newValues Hasc) as Hsplit.
  remember (filter (before nextTime) newValues) as a eqn:Ea.
  remember (filter (from nextTime) newValues) as b eqn:Eb.
  clear Ea Eb. subst newValues.
  pose proof (len_nonneg a). pose proof (len_nonneg b).
  rewrite slice_prefix by (rewrite ?len_app; lia). cbn [bind].
  rewrite slice_suffix by (rewrite ?len_app; lia). cbn [bind].
  rewrite firstn_len_app, skipn_len_app.
  replace (len (Deduplicate (decoded ++ a)) >? DefaultMaxPointsPerBlock)
    with false by (symmetry; rewrite Z.gtb_ltb; apply Z.ltb_ge; lia).
  cbn [bind]. rewrite He. reflexivity.
Qed.

End MoreCombine.

Section MoreCombineExamples.

Import DataFile Engine Rewrite.

#[local] Existing Instance sampleCodec.

Lemma DecodeAndCombine_block_is_bounded_witness :
  exists vs, Encode vs = Ok (encoded [pt 1; pt 2; pt 3]) /\
             len vs <= DefaultMaxPointsPerBlock.
Proof.
  apply (DecodeAndCombine_block_is_bounded [pt 1; pt 9]
           (encoded [pt 2; pt 3]) 5 true [pt 9]).
  vm_compute. reflexivity.
Defined.

Lemma DecodeAndCombine_last_block_keeps_all_witness :
  exists decoded vmax nmin vs,
    DecodeSameTypeBlock [pt 3; pt 9] (encoded [pt 2; pt 3]) = Ok decoded /\
    Encoding.MaxTime decoded = Ok vmax /\
    Encoding.MinTime [pt 3; pt 9] = Ok nmin /\
    Encode vs = Ok (encoded [pt 2; pt 3; pt 9]) /\
    vs ++ [] = (if vmax >=? nmin then Deduplicate (decoded ++ [pt 3; pt 9])
                else decoded ++ [pt 3; pt 9]).
Proof.
  apply (DecodeAndCombine_last_block_keeps_all [pt 3; pt 9]
           (encoded [pt 2; pt 3]) 0).
  vm_compute. reflexivity.
Defined.

Lemma DecodeAndCombine_splits_at_next_block_witness :
  DecodeAndCombine [pt 1; pt 5; pt 9] (encoded [pt 2; pt 3]) 5 true
  = Ok (filter (from 5) [pt 1; pt 5; pt 9], encoded [pt 1; pt 2; pt 3]).
Proof.
  apply (DecodeAndCombine_splits_at_next_block [pt 1; pt 5; pt 9]
           (encoded [pt 2; pt 3]) 5 [pt 2; pt 3]).
  - unfold ascending. repeat constructor; simpl; lia.
  - vm_compute. reflexivity.
  - vm_compute. discriminate.
  - vm_compute. reflexivity.
Defined.

End MoreCombineExamples.

(** ** Splitting the values of a write, continued *)

Section MoreFilter.

Import DataFile Engine Slices.

Lemma map_get_set {V : Type} (m : list (Z * V)) (k k' : Z) (v : V) :
  map_get (map_set m k v) k' = if k =? k' then Some v else map_get m k'.
Proof.
  induction m as [|[k0 v0] r IH]; cbn [map_set map_get].
  - destruct (k =? k'); reflexivity.
  - destruct (k0 =? k) eqn:E; cbn [map_get].
    + apply Z.eqb_eq in E. subst k0. destruct (k =? k'); reflexivity.
    + rewrite IH. destruct (k0 =? k') eqn:E'; [|reflexivity].
      apply Z.eqb_eq in E'. subst k0. rewrite Z.eqb_sym, E. reflexivity.
Qed.

Lemma map_get_delete {V : Type} (m : list (Z * V)) (k k' : Z) :
  map_get (map_delete m k) k' = if k =? k' then None else map_get m k'.
Proof.
  induction m as [|[k0 v0] r IH]; cbn [map_delete map_get].
  - destruct (k =? k'); reflexivity.
  - destruct (k0 =? k) eqn:E.
    + rewrite IH. apply Z.eqb_eq in E. subst k0.
      destruct (k =? k'); reflexivity.
    + cbn [map_get]. rewrite IH. destruct (k0 =? k') eqn:E'; [|reflexivity].
      apply Z.eqb_eq in E'. subst k0. rewrite Z.eqb_sym, E. reflexivity.
Qed.

(** A slice header that stays inside its backing array. *)
Definition well_formed (h : heap Value) (s : hdr) : Prop :=
  0 <= off s /\ 0 <= length s <= cap s /\
  off s + length s <= len (array h s).

(** The values that the map [m] holds for [id]; none when [id] is not a
    key. *)
Definition values_of (h : heap Value) (m : list (Z * hdr)) (id : Z) : Values :=
  match map_get m id with
  | Some s => view h s
  | None => []
  end.

Lemma len_view (h : heap Value) (s : hdr) :
  well_formed h s -> len (view h s) = length s.
Proof.
  intros (Ho & Hl & Ha). unfold view, len in *.
  rewrite length_firstn, length_skipn. lia.
Qed.

Lemma view_reslice (h : heap Value) (s : hdr) (lo hi : Z) :
  well_formed h s -> 0 <= lo -> lo <= hi -> hi <= length s ->
  exists r, reslice s lo hi = Ok r /\
            view h r = skipn (Z.to_nat lo) (firstn (Z.to_nat hi) (view h s)).
Proof.
  intros (Ho & Hl & Ha) H0 H1 H2. unfold reslice.
  replace (0 <=? lo) with true by (symmetry; apply Z.leb_le; lia).
  replace (lo <=? hi) with true by (symmetry; apply Z.leb_le; lia).
  replace (hi <=? cap s) with true by (symmetry; apply Z.leb_le; lia).
  cbn [andb]. eexists. split; [reflexivity|].
  unfold view, array. cbn [base off length].
  rewrite firstn_firstn.
  rewrite Nat.min_l by (apply Z2Nat.inj_le; lia).
  rewrite skipn_firstn_comm, skipn_skipn.
  f_equal; [lia|f_equal; lia].
Qed.

Lemma minIndex_loop_bound (minTime maxTime : Z) (vs : Values) :
  forall i, 0 <= i ->
    minIndex_loop vs i minTime maxTime = 0 \/
    i <= minIndex_loop vs i minTime maxTime < i + len vs.
Proof.
  induction vs as [|v r IH]; intros i Hi; cbn [minIndex_loop].
  - left. reflexivity.
  - pose proof (len_nonneg r).
    assert (Hlen : len (v :: r) = 1 + len r) by (unfold len; cbn [Datatypes.length]; lia).
    destruct ((UnixNano v >=? minTime) && (UnixNano v <? maxTime)).
    + right. lia.
    + destruct (IH (i + 1)) as [H0|H1]; [lia|left; exact H0|right; lia].
Qed.

Lemma maxIndex_loop_all_before (maxTime : Z) (vs : Values) :
  (forall v, In v vs -> UnixNano v < maxTime) ->
  maxIndex_loop (rev vs) (len vs - 1) maxTime (len vs) = len vs.
Proof.
  intros H. destruct (rev vs) as [|v r] eqn:E; cbn [maxIndex_loop].
  - reflexivity.
  - assert (Hin : In v vs) by (apply in_rev; rewrite E; left; reflexivity).
    apply H in Hin.
    replace (UnixNano v <? maxTime) with true by (symmetry; apply Z.ltb_lt; lia).
    lia.
Qed.

(** What one turn of the loop does with a series whose values are all
    before [maxTime]: the values from [minIndex] on are returned, those
    before it stay; the backing arrays are not written. *)
Lemma filterDataBetweenTimes_entry_before (h : heap Value) (minTime maxTime : Z)
    (cur filt : list (Z * hdr)) (id : Z) (s : hdr) :
  well_formed h s ->
  (forall v, In v (view h s) -> UnixNano v < maxTime) ->
  let k := minIndex_loop (view h s) 0 minTime maxTime in
  exists f cur',
    filterDataBetweenTimes_entry minTime maxTime (h, cur, filt) id s
    = Ok (h, cur', map_set filt id f) /\
    view h f = skipn (Z.to_nat k) (view h s) /\
    (forall id', id' <> id -> map_get cur' id' = map_get cur id') /\
    (if k =? 0 then map_get cur' id = None
     else exists kept, map_get cur' id = Some kept /\
                       view h kept = firstn (Z.to_nat k) (view h s)).
Proof.
  intros Hwf Hmax k. unfold filterDataBetweenTimes_entry.
  pose proof (len_view h s Hwf) as Hlen.
  rewrite <- Hlen. rewrite (maxIndex_loop_all_before maxTime _ Hmax).
  fold k. rewrite Hlen.
  pose proof (len_nonneg (view h s)) as Hn.
  assert (Hk : 0 <= k /\ (k = 0 \/ k < length s)).
  { destruct (minIndex_loop_bound minTime maxTime (view h s) 0) as [H0|H1];
      [lia|fold k in H0; lia|fold k in H1; lia]. }
  destruct (view_reslice h s k (length s) Hwf) as (f & Hf & Hvf); [lia|lia|lia|].
  rewrite Hf. cbn [bind]. exists f.
  rewrite Z.eqb_refl, andb_true_r.
  assert (Hview : view h f = skipn (Z.to_nat k) (view h s)).
  { rewrite Hvf. f_equal. apply firstn_all2. unfold len in Hlen. lia. }
  destruct (k =? 0) eqn:Ek0.
  - rewrite orb_true_r. exists (map_delete cur id).
    repeat split; try assumption.
    + intros id' Hne. rewrite map_get_delete.
      replace (id =? id') with false by (symmetry; apply Z.eqb_neq; congruence).
      reflexivity.
    + rewrite map_get_delete, Z.eqb_refl. reflexivity.
  - apply Z.eqb_neq in Ek0.
    replace (k =? length s) with false by (symmetry; apply Z.eqb_neq; lia).
    cbn [orb].
    destruct (view_reslice h s 0 k Hwf) as (kept & Hkept & Hvk); [lia|lia|lia|].
    rewrite Hkept. cbn [bind]. rewrite Z.ltb_irrefl.
    exists (map_set cur id kept). repeat split; try assumption.
    + intros id' Hne. rewrite map_get_set.
      replace (id =? id') with false by (symmetry; apply Z.eqb_neq; congruence).
      reflexivity.
    + exists kept. split; [rewrite map_get_set, Z.eqb_refl; reflexivity|].
      rewrite Hvk. reflexivity.
Qed.

Lemma filterDataBetweenTimes_loop_before (h : heap Value) (minTime maxTime : Z) :
  forall (entries cur filt : list (Z * hdr)),
    NoDup (map fst entries) ->
    (forall id s, In (id, s) entries ->
       well_formed h s /\ forall v, In v (view h s) -> UnixNano v < maxTime) ->
    exists cur' filt',
      filterDataBetweenTimes_loop minTime maxTime entries (h, cur, filt)
      = Ok (h, cur', filt') /\
      (forall id, ~ In id (map fst entries) ->
         map_get cur' id = map_get cur id /\ map_get filt' id = map_get filt id) /\
      (forall id s, In (id, s) entries ->
         let k := minIndex_loop (view h s) 0 minTime maxTime in
         exists f, map_get filt' id = Some f /\
           view h f = skipn (Z.to_nat k) (view h s) /\
           (if k =? 0 then map_get cur' id = None
            else exists kept, map_get cur' id = Some kept /\
                   view h kept = firstn (Z.to_nat k) (view h s))).
Proof.
  induction entries as [|[id s] rest IH]; intros cur filt Hnd Hall.
  - exists cur, filt. split; [reflexivity|]. split; [auto|].
    intros ? ? [].
  - cbn [map fst] in Hnd. inversion Hnd as [|? ? Hnotin Hnd']; subst.
    destruct (Hall id s (or_introl eq_refl)) as [Hwf Hmax].
    destruct (filterDataBetweenTimes_entry_before h minTime maxTime cur filt id s
                Hwf Hmax) as (f & cur1 & Hstep & Hvf & Hother & Hkept).
    destruct (IH cur1 (map_set filt id f) Hnd') as (cur' & filt' & Hloop & Hout & Hin).
    { intros id' s' Hi. apply (Hall id' s'). right. exact Hi. }
    exists cur', filt'. cbn [filterDataBetweenTimes_loop].
    rewrite Hstep. cbn [bind]. split; [exact Hloop|]. split.
    + intros id' Hni. cbn [map fst] in Hni.
      assert (Hne : id' <> id) by (intros ->; apply Hni; left; reflexivity).
      destruct (Hout id') as [H1 H2]; [intros Hi; apply Hni; right; exact Hi|].
      rewrite H1, H2, (Hother id' Hne). rewrite map_get_set.
      replace (id =? id') with false by (symmetry; apply Z.eqb_neq; congruence).
      split; reflexivity.
    + intros id' s' [Heq|Hi].
      * injection Heq as <- <-. cbv zeta.
        destruct (Hout id Hnotin) as [H1 H2].
        exists f. rewrite H2, map_get_set, Z.eqb_refl.
        split; [reflexivity|]. split; [exact Hvf|].
        rewrite H1. exact Hkept.
      * apply Hin. exact Hi.
Qed.

(** X19: when the keys are distinct, the slices lie inside their backing
    arrays and every value is before [maxTime],
    [filterDataBetweenTimes] writes to no backing array and splits
    every series in two: the values left in the passed-in map followed
    by the values in the returned map are the values of the series; a
    series that is no longer a key of the passed-in map counts as
    empty. *)
Theorem filterDataBetweenTimes_splits_each_series (h : heap Value)
    (valuesByID : list (Z * hdr)) (minTime maxTime : Z) :
  NoDup (map fst valuesByID) ->
  (forall id s, In (id, s) valuesByID ->
     well_formed h s /\ forall v, In v (view h s) -> UnixNano v < maxTime) ->
  exists kept filtered,
    filterDataBetweenTimes h valuesByID minTime maxTime = Ok (h, kept, filtered) /\
    forall id s, In (id, s) valuesByID ->
      values_of h kept id ++ values_of h filtered id = view h s.
Proof.
  intros Hnd Hall. unfold filterDataBetweenTimes.
  destruct (filterDataBetweenTimes_loop_before h minTime maxTime valuesByID
              valuesByID [] Hnd Hall) as (kept & filt & Hrun & _ & Hin).
  exists kept, filt. split; [exact Hrun|].
  intros id s Hi. destruct (Hin id s Hi) as (f & Hf & Hvf & Hk).
  unfold values_of. rewrite Hf, Hvf.
  destruct (minIndex_loop (view h s) 0 minTime maxTime =? 0) eqn:E.
  - rewrite Hk. apply Z.eqb_eq in E. rewrite E. reflexivity.
  - destruct Hk as (k & Hk & Hvk). rewrite Hk, Hvk. apply firstn_skipn.
Qed.

Lemma minIndex_loop_none (minTime maxTime : Z) (vs : Values) :
  (forall v, In v vs -> UnixNano v < minTime) ->
  forall i, minIndex_loop vs i minTime maxTime = 0.
Proof.
  induction vs as [|v r IH]; intros H i; cbn [minIndex_loop]; [reflexivity|].
  assert (Hv : UnixNano v < minTime) by (apply H; left; reflexivity).
  rewrite Z.geb_leb.
  replace (minTime <=? UnixNano v) with false by (symmetry; apply Z.leb_gt; lia).
  cbn [andb]. apply IH. intros w Hw. apply H. right. exact Hw.
Qed.

(** X20: under the same conditions a series whose values are all before
    [minTime], so that none is in the range, is moved as a whole: the
    returned map holds all its values and the passed-in map has lost
    the key. *)
Theorem filterDataBetweenTimes_moves_older_series (h : heap Value)
    (valuesByID : list (Z * hdr)) (minTime maxTime : Z) (id : Z) (s : hdr) :
  NoDup (map fst valuesByID) ->
  (forall id s, In (id, s) valuesByID ->
     well_formed h s /\ forall v, In v (view h s) -> UnixNano v < maxTime) ->
  In (id, s) valuesByID ->
  (forall v, In v (view h s) -> UnixNano v < minTime) ->
  exists kept filtered,
    filterDataBetweenTimes h valuesByID minTime maxTime = Ok (h, kept, filtered) /\
    map_get kept id = None /\
    values_of h filtered id = view h s.
Proof.
  intros Hnd Hall Hi Hold. unfold filterDataBetweenTimes.
  destruct (filterDataBetweenTimes_loop_before h minTime maxTime valuesByID
              valuesByID [] Hnd Hall) as (kept & filt & Hrun & _ & Hin).
  exists kept, filt. split; [exact Hrun|].
  destruct (Hin id s Hi) as (f & Hf & Hvf & Hk).
  rewrite (minIndex_loop_none minTime maxTime _ Hold) in Hvf, Hk.
  cbn in Hk. split; [exact Hk|].
  unfold values_of. rewrite Hf, Hvf. reflexivity.
Qed.

Lemma minIndex_loop_first (minTime maxTime : Z) (a : Values) (v : Value)
    (b : Values) :
  (forall x, In x a -> UnixNano x < minTime) ->
  minTime <= UnixNano v < maxTime ->
  forall i, minIndex_loop (a ++ v :: b) i minTime maxTime = i + len a.
Proof.
  intros Ha Hv. induction a as [|x r IH]; intros i; cbn [app minIndex_loop].
  - rewrite Z.geb_leb.
    replace (minTime <=? UnixNano v) with true by (symmetry; apply Z.leb_le; lia).
    replace (UnixNano v <? maxTime) with true by (symmetry; apply Z.ltb_lt; lia).
    cbn [andb]. unfold len. simpl. lia.
  - assert (Hx : UnixNano x < minTime) by (apply Ha; left; reflexivity).
    rewrite Z.geb_leb.
    replace (minTime <=? UnixNano x) with false by (symmetry; apply Z.leb_gt; lia).
    cbn [andb]. rewrite IH by (intros y Hy; apply Ha; right; exact Hy).
    unfold len. cbn [Datatypes.length]. lia.
Qed.

(** X21: under the same conditions a series in ascending order of time
    with a value at or after [minTime] is split at [minTime]: the
    returned map holds exactly its values at or after [minTime], the
    passed-in map keeps exactly those before it. *)
Theorem filterDataBetweenTimes_ascending_series (h : heap Value)
    (valuesByID : list (Z * hdr)) (minTime maxTime : Z) (id : Z) (s : hdr) :
  NoDup (map fst valuesByID) ->
  (forall id s, In (id, s) valuesByID ->
     well_formed h s /\ forall v, In v (view h s) -> UnixNano v < maxTime) ->
  In (id, s) valuesByID ->
  ascending (view h s) ->
  (exists v, In v (view h s) /\ minTime <= UnixNano v) ->
  exists kept filtered,
    filterDataBetweenTimes h valuesByID minTime maxTime = Ok (h, kept, filtered) /\
    values_of h filtered id = filter (from minTime) (view h s) /\
    values_of h kept id = filter (before minTime) (view h s).
Proof.
  intros Hnd Hall Hi Hasc (v & Hv & Hge). unfold filterDataBetweenTimes.
  destruct (filterDataBetweenTimes_loop_before h minTime maxTime valuesByID
              valuesByID [] Hnd Hall) as (kept & filt & Hrun & _ & Hin).
  exists kept, filt. split; [exact Hrun|].
  destruct (Hin id s Hi) as (f & Hf & Hvf & Hk).
  destruct (Hall id s Hi) as [_ Hmax].
  pose proof (ascending_split minTime (view h s) Hasc) as Hsplit.
  assert (Ha : forall x, In x (filter (before minTime) (view h s)) ->
                         UnixNano x < minTime).
  { intros x Hx. apply filter_In in Hx. destruct Hx as [_ Hx].
    unfold before in Hx. apply Z.ltb_lt in Hx. exact Hx. }
  assert (Hb : forall x, In x (filter (from minTime) (view h s)) ->
                         minTime <= UnixNano x < maxTime).
  { intros x Hx. apply filter_In in Hx. destruct Hx as [Hx1 Hx].
    unfold from in Hx. rewrite Z.geb_leb in Hx. apply Z.leb_le in Hx.
    specialize (Hmax x Hx1). lia. }
  assert (Hne : In v (filter (from minTime) (view h s))).
  { apply filter_In. split; [exact Hv|]. unfold from. rewrite Z.geb_leb.
    apply Z.leb_le. exact Hge. }
  unfold values_of. rewrite Hf, Hvf. clear Hf Hvf Hrun Hin Hi Hall Hmax Hv.
  remember (filter (before minTime) (view h s)) as a eqn:Ea.
  remember (filter (from minTime) (view h s)) as b eqn:Eb.
  clear Ea Eb. rewrite Hsplit in *. clear Hsplit.
  destruct b as [|w b]; [destruct Hne|].
  rewrite (minIndex_loop_first minTime maxTime a w b Ha
             (Hb w (or_introl eq_refl))) in *.
  rewrite Z.add_0_l in *. rewrite skipn_len_app. split; [reflexivity|].
  destruct (len a =? 0) eqn:E.
  - rewrite Hk. apply Z.eqb_eq in E. destruct a; [reflexivity|].
    unfold len in E. simpl in E. lia.
  - destruct Hk as (k & Hk & Hvk). rewrite Hk, Hvk. apply firstn_len_app.
Qed.

End MoreFilter.

Section MoreFilterExamples.

Import DataFile Engine Slices.

Definition two_heap : heap Value :=
  [[pt 1; pt 2; pt 30; pt 40]; [pt 5; pt 6]].

Definition two_slices : list (Z * hdr) :=
  [(7, {| base := 0; off := 0; length := 4; cap := 4 |});
   (8, {| base := 1; off := 0; length := 2; cap := 2 |})].

Lemma two_slices_distinct : NoDup (map fst two_slices).
Proof. simpl. repeat constructor; simpl; intuition discriminate. Qed.

Lemma two_slices_before_100 (id : Z) (s : hdr) :
  In (id, s) two_slices ->
  well_formed two_heap s /\
  forall v, In v (view two_heap s) -> UnixNano v < 100.
Proof.
  intros [H|[H|[]]]; injection H as <- <-.
  - split; [unfold well_formed, array, len; simpl; lia|].
    intros v Hv. simpl in Hv.
    repeat (destruct Hv as [<-|Hv]; [simpl; lia|]). destruct Hv.
  - split; [unfold well_formed, array, len; simpl; lia|].
    intros v Hv. simpl in Hv.
    repeat (destruct Hv as [<-|Hv]; [simpl; lia|]). destruct Hv.
Qed.

Lemma filterDataBetweenTimes_splits_each_series_witness :
  exists kept filtered,
    filterDataBetweenTimes two_heap two_slices 10 100
    = Ok (two_heap, kept, filtered) /\
    forall id s, In (id, s) two_slices ->
      values_of two_heap kept id ++ values_of two_heap filtered id
      = view two_heap s.
Proof.
  apply (filterDataBetweenTimes_splits_each_series two_heap two_slices 10 100
           two_slices_distinct two_slices_before_100).
Defined.

Lemma filterDataBetweenTimes_moves_older_series_witness :
  exists kept filtered,
    filterDataBetweenTimes two_heap two_slices 10 100
    = Ok (two_heap, kept, filtered) /\
    map_get kept 8 = None /\
    values_of two_heap filtered 8 = [pt 5; pt 6].
Proof.
  apply (filterDataBetweenTimes_moves_older_series two_heap two_slices 10 100 8
           {| base := 1; off := 0; length := 2; cap := 2 |}
           two_slices_distinct two_slices_before_100).
  - right. left. reflexivity.
  - intros v Hv. simpl in Hv.
    repeat (destruct Hv as [<-|Hv]; [simpl; lia|]). destruct Hv.
Defined.

Lemma filterDataBetweenTimes_ascending_series_witness :
  exists kept filtered,
    filterDataBetweenTimes two_heap two_slices 10 100
    = Ok (two_heap, kept, filtered) /\
    values_of two_heap filtered 7 = [pt 30; pt 40] /\
    values_of two_heap kept 7 = [pt 1; pt 2].
Proof.
  apply (filterDataBetweenTimes_ascending_series two_heap two_slices 10 100 7
           {| base := 0; off := 0; length := 4; cap := 4 |}
           two_slices_distinct two_slices_before_100).
  - left. reflexivity.
  - unfold ascending. simpl. repeat constructor; simpl; lia.
  - exists (pt 30). split; [simpl; tauto|simpl; lia].
Defined.

End MoreFilterExamples.

(** ** Seeking, continued *)

Section MoreCursor.

Import DataFile Cursor.

Context {codec : Codec}.

Variable EOF : Z.

Lemma SeekTo_vals_none (vs : Values) (seek : Z) :
  (forall x, In x vs -> UnixNano x < seek) -> SeekTo_vals vs seek = None.
Proof.
  induction vs as [|v r IH]; intros H; cbn [SeekTo_vals]; [reflexivity|].
  rewrite Z.geb_leb.
  replace (seek <=? UnixNano v) with false
    by (symmetry; apply Z.leb_gt; apply H; left; reflexivity).
  apply IH. intros x Hx. apply H. right. exact Hx.
Qed.

Lemma SeekTo_select_first (seek : Z) (d : dataFile) (post : list dataFile)
    (dmin dmax : Z) :
  DataFile.MinTime d = Ok dmin -> DataFile.MaxTime d = Ok dmax ->
  dmin <= seek <= dmax ->
  forall (pre : list dataFile) (i : Z),
    (forall x, In x pre ->
       exists fmin fmax, DataFile.MinTime x = Ok fmin /\
                         DataFile.MaxTime x = Ok fmax /\ fmax < seek) ->
    SeekTo_select (pre ++ d :: post) i seek = Ok (Some (i + len pre, d)).
Proof.
  intros Hmin Hmax Hin. induction pre as [|x r IH]; intros i Hpre.
  - cbn [app SeekTo_select]. rewrite Hmin. cbn [bind].
    rewrite Z.geb_leb.
    replace (dmin <=? seek) with true by (symmetry; apply Z.leb_le; lia).
    rewrite Hmax. cbn [bind].
    replace (seek <=? dmax) with true by (symmetry; apply Z.leb_le; lia).
    unfold len. simpl. now rewrite Z.add_0_r.
  - destruct (Hpre x (or_introl eq_refl)) as (fmin & fmax & Hxmin & Hxmax & Hlt).
    cbn [app SeekTo_select]. rewrite Hxmin. cbn [bind].
    assert (Hrest : SeekTo_select (r ++ d :: post) (i + 1) seek
                    = Ok (Some (i + len (x :: r), d))).
    { rewrite IH by (intros y Hy; apply Hpre; right; exact Hy).
      unfold len. cbn [Datatypes.length]. do 3 f_equal. lia. }
    destruct (seek >=? fmin); [|exact Hrest].
    rewrite Hxmax. cbn [bind].
    replace (seek <=? fmax) with false by (symmetry; apply Z.leb_gt; lia).
    exact Hrest.
Qed.

(** The index of the file [d] sends the series [id] to the position
    [p]; the block there is followed by a block or an index entry of
    another id and decodes to the values [vs]. *)
Record last_block_of_series (d : dataFile) (id p : Z) (vs : Values) : Prop := {
  last_position : StartingPositionForID d id = Ok p /\ p <> 0;
  last_bytes :
    exists lb length nb nid blk,
      slice (mmap d) (u32 (p + 8)) (u32 (p + 12)) = Ok lb /\
      btou32 lb = Ok length /\
      u32 (p + 12 + length) < size d /\
      slice (mmap d) (u32 (p + 12 + length)) (u32 (u32 (p + 12 + length) + 8))
      = Ok nb /\
      btou64 nb = Ok nid /\ nid <> id /\
      slice (mmap d) (u32 (p + 12)) (u32 (p + 12 + length)) = Ok blk /\
      DecodeBlock blk = Ok vs
}.

Lemma SeekTo_loop_stuck (d : dataFile) (id0 p seek : Z) (v : Value)
    (rest : Values) :
  last_block_of_series d id0 p (v :: rest) ->
  (forall x, In x (v :: rest) -> UnixNano x < seek) ->
  forall (fuel : nat) (c : cursor),
    f c = Some d -> id c = id0 ->
    SeekTo_loop EOF fuel c None seek = Abort OutOfFuel /\
    SeekTo_loop EOF fuel c (Some p) seek = Abort OutOfFuel.
Proof.
  intros [[Hp Hp0] (lb & length & nb & nid & blk & Hlb & Hlen & Hnext & Hnb
                      & Hnid & Hne & Hblk & Hdec)] Hall.
  induction fuel as [|k IH]; intros c Hf Hid; [split; reflexivity|].
  destruct (IH c Hf Hid) as [_ IHp].
  split.
  - cbn [SeekTo_loop]. rewrite Hf. cbn [deref bind]. rewrite Hid, Hp.
    cbn [bind].
    replace (p =? 0) with false by (symmetry; apply Z.eqb_neq; exact Hp0).
    exact IHp.
  - cbn [SeekTo_loop]. rewrite Hf. cbn [deref bind]. rewrite Hlb. cbn [bind].
    rewrite Hlen. cbn [bind].
    replace (u32 (p + 12 + length) <? size d) with true
      by (symmetry; apply Z.ltb_lt; exact Hnext).
    rewrite Hnb. cbn [bind]. rewrite Hnid. cbn [bind]. rewrite Hid.
    replace (nid =? id0) with false by (symmetry; apply Z.eqb_neq; exact Hne).
    cbn [bind].
    unfold decodeBlockAndGetValues. rewrite Hf. cbn [deref bind].
    rewrite Hlb. cbn [bind]. rewrite Hlen. cbn [bind]. rewrite Hblk.
    cbn [bind]. rewrite Hdec. cbn [bind].
    unfold index. cbn [Z.leb Z.compare]. 
    replace (0 <? len (v :: rest)) with true
      by (symmetry; apply Z.ltb_lt; unfold len; cbn [Datatypes.length]; lia).
    cbn [andb Z.to_nat nth_error bind].
    destruct (slice (v :: rest) 1 (len (v :: rest))) as [tl|] eqn:Etl.
    2:{ exfalso. rewrite slice_suffix in Etl; [discriminate|lia|].
        unfold len. cbn [Datatypes.length]. lia. }
    cbn [bind].
    replace (UnixNano v >=? seek) with false.
    2:{ symmetry. rewrite Z.geb_leb. apply Z.leb_gt. apply Hall. left.
        reflexivity. }
    rewrite slice_suffix in Etl;
      [|lia|unfold len; cbn [Datatypes.length]; lia].
    change (skipn (Z.to_nat 1) (v :: rest)) with rest in Etl.
    assert (Htl : tl = rest) by congruence. subst tl.
    cbn [vals set_vals_pos].
    rewrite SeekTo_vals_none by (intros x Hx; apply Hall; right; exact Hx).
    apply IH; reflexivity || (cbn [f id set_vals_pos]; assumption).
Qed.

(** X22: [SeekTo] does not return when the file it selects for the time
    sought holds one block of the series, followed by a block or an
    index entry of another id, and all the values of that block are
    before the time sought: after the block the outer loop looks up the
    same file again.  Whatever the fuel, the loops use it up. *)
Theorem SeekTo_never_returns (c : cursor) (seek : Z)
    (pre : list dataFile) (d : dataFile) (post : list dataFile)
    (dmin dmax p : Z) (v : Value) (rest : Values) :
  files c = pre ++ d :: post ->
  (forall x, In x pre ->
     exists fmin fmax, DataFile.MinTime x = Ok fmin /\
                       DataFile.MaxTime x = Ok fmax /\
                       fmin <= fmax /\ fmax < seek) ->
  DataFile.MinTime d = Ok dmin -> DataFile.MaxTime d = Ok dmax ->
  dmin <= seek <= dmax ->
  last_block_of_series d (id c) p (v :: rest) ->
  (forall x, In x (v :: rest) -> UnixNano x < seek) ->
  forall fuel, SeekTo EOF fuel c seek = Abort OutOfFuel.
Proof.
  intros Hfiles Hpre Hmin Hmax Hin Hblock Hall fuel.
  unfold SeekTo. rewrite Hfiles.
  assert (Hlen : (len (pre ++ d :: post) =? 0) = false).
  { apply Z.eqb_neq. rewrite len_app. pose proof (len_nonneg pre).
    pose proof (len_nonneg post). unfold len at 2. cbn [Datatypes.length].
    unfold len in *. lia. }
  rewrite Hlen.
  assert (Hsel : SeekTo_select (pre ++ d :: post) 0 seek
                 = Ok (Some (0 + len pre, d))).
  { apply (SeekTo_select_first seek d post dmin dmax Hmin Hmax Hin).
    intros x Hx. destruct (Hpre x Hx) as (a & b & Ha & Hb & _ & Hlt).
    exists a, b. auto. }
  assert (Hfirst : exists first fmin,
             index (pre ++ d :: post) 0 = Ok first /\
             DataFile.MinTime first = Ok fmin /\ fmin <= seek).
  { destruct pre as [|x r].
    - exists d, dmin. split; [reflexivity|split; [exact Hmin|lia]].
    - destruct (Hpre x (or_introl eq_refl)) as (a & b & Ha & Hb & Hab & Hlt).
      exists x, a. split; [reflexivity|split; [exact Ha|lia]]. }
  destruct Hfirst as (first & fmin & Hidx & Hfmin & Hle).
  rewrite Hidx. cbn [bind]. rewrite Hfmin. cbn [bind].
  replace (seek <? fmin) with false by (symmetry; apply Z.ltb_ge; lia).
  rewrite Hsel. cbn [bind f set_file].
  apply (SeekTo_loop_stuck d (id c) p seek v rest Hblock Hall fuel).
  - reflexivity.
  - reflexivity.
Qed.

End MoreCursor.

Section MoreCursorEnd.

Import DataFile Cursor.

Context {codec : Codec}.

Variable EOF : Z.

Lemma index_In {A : Type} (l : list A) (i : Z) (x : A) :
  index l i = Ok x -> In x l.
Proof.
  unfold index. destruct ((0 <=? i) && (i <? len l)); [|discriminate].
  destruct (nth_error l (Z.to_nat i)) as [a|] eqn:E; [|discriminate].
  intros H. assert (a = x) by congruence. subst a.
  eapply nth_error_In; eauto.
Qed.

Lemma index_some {A : Type} (l : list A) (i : Z) :
  0 <= i < len l -> exists x, index l i = Ok x.
Proof.
  intros Hi. unfold index.
  replace (0 <=? i) with true by (symmetry; apply Z.leb_le; lia).
  replace (i <? len l) with true by (symmetry; apply Z.ltb_lt; lia).
  cbn [andb]. destruct (nth_error l (Z.to_nat i)) as [a|] eqn:E.
  - exists a. reflexivity.
  - apply nth_error_None in E. unfold len in Hi. lia.
Qed.

Lemma Next_loop_absent :
  forall (n : nat) (c : cursor),
    (forall d, In d (files c) -> StartingPositionForID d (id c) = Ok 0) ->
    0 <= filesPos c ->
    len (files c) - filesPos c <= Z.of_nat n ->
    exists c',
      Next_loop EOF n c = Ok ((EOF, None), c') /\
      id c' = id c /\ files c' = files c /\ f c' = f c /\ vals c' = vals c /\
      filesPos c' = Z.max (filesPos c) (len (files c)).
Proof.
  induction n as [|k IH]; intros c Hall H0 Hn.
  - exists c. cbn [Next_loop].
    replace (filesPos c <? len (files c)) with false
      by (symmetry; apply Z.ltb_ge; lia).
    repeat split. lia.
  - cbn [Next_loop]. destruct (filesPos c <? len (files c)) eqn:E.
    + apply Z.ltb_lt in E.
      destruct (index_some (files c) (filesPos c)) as (d & Hd); [lia|].
      rewrite Hd. cbn [bind]. rewrite (Hall d (index_In _ _ _ Hd)).
      cbn [bind]. rewrite Z.eqb_refl.
      destruct (IH (set_filesPos c (filesPos c + 1))) as (c' & Hrun & Hi & Hfs & Hf & Hv & Hp).
      * exact Hall.
      * cbn [filesPos set_filesPos]. lia.
      * cbn [filesPos files set_filesPos]. lia.
      * exists c'. split; [exact Hrun|].
        cbn [id files f vals filesPos set_filesPos] in *.
        repeat split; try assumption. lia.
    + apply Z.ltb_ge in E. exists c. repeat split. lia.
Qed.

(** X23: [Next] on a cursor with no buffered value and no current file,
    over files none of which holds the series, returns EOF and leaves
    the file position past the last file; every further [Next] returns
    EOF again and leaves the cursor as it is. *)
Theorem Next_without_the_series (c : cursor) :
  vals c = [] -> f c = None -> 0 <= filesPos c ->
  (forall d, In d (files c) -> StartingPositionForID d (id c) = Ok 0) ->
  exists c',
    Next EOF c = Ok ((EOF, None), c') /\
    filesPos c' = Z.max (filesPos c) (len (files c)) /\
    Next EOF c' = Ok ((EOF, None), c').
Proof.
  intros Hv Hf H0 Hall. unfold Next at 1. rewrite Hv, Hf. cbn [len Datatypes.length Z.of_nat Z.eqb bind].
  destruct (Next_loop_absent (Z.to_nat (len (files c) - filesPos c)) c Hall H0)
    as (c' & Hrun & Hi & Hfs & Hf' & Hv' & Hp); [lia|].
  exists c'. split; [exact Hrun|]. split; [exact Hp|].
  unfold Next. rewrite Hv', Hv, Hf', Hf.
  cbn [len Datatypes.length Z.of_nat Z.eqb bind].
  rewrite Hfs, Hp.
  replace (Z.to_nat (len (files c) - Z.max (filesPos c) (len (files c))))
    with O by lia.
  cbn [Next_loop]. rewrite Hfs, Hp.
  replace (Z.max (filesPos c) (len (files c)) <? len (files c)) with false
    by (symmetry; apply Z.ltb_ge; lia).
  reflexivity.
Qed.

Lemma SeekTo_select_inv (seek : Z) (fs : list dataFile) :
  (forall d, In d fs ->
     exists mn mx, DataFile.MinTime d = Ok mn /\ DataFile.MaxTime d = Ok mx) ->
  forall i, 0 <= i ->
    SeekTo_select fs i seek = Ok None \/
    exists j d, SeekTo_select fs i seek = Ok (Some (j, d)) /\
                i <= j < i + len fs /\ In d fs.
Proof.
  induction fs as [|x r IH]; intros Hall i Hi; cbn [SeekTo_select].
  - left. reflexivity.
  - destruct (Hall x (or_introl eq_refl)) as (mn & mx & Hmn & Hmx).
    assert (Hlen : len (x :: r) = 1 + len r)
      by (unfold len; cbn [Datatypes.length]; lia).
    pose proof (len_nonneg r) as Hr.
    assert (Hrest : SeekTo_select r (i + 1) seek = Ok None \/
              exists j d, SeekTo_select r (i + 1) seek = Ok (Some (j, d)) /\
                          i <= j < i + len (x :: r) /\ In d (x :: r)).
    { destruct (IH (fun d Hd => Hall d (or_intror Hd)) (i + 1)) as [Hn|(j & d & Hs & Hj & Hd)];
        [lia|left; exact Hn|].
      right. exists j, d. split; [exact Hs|]. split; [lia|right; exact Hd]. }
    rewrite Hmn. cbn [bind]. destruct (seek >=? mn); [|exact Hrest].
    rewrite Hmx. cbn [bind]. destruct (seek <=? mx); [|exact Hrest].
    right. exists i, x. split; [reflexivity|]. split; [lia|left; reflexivity].
Qed.

Lemma SeekTo_loop_absent (seek : Z) :
  forall (fuel : nat) (c : cursor) (d : dataFile),
    f c = Some d ->
    StartingPositionForID d (id c) = Ok 0 ->
    (forall x, In x (files c) -> StartingPositionForID x (id c) = Ok 0) ->
    0 <= filesPos c ->
    (0 < fuel)%nat ->
    len (files c) - filesPos c <= Z.of_nat fuel ->
    exists c', SeekTo_loop EOF fuel c None seek = Ok ((EOF, None), c').
Proof.
  induction fuel as [|k IH]; intros c d Hf Hd Hall H0 Hpos Hn; [lia|].
  cbn [SeekTo_loop]. rewrite Hf. cbn [deref bind]. rewrite Hd. cbn [bind].
  rewrite Z.eqb_refl. cbn [filesPos files set_filesPos].
  destruct (filesPos c + 1 >=? len (files c)) eqn:E; [eexists; reflexivity|].
  rewrite Z.geb_leb in E. apply Z.leb_gt in E.
  destruct (index_some (files c) (filesPos c + 1)) as (d' & Hd'); [lia|].
  rewrite Hd'. cbn [bind].
  apply (IH _ d').
  - reflexivity.
  - cbn [id set_file set_filesPos]. apply Hall. exact (index_In _ _ _ Hd').
  - cbn [id files set_file set_filesPos]. exact Hall.
  - cbn [filesPos set_file]. lia.
  - lia.
  - cbn [filesPos files set_file set_filesPos]. lia.
Qed.

(** X24: [SeekTo] on a new cursor over files none of which holds the
    series returns EOF whatever the time sought, as soon as the fuel
    covers the number of files: it goes from file to file and stops
    after the last one. *)
Theorem SeekTo_without_the_series (fuel : nat) (id0 : Z)
    (fs : list dataFile) (asc : bool) (seek : Z) :
  (forall d, In d fs ->
     (exists mn mx, DataFile.MinTime d = Ok mn /\ DataFile.MaxTime d = Ok mx) /\
     StartingPositionForID d id0 = Ok 0) ->
  len fs <= Z.of_nat fuel ->
  exists c', SeekTo EOF fuel (newCursor id0 fs asc) seek = Ok ((EOF, None), c').
Proof.
  intros Hall Hfuel. unfold SeekTo. cbn [files newCursor].
  destruct fs as [|first rest]; [eexists; reflexivity|].
  assert (Hlen : len (first :: rest) = 1 + len rest)
    by (unfold len; cbn [Datatypes.length]; lia).
  pose proof (len_nonneg rest) as Hr.
  replace (len (first :: rest) =? 0) with false
    by (symmetry; apply Z.eqb_neq; lia).
  change (index (first :: rest) 0) with (Ok first). cbn [bind].
  destruct (Hall first (or_introl eq_refl)) as [(mn & mx & Hmn & Hmx) Hp].
  rewrite Hmn. cbn [bind].
  assert (Hpos : forall x, In x (first :: rest) ->
                           StartingPositionForID x id0 = Ok 0)
    by (intros x Hx; apply Hall; exact Hx).
  destruct (seek <? mn).
  - cbn [bind f set_file].
    apply (SeekTo_loop_absent seek fuel _ first); try reflexivity;
      cbn [id files filesPos set_file newCursor]; try assumption; lia.
  - destruct (SeekTo_select_inv seek (first :: rest)
                (fun d Hd => proj1 (Hall d Hd)) 0) as [Hn|(j & d & Hs & Hj & Hd)];
      [lia| |].
    + rewrite Hn. cbn [bind f newCursor]. eexists. reflexivity.
    + rewrite Hs. cbn [bind f set_file].
      apply (SeekTo_loop_absent seek fuel _ d); try reflexivity;
        cbn [id files filesPos set_file newCursor]; try (apply Hpos; assumption);
        try assumption; lia.
Qed.

End MoreCursorEnd.

Section MoreCursorExamples.

Import DataFile Engine Rewrite Cursor.

#[local] Existing Instance sampleCodec.

Lemma last_block_of_series_8 :
  last_block_of_series file_two_series 8 64 [pt 15; pt 25].
Proof.
  constructor.
  - split; [vm_compute; reflexivity|discriminate].
  - exists (u32tob 32), 32, (u64tob 3), 3, (encoded [pt 15; pt 25]).
    repeat split; try (vm_compute; reflexivity). discriminate.
Qed.

Lemma SeekTo_never_returns_witness :
  DataFile.MinTime file_two_series = Ok 10 /\
  DataFile.MaxTime file_two_series = Ok 31 /\
  forall fuel,
    SeekTo (-1) fuel (newCursor 8 [file_two_series; file_two_later] true) 28
    = Abort OutOfFuel.
Proof.
  split; [vm_compute; reflexivity|]. split; [vm_compute; reflexivity|].
  apply (SeekTo_never_returns (-1)
           (newCursor 8 [file_two_series; file_two_later] true) 28
           [] file_two_series [file_two_later] 10 31 64 (pt 15) [pt 25]).
  - reflexivity.
  - intros x [].
  - vm_compute. reflexivity.
  - vm_compute. reflexivity.
  - lia.
  - exact last_block_of_series_8.
  - intros x [<-|[<-|[]]]; simpl; lia.
Defined.

Lemma no_series_5 (d : dataFile) :
  In d [file_two_series; file_two_later] ->
  (exists mn mx, DataFile.MinTime d = Ok mn /\ DataFile.MaxTime d = Ok mx) /\
  StartingPositionForID d 5 = Ok 0.
Proof.
  intros [<-|[<-|[]]].
  - split; [exists 10, 31; split; vm_compute; reflexivity|].
    vm_compute. reflexivity.
  - split; [exists 50, 61; split; vm_compute; reflexivity|].
    vm_compute. reflexivity.
Qed.

Lemma Next_without_the_series_witness :
  exists c',
    Next (-1) (newCursor 5 [file_two_series; file_two_later] true)
    = Ok ((-1, None), c') /\
    filesPos c' = Z.max 0 2 /\
    Next (-1) c' = Ok ((-1, None), c').
Proof.
  apply (Next_without_the_series (-1)
           (newCursor 5 [file_two_series; file_two_later] true)).
  - reflexivity.
  - reflexivity.
  - simpl. lia.
  - intros d Hd. apply (no_series_5 d Hd).
Defined.

Lemma SeekTo_without_the_series_witness :
  exists c',
    SeekTo (-1) 2 (newCursor 5 [file_two_series; file_two_later] true) 20
    = Ok ((-1, None), c').
Proof.
  apply (SeekTo_without_the_series (-1) 2 5
           [file_two_series; file_two_later] true 20 no_series_5).
  vm_compute. discriminate.
Defined.

End MoreCursorExamples.
